(** * song-graph: the concurrent enrichment orchestrator

    A shallow embedding of the backend of song-graph
    ([backend/audio_features.py], [backend/lyrics_fetch.py],
    [backend/sentiment_analysis.py], [backend/main.py]) and the
    properties of its worker pools, of its parallel flow, of its
    progress stream and of its normalisation pass.

    Conventions of the embedding:
    - a track is a Python [dict] with string keys: [gmap string value];
      [d.copy()] is the identity on values, [d[k] = v] is [<[k:=v]> d],
      [d.update(o)] is [o ∪ d] (the keys of [o] win);
    - the values of a track are [None], numbers, strings and lists;
      Python numbers are idealised as real numbers ([R]), the booleans
      being the numbers 1 and 0 as they are in Python;
    - a string is a sequence of characters with code points below 256;
    - a call that may raise returns an [outcome];
    - the network clients, the tempo estimator, the sentiment model and
      the two text passes that prepare the lyrics for it are section
      variables: every theorem holds whatever they answer;
    - [concurrent.futures.as_completed] yields the futures in a
      completion order that the scheduler chooses: the pools take that
      order as an argument. *)

From Stdlib Require Import Ascii String Reals Lra Lia.
From stdpp Require Import gmap strings list fin_maps sorting.

Set Warnings "-register-all".
Local Open Scope string_scope.
Local Open Scope list_scope.
Local Open Scope nat_scope.

(** ** Python values, truthiness and strings *)

Module Py.

Inductive value : Type :=
| VNone
| VNum (r : R)
| VStr (s : string)
| VList (l : list value).

Inductive outcome (A : Type) : Type :=
| Returned (a : A)
| Raised (e : string).
Arguments Returned {A} a.
Arguments Raised {A} e.

#[export] Instance outcome_ret : MRet outcome := fun A a => Returned a.

#[export] Instance outcome_bind : MBind outcome := fun A B k m =>
  match m with
  | Returned a => k a
  | Raised e => Raised e
  end.

(** Equality of values is decidable (classically on the numbers). *)
Lemma value_eq_dec : forall v1 v2 : value, {v1 = v2} + {v1 <> v2}.
Proof.
  fix IH 1. intros v1 v2. decide equality.
  - apply Req_dec_T.
  - apply string_dec.
  - apply (List.list_eq_dec IH).
Defined.

#[export] Instance value_eq_decision : EqDecision value := value_eq_dec.

(** [bool(v)] *)
Definition truthy (v : value) : bool :=
  match v with
  | VNone => false
  | VNum r => if Req_dec_T r 0 then false else true
  | VStr s => match s with EmptyString => false | String _ _ => true end
  | VList l => match l with [] => false | _ :: _ => true end
  end.

(** [v is not None] *)
Definition is_not_none (v : value) : bool :=
  match v with
  | VNone => false
  | _ => true
  end.

(** [d.get(k)] and [d.get(k, dflt)]: the default is used only when the
    key is missing, a key bound to [None] yields [None]. *)
Definition dict_get (d : gmap string value) (k : string) : value :=
  default VNone (d !! k).

Definition dict_get_default (d : gmap string value) (k : string) (dflt : value) : value :=
  default dflt (d !! k).

(** [k in d] *)
Definition dict_has (d : gmap string value) (k : string) : bool :=
  match d !! k with
  | Some _ => true
  | None => false
  end.

(** [v[0]] for a truthy [v]: lists and strings are subscriptable,
    numbers are not. *)
Definition subscript0 (v : value) : outcome value :=
  match v with
  | VList (x :: _) => Returned x
  | VList [] => Raised "IndexError"
  | VStr (String c _) => Returned (VStr (String c EmptyString))
  | VStr EmptyString => Raised "IndexError"
  | VNum _ => Raised "TypeError"
  | VNone => Raised "TypeError"
  end.

(** [s[:n]] *)
Fixpoint str_take (n : nat) (s : string) : string :=
  match n, s with
  | S n', String c s' => String c (str_take n' s')
  | _, _ => EmptyString
  end.

(** The prefix of [s] before the first occurrence of [sep], when there
    is one: [s.split(sep)[0]] under the guard [sep in s]. *)
Fixpoint str_before (sep s : string) : option string :=
  if String.prefix sep s then Some EmptyString
  else match s with
       | EmptyString => None
       | String c s' => String c <$> str_before sep s'
       end.

(** [sep in s] *)
Definition str_contains (sep s : string) : bool :=
  match str_before sep s with
  | Some _ => true
  | None => false
  end.

(** The characters that [str.strip()] takes for white space. *)
Definition is_space (c : ascii) : bool :=
  let n := nat_of_ascii c in
  ((9 <=? n) && (n <=? 13)) || ((28 <=? n) && (n <=? 32)) || (n =? 133) || (n =? 160).

Fixpoint str_lstrip (s : string) : string :=
  match s with
  | String c s' => if is_space c then str_lstrip s' else s
  | EmptyString => EmptyString
  end.

Fixpoint str_rstrip (s : string) : string :=
  match s with
  | String c s' =>
      match str_rstrip s' with
      | EmptyString => if is_space c then EmptyString else String c EmptyString
      | r => String c r
      end
  | EmptyString => EmptyString
  end.

Definition str_strip (s : string) : string := str_rstrip (str_lstrip s).

(** [s.lower()], character by character. *)
Definition ascii_lower (c : ascii) : ascii :=
  let n := nat_of_ascii c in
  if ((65 <=? n) && (n <=? 90)) || ((192 <=? n) && (n <=? 222) && negb (n =? 215))
  then ascii_of_nat (n + 32) else c.

Fixpoint str_lower (s : string) : string :=
  match s with
  | String c s' => String (ascii_lower c) (str_lower s')
  | EmptyString => EmptyString
  end.

End Py.
Import Py.

Abbreviation Track := (gmap string value).

(** ** The fan-out / fan-in skeleton shared by the pools

    [executor.submit] is called once per position of the input, and
    [as_completed] hands the futures back in completion order. *)

Module Pool.

(** The futures met by the collecting loop, in completion order. *)
Definition as_completed {A} (order : list nat) (futures : list A) : list A :=
  omap (fun i => futures !! i) order.

(** [[results_dict[i] for i in range(n)]]: a missing key raises
    [KeyError]. *)
Definition gather (results_dict : gmap nat Track) (n : nat) : outcome (list Track) :=
  match mapM (fun i => results_dict !! i) (seq 0 n) with
  | Some l => Returned l
  | None => Raised "KeyError"
  end.

(** A call of the progress callback: [(completed, total, stage)]. *)
Definition progress_call : Type := nat * nat * string.

End Pool.

(** ** backend/audio_features.py *)

Module AudioFeatures.

Section audio_features.

(** The body of the [try] of [get_preview_url_with_finder]:
    [search_and_get_links] on the query made of title and artist, and
    the [previewUrl] of its first result ([VNone] when the search has
    none). *)
Variable search_preview_url : value -> value -> outcome value.

(** The body of the [try] of [calculate_bpm_from_preview_url]: the
    download of the preview and librosa's beat tracker; [Raised e]
    carries [str(e)]. *)
Variable download_and_beat_track : value -> outcome R.

Definition get_preview_url_with_finder (title artist : value) : value :=
  match search_preview_url title artist with
  | Returned url => url
  | Raised _ => VNone
  end.

Definition calculate_bpm_from_preview_url (preview_url : value) : value * value :=
  if negb (truthy preview_url) then (VNone, VStr "No preview URL available")
  else
    match download_and_beat_track preview_url with
    | Returned bpm => (VNum bpm, VNone)
    | Raised e => (VNone, VStr ("Error: " +:+ str_take 50 e))
    end.

Definition analyze_track_with_index (index : nat) (track : Track)
    (spotify_credentials : option (string * string)) : outcome (nat * Track) :=
  let track_copy := track in
  let title := dict_get_default track_copy "title" (VStr "Unknown") in
  let artists := dict_get_default track_copy "artists" (VList []) in
  artist ← (if truthy artists then subscript0 artists
            else Returned (VStr "Unknown"));
  let preview_url := dict_get track_copy "preview_url" in
  let preview_url :=
    if negb (truthy preview_url) && bool_decide (is_Some spotify_credentials)
    then get_preview_url_with_finder title artist
    else preview_url in
  if truthy preview_url then
    let '(bpm, error) := calculate_bpm_from_preview_url preview_url in
    if is_not_none bpm then
      Returned (index, <["audio_features_error" := VNone]> (<["tempo" := bpm]> track_copy))
    else
      Returned (index, <["audio_features_error" := error]> (<["tempo" := VNone]> track_copy))
  else
    Returned (index, <["audio_features_error" := VStr "No preview URL available"]>
                       (<["tempo" := VNone]> track_copy)).

(** The state of the collecting loop: [results_dict], [completed] and
    the calls made to [progress_callback]. *)
Definition collect_state : Type := gmap nat Track * nat * list Pool.progress_call.

(** One turn of the loop over [as_completed]: an exception of
    [future.result()] is printed and the loop goes on. *)
Definition collect_step (total_tracks : nat) (st : collect_state)
    (future : outcome (nat * Track)) : collect_state :=
  let '(results_dict, completed, calls) := st in
  match future with
  | Returned (index, updated_track) =>
      (<[index := updated_track]> results_dict, S completed,
       calls ++ [(S completed, total_tracks, "audio_features")])
  | Raised _ => st
  end.

Definition add_audio_features_to_tracks (order : list nat) (tracks : list Track)
    (spotify_credentials : option (string * string))
    : outcome (list Track) * list Pool.progress_call :=
  match tracks with
  | [] => (Returned tracks, [])
  | _ :: _ =>
      let total_tracks := length tracks in
      let futures :=
        imap (fun i track => analyze_track_with_index i track spotify_credentials) tracks in
      let '(results_dict, _, calls) :=
        foldl (collect_step total_tracks) (∅, 0, []) (Pool.as_completed order futures) in
      (Pool.gather results_dict (length tracks), calls)
  end.

End audio_features.

End AudioFeatures.

(** ** backend/lyrics_fetch.py *)

Module LyricsFetch.

(** What the Genius client hands back for a song: its [lyrics]
    attribute and, when the object has one, its [url]. *)
Record Song : Type := { song_lyrics : string; song_url : option value }.

Section lyrics_fetch.

(** [genius_client.search_song(title, artist)]: [None] when nothing is
    found, an exception when the request fails. *)
Variable search_song : value -> value -> outcome (option Song).

Definition no_lyrics (track : Track) : Track :=
  <["lyrics_source" := VNone]> (<["lyrics" := VNone]> track).

(** The track after the call, and the searches sent to Genius. *)
Definition fetch_lyrics_single (track : Track) : outcome (Track * list (value * value)) :=
  let title := dict_get_default track "title" (VStr "") in
  let artists := dict_get_default track "artists" (VList []) in
  artist ← (if truthy artists then subscript0 artists else Returned (VStr ""));
  if dict_has track "lyrics" && truthy (dict_get track "lyrics") then
    Returned (track, [])
  else
    let track' :=
      match search_song title artist with
      | Returned (Some song) =>
          if truthy (VStr (song_lyrics song)) then
            let lyrics := str_strip (song_lyrics song) in
            let lyrics :=
              match str_before "Embed" lyrics with
              | Some head => str_strip head
              | None => lyrics
              end in
            <["genius_url" := default VNone (song_url song)]>
              (<["lyrics_source" := VStr "genius"]> (<["lyrics" := VStr lyrics]> track))
          else no_lyrics track
      | Returned None => no_lyrics track
      | Raised _ => no_lyrics track
      end in
    Returned (track', [(title, artist)]).

Definition fetch_with_index (index : nat) (track : Track) : outcome (nat * Track) :=
  r ← fetch_lyrics_single track; Returned (index, r.1).

Definition collect_state : Type := gmap nat Track * nat * list Pool.progress_call.

(** One turn of the loop over [as_completed]; nothing catches an
    exception of [future.result()]. *)
Definition collect_step (total_tracks : nat) (st : outcome collect_state)
    (future : outcome (nat * Track)) : outcome collect_state :=
  '(results_dict, completed, calls) ← st;
  '(index, updated_track) ← future;
  Returned (<[index := updated_track]> results_dict, S completed,
            calls ++ [(S completed, total_tracks, "lyrics")]).

Definition fetch_lyrics_for_tracks (order : list nat) (tracks : list Track)
    : outcome (list Track * list Pool.progress_call) :=
  let total_tracks := length tracks in
  let futures := imap fetch_with_index tracks in
  '(results_dict, _, calls) ←
    foldl (collect_step total_tracks) (Returned (∅, 0, [])) (Pool.as_completed order futures);
  l ← Pool.gather results_dict (length tracks);
  Returned (l, calls).

End lyrics_fetch.

End LyricsFetch.

(** ** backend/sentiment_analysis.py *)

Module SentimentAnalysis.

Section sentiment_analysis.

(** The text clean-up and the stanza splitter: regular-expression
    passes over the lyrics that no property below looks into. *)
Variable preprocess_lyrics_for_sentiment : string -> string.
Variable split_into_stanzas : string -> list string.

(** The body of the per-stanza [try] up to the label and the score of
    the model's answer: [(result['label'], result['score'])]. *)
Variable sentiment_classifier : string -> outcome (string * R).

Definition valence (label : string) (score : R) : R :=
  let label := str_lower label in
  if str_contains "negative" label || String.eqb label "label_0" then
    ((1 - score) * 0.5)%R
  else if str_contains "neutral" label || String.eqb label "label_1" then
    0.5%R
  else
    (0.5 + score * 0.5)%R.

(** The valence of a stanza; a stanza whose scoring raises is
    skipped. *)
Definition score_stanza (stanza : string) : option R :=
  match sentiment_classifier (str_take 2000 stanza) with
  | Returned (label, score) => Some (valence label score)
  | Raised _ => None
  end.

Definition sentiment_result (score : value) (chunks : nat) (stanza_scores : list R)
    : gmap string value :=
  <["stanza_scores" := VList (VNum <$> stanza_scores)]>
    (<["sentiment_chunks" := VNum (INR chunks)]> (<["sentiment_score" := score]> ∅)).

Definition py_sum (xs : list R) : R := foldl Rplus 0%R xs.

(** [lyrics.strip()] raises on a truthy value that is no string. *)
Definition analyze_sentiment (lyrics : value) : outcome (gmap string value) :=
  if negb (truthy lyrics) then Returned (sentiment_result VNone 0 [])
  else
    match lyrics with
    | VStr s =>
        if negb (truthy (VStr (str_strip s))) then Returned (sentiment_result VNone 0 [])
        else
          let processed := preprocess_lyrics_for_sentiment s in
          if negb (truthy (VStr processed)) then Returned (sentiment_result VNone 0 [])
          else
            let stanzas := split_into_stanzas processed in
            match stanzas with
            | [] => Returned (sentiment_result VNone 0 [])
            | _ :: _ =>
                let stanza_scores := omap score_stanza stanzas in
                match stanza_scores with
                | [] => Returned (sentiment_result VNone (length stanzas) [])
                | _ :: _ =>
                    let raw_score := (py_sum stanza_scores / INR (length stanza_scores))%R in
                    Returned (sentiment_result (VNum raw_score) (length stanzas) stanza_scores)
                end
            end
    | _ => Raised "AttributeError"
    end.

Definition no_sentiment (track : Track) : Track :=
  <["stanza_scores" := VList []]>
    (<["sentiment_chunks" := VNum 0]> (<["sentiment_score" := VNone]> track)).

Definition analyze_sentiment_single (track : Track) : Track :=
  let lyrics := dict_get_default track "lyrics" (VStr "") in
  if dict_has track "sentiment_score" && is_not_none (dict_get track "sentiment_score") then
    track
  else if negb (truthy lyrics) then
    no_sentiment track
  else
    match analyze_sentiment lyrics with
    | Returned sentiment_result => sentiment_result ∪ track
    | Raised _ => no_sentiment track
    end.

Definition analyze_with_index (index : nat) (track : Track) : outcome (nat * Track) :=
  Returned (index, analyze_sentiment_single track).

(** A call of the progress callback:
    [(completed, total, 'sentiment', updated_track)]. *)
Definition collect_state : Type := gmap nat Track * nat * list (Pool.progress_call * Track).

Definition collect_step (total_tracks : nat) (st : outcome collect_state)
    (future : outcome (nat * Track)) : outcome collect_state :=
  '(results_dict, completed, calls) ← st;
  '(index, updated_track) ← future;
  Returned (<[index := updated_track]> results_dict, S completed,
            calls ++ [((S completed, total_tracks, "sentiment"), updated_track)]).

Definition add_sentiment_to_tracks (order : list nat) (tracks : list Track)
    : outcome (list Track * list (Pool.progress_call * Track)) :=
  let total_tracks := length tracks in
  let futures := imap analyze_with_index tracks in
  '(results_dict, _, calls) ←
    foldl (collect_step total_tracks) (Returned (∅, 0, [])) (Pool.as_completed order futures);
  l ← Pool.gather results_dict (length tracks);
  Returned (l, calls).

End sentiment_analysis.

End SentimentAnalysis.

(** ** numpy on a list of numbers *)

Module Numpy.

Fixpoint insert_sorted (x : R) (l : list R) : list R :=
  match l with
  | [] => [x]
  | y :: l' => if Rle_dec x y then x :: l else y :: insert_sorted x l'
  end.

Definition sort (xs : list R) : list R := foldr insert_sorted [] xs.

Definition item (a : list R) (i : nat) : R := nth i a 0%R.

(** [np.median]: the middle element, or the mean of the two middle
    ones. *)
Definition median (xs : list R) : R :=
  let a := sort xs in
  let n := length a in
  if Nat.even n then ((item a (n / 2 - 1) + item a (n / 2)) / 2)%R
  else item a (n / 2).

(** [np.percentile(xs, q)] with the default linear interpolation: the
    position [q/100 * (n-1)] in the sorted sample. *)
Definition percentile (xs : list R) (q : nat) : R :=
  let a := sort xs in
  let n := length a in
  let pos := q * (n - 1) in
  let lo := pos / 100 in
  let hi := Nat.min (lo + 1) (n - 1) in
  let frac := (INR (pos mod 100) / 100)%R in
  (item a lo + (item a hi - item a lo) * frac)%R.

(** The conversion of a list of scores to an array of floats. *)
Definition as_float (v : value) : outcome R :=
  match v with
  | VNum r => Returned r
  | _ => Raised "TypeError"
  end.

Definition exp (x : R) : R := Rtrigo_def.exp x.

End Numpy.

(** ** backend/main.py *)

Module Main.

(** *** The normalisation pass *)

Definition has_sentiment (track : Track) : bool :=
  is_not_none (dict_get track "sentiment_score").

(** The body of the loop of the degenerate branch. *)
Definition collapse (track : Track) : Track :=
  if has_sentiment track then
    <["sentiment_score" := VNum 0.5]>
      (<["normalized_sentiment" := VNum 0.5]>
         (<["raw_sentiment" := dict_get track "sentiment_score"]> track))
  else track.

Definition sigmoid (z : R) : R := (1 / (1 + Numpy.exp (- z)))%R.

(** The body of the main loop; the subtraction raises on a score that
    is no number. *)
Definition squash (median iqr : R) (track : Track) : outcome Track :=
  if has_sentiment track then
    s ← Numpy.as_float (dict_get track "sentiment_score");
    let z := ((s - median) / iqr)%R in
    let normalized := sigmoid z in
    Returned (<["sentiment_score" := VNum normalized]>
                (<["normalized_sentiment" := VNum normalized]>
                   (<["raw_sentiment" := dict_get track "sentiment_score"]> track)))
  else Returned track.

Definition present_scores (tracks : list Track) : list value :=
  (fun t => dict_get t "sentiment_score") <$> List.filter has_sentiment tracks.

(** The dictionaries of [tracks] are updated in place and the list is
    returned; no dictionary occurs twice in the lists the flows pass
    in, so the result is the list of the updated dictionaries. *)
Definition normalize_sentiment_scores (tracks : list Track) : outcome (list Track) :=
  let scores := present_scores tracks in
  if length scores <? 2 then Returned tracks
  else
    xs ← mapM Numpy.as_float scores;
    let median := Numpy.median xs in
    let q75 := Numpy.percentile xs 75 in
    let q25 := Numpy.percentile xs 25 in
    let iqr := (q75 - q25)%R in
    if Rlt_dec iqr 1e-6 then Returned (collapse <$> tracks)
    else mapM (squash median iqr) tracks.

(** *** The parallel flow: [process_features_with_progress]

    Two pipelines run in two threads.  Each one first submits a task per
    position, reading the slots of the shared list [tracks] one after
    the other, and then meets its futures in completion order; at each
    future it stores the result in its own [results] dictionary and its
    callback writes the result into the slot of the shared list (the
    list that [progress_store[job_id]['tracks']] aliases).  The
    scheduler interleaves the steps of the two pipelines. *)

Record branch : Type := Branch {
  futures : list (outcome (nat * Track));
  yielded : list nat;
  results : gmap nat Track;
  completed : nat
}.

Definition branch_init : branch := Branch [] [] ∅ 0.

(** [executor.submit(task, i, track)] for the next [(i, track)] of
    [enumerate(tracks)]. *)
Definition submit (task : nat -> Track -> outcome (nat * Track))
    (tracks : list Track) (b : branch) : option branch :=
  let i := length (futures b) in
  track ← tracks !! i;
  Some (Branch (futures b ++ [task i track]) (yielded b) (results b) (completed b)).

(** One turn of the loop over [as_completed], which starts once every
    task is submitted, for the future of position [i]; the callback
    replaces the slot of the shared list. *)
Definition yield (i : nat) (tracks : list Track) (b : branch)
    : option (list Track * branch) :=
  if bool_decide (length (futures b) = length tracks ∧ i ∉ yielded b) then
    future ← futures b !! i;
    match future with
    | Returned (index, updated_track) =>
        Some (<[index := updated_track]> tracks,
              Branch (futures b) (i :: yielded b)
                     (<[index := updated_track]> (results b)) (S (completed b)))
    | Raised _ =>
        Some (tracks, Branch (futures b) (i :: yielded b) (results b) (completed b))
    end
  else None.

Definition drained (tracks : list Track) (b : branch) : bool :=
  bool_decide (length (yielded b) = length tracks).

Record flow_state : Type := FlowState {
  shared_tracks : list Track;
  bpm : branch;
  sentiment : branch
}.

Inductive flow_event : Type :=
| SubmitBpm
| YieldBpm (i : nat)
| SubmitSentiment
| YieldSentiment (i : nat).

(** The merge of lines 430-438, over the shared list as the callbacks
    left it. *)
Definition merge_results (tracks : list Track)
    (bpm_results sentiment_results : gmap nat Track) : list Track :=
  imap (fun i t =>
          let track := t in
          let track := match bpm_results !! i with
                       | Some r => r ∪ track
                       | None => track
                       end in
          match sentiment_results !! i with
          | Some r => r ∪ track
          | None => track
          end) tracks.

Section parallel_flow.

Variable search_preview_url : value -> value -> outcome value.
Variable download_and_beat_track : value -> outcome R.
Variable spotify_credentials : option (string * string).
Variable search_song : value -> value -> outcome (option LyricsFetch.Song).
Variable preprocess_lyrics_for_sentiment : string -> string.
Variable split_into_stanzas : string -> list string.
Variable sentiment_classifier : string -> outcome (string * R).

Definition bpm_task (i : nat) (track : Track) : outcome (nat * Track) :=
  AudioFeatures.analyze_track_with_index search_preview_url download_and_beat_track
    i track spotify_credentials.

Definition process_sentiment_for_track (index : nat) (track : Track)
    : outcome (nat * Track) :=
  track_with_lyrics ← LyricsFetch.fetch_lyrics_single search_song track;
  let track_with_sentiment :=
    SentimentAnalysis.analyze_sentiment_single preprocess_lyrics_for_sentiment
      split_into_stanzas sentiment_classifier track_with_lyrics.1 in
  Returned (index, track_with_sentiment).

Definition flow_step (st : flow_state) (ev : flow_event) : option flow_state :=
  match ev with
  | SubmitBpm =>
      b ← submit bpm_task (shared_tracks st) (bpm st);
      Some (FlowState (shared_tracks st) b (sentiment st))
  | YieldBpm i =>
      '(tracks, b) ← yield i (shared_tracks st) (bpm st);
      Some (FlowState tracks b (sentiment st))
  | SubmitSentiment =>
      b ← submit process_sentiment_for_track (shared_tracks st) (sentiment st);
      Some (FlowState (shared_tracks st) (bpm st) b)
  | YieldSentiment i =>
      '(tracks, b) ← yield i (shared_tracks st) (sentiment st);
      Some (FlowState tracks (bpm st) b)
  end.

Fixpoint flow_run (st : flow_state) (schedule : list flow_event) : option flow_state :=
  match schedule with
  | [] => Some st
  | ev :: schedule' => st' ← flow_step st ev; flow_run st' schedule'
  end.

(** The state when [asyncio.gather] returns: both pipelines have met
    all their futures. *)
Definition gathered (tracks : list Track) (schedule : list flow_event)
    : option flow_state :=
  st ← flow_run (FlowState tracks branch_init branch_init) schedule;
  if drained (shared_tracks st) (bpm st) && drained (shared_tracks st) (sentiment st)
  then Some st else None.

(** [final_tracks] before the normalisation. *)
Definition merged_tracks (tracks : list Track) (schedule : list flow_event)
    : option (list Track) :=
  st ← gathered tracks schedule;
  Some (merge_results (shared_tracks st) (results (bpm st)) (results (sentiment st))).

Definition final_tracks (tracks : list Track) (schedule : list flow_event)
    : option (outcome (list Track)) :=
  normalize_sentiment_scores <$> merged_tracks tracks schedule.

End parallel_flow.

(** *** The job registry and the progress stream: [stream_progress] *)

(** An entry of [progress_store]; a key the dictionary may lack is an
    option. *)
Record Job : Type := {
  job_stage : option string;
  job_current : option Z;
  job_total : option Z;
  job_message : option string;
  job_tracks : option (list Track);
  job_playlist_name : option string;
  job_output_file : option string;
  job_error : option string
}.

(** The JSON objects written to the stream, by their ['type']. *)
Inductive event : Type :=
| EvError (message : string)
| EvTrackUpdate (field : string) (track_update : gmap string value)
| EvProgress (stage : option string) (current total : Z) (message : string)
    (tracks : option (list Track)) (playlist_name output_file : option string).

(** The local variables of the generator. *)
Record gen_state : Type := GenState {
  last_stage : option string;
  last_current : Z;
  last_bpm_updates : list value;
  last_sentiment_updates : list value;
  tracks_sent : bool
}.

Definition gen_init : gen_state := GenState None (-1) [] [] false.

(** Only hashable values can be looked up in a [set]. *)
Definition hashable (v : value) : bool :=
  match v with
  | VList _ => false
  | _ => true
  end.

Definition tempo_update (track_id : value) (track : Track) : gmap string value :=
  <["audio_features_error" := dict_get track "audio_features_error"]>
    (<["tempo" := dict_get track "tempo"]> (<["track_id" := track_id]> ∅)).

Definition sentiment_update (track_id : value) (track : Track) : gmap string value :=
  <["sentiment_error" := dict_get track "sentiment_error"]>
    (<["sentiment_label" := dict_get track "sentiment_label"]>
       (<["sentiment_score" := dict_get track "sentiment_score"]>
          (<["track_id" := track_id]> ∅))).

(** The loop over the tracks of one poll: the events it yields and the
    two sets afterwards, or [None] when the set lookup raises. *)
Fixpoint report_tracks (tracks : list Track) (bpm_updates sentiment_updates : list value)
    : list event * option (list value * list value) :=
  match tracks with
  | [] => ([], Some (bpm_updates, sentiment_updates))
  | track :: rest =>
      let track_id := dict_get track "track_id" in
      if negb (truthy track_id) then report_tracks rest bpm_updates sentiment_updates
      else if negb (hashable track_id) then ([], None)
      else
        let '(ev_bpm, bpm_updates') :=
          if bool_decide (track_id ∉ bpm_updates)
             && (is_not_none (dict_get track "tempo")
                 || truthy (dict_get track "audio_features_error"))
          then ([EvTrackUpdate "tempo" (tempo_update track_id track)],
                track_id :: bpm_updates)
          else ([], bpm_updates) in
        let '(ev_sentiment, sentiment_updates') :=
          if bool_decide (track_id ∉ sentiment_updates)
             && (is_not_none (dict_get track "sentiment_score")
                 || truthy (dict_get track "sentiment_error"))
          then ([EvTrackUpdate "sentiment" (sentiment_update track_id track)],
                track_id :: sentiment_updates)
          else ([], sentiment_updates) in
        let '(evs, sets) := report_tracks rest bpm_updates' sentiment_updates' in
        (ev_bpm ++ ev_sentiment ++ evs, sets)
  end.

Definition terminal (stage : option string) : bool :=
  bool_decide (stage = Some "complete" ∨ stage = Some "error").

(** [stage or 'tracks'] *)
Definition stage_or_tracks (stage : option string) : option string :=
  match stage with
  | Some (String _ _ as s) => Some s
  | _ => Some "tracks"
  end.

Definition final_event (progress : Job) : event :=
  EvProgress (job_stage progress) (default 0%Z (job_current progress))
    (default 0%Z (job_total progress)) (default "" (job_message progress))
    (Some (default [] (job_tracks progress)))
    (Some (default "" (job_playlist_name progress)))
    (Some (default "" (job_output_file progress))).

(** One turn of the [while True] loop against the registry as it is at
    that moment: the events yielded, the generator's variables for the
    next turn ([None] when the generator is over), and the registry
    afterwards.  The background job may write between two reads of one
    turn; the properties below hold for every list of tracks and every
    payload a turn can meet, so one state per turn stands for all the
    values read during it. *)
Definition poll (job_id : string) (st : gen_state) (progress_store : gmap string Job)
    : list event * option gen_state * gmap string Job :=
  match progress_store !! job_id with
  | None => ([EvError "Job not found"], None, progress_store)
  | Some progress =>
      let stage := job_stage progress in
      let current := default 0%Z (job_current progress) in
      let tracks := default [] (job_tracks progress) in
      let '(updates, sets) :=
        report_tracks tracks (last_bpm_updates st) (last_sentiment_updates st) in
      match sets with
      | None => (updates, None, progress_store)
      | Some (bpm_updates, sentiment_updates) =>
          let '(progress_events, sent, stage', current') :=
            if bool_decide (tracks ≠ []) && negb (tracks_sent st) then
              ([EvProgress (stage_or_tracks stage) current (Z.of_nat (length tracks))
                  (default "Tracks loaded" (job_message progress))
                  (Some tracks) (Some (default "" (job_playlist_name progress))) None],
               true, stage, current)
            else if bool_decide (stage ≠ last_stage st ∨ current ≠ last_current st) then
              ([EvProgress stage current (default 0%Z (job_total progress))
                  (default "" (job_message progress)) None None None],
               tracks_sent st, stage, current)
            else ([], tracks_sent st, last_stage st, last_current st) in
          if terminal stage then
            (updates ++ progress_events ++ [final_event progress], None, progress_store)
          else
            (updates ++ progress_events,
             Some (GenState stage' current' bpm_updates sentiment_updates sent),
             progress_store)
      end
  end.

(** The events of the stream when the registry is [worlds !! k] at the
    [k]-th turn of the polling loop. *)
Fixpoint stream (job_id : string) (st : gen_state) (worlds : list (gmap string Job))
    : list event :=
  match worlds with
  | [] => []
  | progress_store :: worlds' =>
      let '(evs, next, _) := poll job_id st progress_store in
      evs ++ match next with
             | Some st' => stream job_id st' worlds'
             | None => []
             end
  end.

End Main.

(** * Properties *)

(** ** The collecting loop, whatever the completion order *)

Section pool_properties.

Implicit Types (order : list nat) (m : gmap nat Track).

(** What the turns of a collecting loop leave in [results_dict]. *)
Definition fill (futs : list (outcome (nat * Track))) m : gmap nat Track :=
  foldl (fun m fut =>
           match fut with
           | Returned (i, u) => <[i := u]> m
           | Raised _ => m
           end) m futs.

Variable h : nat -> Track.
Variable futs : list (outcome (nat * Track)).
Hypothesis futs_returned : forall i fut, futs !! i = Some fut -> fut = Returned (i, h i).

Lemma fill_lookup order m i :
  fill (Pool.as_completed order futs) m !! i =
    if decide (i ∈ order ∧ i < length futs) then Some (h i) else m !! i.
Proof.
  revert m. induction order as [|j order IH]; intros m.
  - case_decide as Hd; [|done]. destruct Hd as [Hd _]. by apply elem_of_nil in Hd.
  - change (Pool.as_completed (j :: order) futs)
      with (match futs !! j with
            | Some fut => fut :: Pool.as_completed order futs
            | None => Pool.as_completed order futs
            end).
    destruct (futs !! j) as [fut|] eqn:Hj.
    + rewrite (futs_returned _ _ Hj).
      change (fill (Returned (j, h j) :: ?l) m) with (fill l (<[j := h j]> m)).
      rewrite IH. apply lookup_lt_Some in Hj.
      destruct (decide (i = j)) as [->|Hne].
      * rewrite (decide_True (P := j ∈ j :: order ∧ _)); [|split; [set_solver | done]].
        case_decide; [done|]. by rewrite lookup_insert_eq.
      * rewrite lookup_insert_ne; [|done].
        case_decide as H1; case_decide as H2; try done.
        -- destruct H2, H1. split; [apply elem_of_cons; by right | done].
        -- destruct H2 as [[->|H2]%elem_of_cons H2']; [done|]. by destruct H1.
    + rewrite IH. apply lookup_ge_None in Hj.
      case_decide as H1; case_decide as H2; try done.
      * destruct H2, H1. split; [apply elem_of_cons; by right | done].
      * destruct H2 as [[->|H2]%elem_of_cons H2']; [lia|]. by destruct H1.
Qed.

Lemma fill_permutation order m i :
  order ≡ₚ seq 0 (length futs) -> i < length futs ->
  fill (Pool.as_completed order futs) m !! i = Some (h i).
Proof.
  intros Hp Hi. rewrite fill_lookup, decide_True; [done|].
  split; [|done]. rewrite Hp. apply elem_of_seq. lia.
Qed.

End pool_properties.

Lemma gather_all (h : nat -> Track) (m : gmap nat Track) (n : nat) :
  (forall i, i < n -> m !! i = Some (h i)) ->
  Pool.gather m n = Returned (h <$> seq 0 n).
Proof.
  intros Hm. unfold Pool.gather.
  assert (mapM (fun i => m !! i) (seq 0 n) = Some (h <$> seq 0 n)) as ->; [|done].
  apply mapM_Some. apply Forall2_fmap_r, Forall_Forall2_diag, Forall_forall.
  intros i Hi%elem_of_seq. apply Hm. lia.
Qed.

(** ** Tracks as the data model types them *)

(** The [artists] of a track is a sequence: not a number that
    [artists[0]] would fail on. *)
Definition artists_ok (t : Track) : Prop :=
  match t !! "artists" with
  | Some (VNum r) => r = 0%R
  | _ => True
  end.

(** Exactly one of a result field and its error field is set. *)
Definition exactly_one_set (field field_error : value) : Prop :=
  is_not_none field = negb (is_not_none field_error).

Lemma first_artist_returned (t : Track) (dflt : value) :
  artists_ok t ->
  exists artist,
    (if truthy (dict_get_default t "artists" (VList []))
     then subscript0 (dict_get_default t "artists" (VList []))
     else Returned dflt) = Returned artist.
Proof.
  unfold artists_ok, dict_get_default. intros Hok.
  destruct (t !! "artists") as [[|r|[|c s]|[|x l]]|]; simpl; eauto.
  subst r. destruct (Req_dec_T 0 0); [eauto | done].
Qed.

Lemma fmap_seq_lookup {A B} (g : A -> B) (d : A) (l : list A) :
  (fun i => g (default d (l !! i))) <$> seq 0 (length l) = g <$> l.
Proof.
  apply list_eq. intros i. rewrite !list_lookup_fmap.
  destruct (l !! i) as [x|] eqn:Hi.
  - rewrite lookup_seq_lt; [|by eapply lookup_lt_Some]. simpl. by rewrite Hi.
  - rewrite lookup_seq_ge; [done|]. by apply lookup_ge_None.
Qed.

Section properties.

Variable search_preview_url : value -> value -> outcome value.
Variable download_and_beat_track : value -> outcome R.
Variable spotify_credentials : option (string * string).
Variable search_song : value -> value -> outcome (option LyricsFetch.Song).
Variable preprocess_lyrics_for_sentiment : string -> string.
Variable split_into_stanzas : string -> list string.
Variable sentiment_classifier : string -> outcome (string * R).

(** *** backend/audio_features.py: the tempo pool *)

Local Abbreviation calculate_bpm_from_preview_url :=
  (AudioFeatures.calculate_bpm_from_preview_url download_and_beat_track).
Local Abbreviation analyze_track_with_index i t :=
  (AudioFeatures.analyze_track_with_index search_preview_url
     download_and_beat_track i t spotify_credentials).
Local Abbreviation add_audio_features_to_tracks order tracks :=
  (AudioFeatures.add_audio_features_to_tracks search_preview_url
     download_and_beat_track order tracks spotify_credentials).

(** The URL that [analyze_track_with_index] hands to the tempo
    computation, for a given first artist. *)
Definition resolved_preview_url (t : Track) (artist : value) : value :=
  if negb (truthy (dict_get t "preview_url")) && bool_decide (is_Some spotify_credentials)
  then AudioFeatures.get_preview_url_with_finder search_preview_url
         (dict_get_default t "title" (VStr "Unknown")) artist
  else dict_get t "preview_url".

Lemma calculate_bpm_shape (url : value) :
  (exists b, calculate_bpm_from_preview_url url = (VNum b, VNone)) \/
  (exists s, calculate_bpm_from_preview_url url = (VNone, VStr s)).
Proof.
  unfold AudioFeatures.calculate_bpm_from_preview_url.
  destruct (truthy url); simpl; [|eauto].
  destruct (download_and_beat_track url); eauto.
Qed.

(** A track with well-typed artists is always analysed, and the result
    is the track with [tempo] and [audio_features_error] written. *)
Lemma analyze_track_shape (i : nat) (t : Track) :
  artists_ok t ->
  exists tempo err,
    analyze_track_with_index i t =
      Returned (i, <["audio_features_error" := err]> (<["tempo" := tempo]> t)) /\
    ((exists b, tempo = VNum b /\ err = VNone) \/ (tempo = VNone /\ exists s, err = VStr s)).
Proof.
  intros Hok. unfold AudioFeatures.analyze_track_with_index.
  destruct (first_artist_returned t (VStr "Unknown") Hok) as [artist ->]. simpl.
  fold (resolved_preview_url t artist).
  destruct (truthy (resolved_preview_url t artist)); [|by eauto 10].
  destruct (calculate_bpm_shape (resolved_preview_url t artist)) as [[b ->]|[s ->]];
    simpl; eauto 10.
Qed.

(** The enriched version of a track. *)
Definition analyzed (t : Track) : Track :=
  match analyze_track_with_index 0 t with
  | Returned (_, u) => u
  | Raised _ => t
  end.

(** The index only labels the result. *)
Lemma analyze_track_index (i j : nat) (t : Track) :
  analyze_track_with_index i t = (r ← analyze_track_with_index j t; Returned (i, r.2)).
Proof.
  unfold AudioFeatures.analyze_track_with_index.
  destruct (if truthy _ then _ else _) as [artist|e]; simpl; [|done].
  fold (resolved_preview_url t artist).
  destruct (truthy (resolved_preview_url t artist)); [|done].
  destruct (calculate_bpm_from_preview_url _) as [bpm error].
  by destruct (is_not_none bpm).
Qed.

Lemma analyze_track_analyzed (i : nat) (t : Track) :
  artists_ok t -> analyze_track_with_index i t = Returned (i, analyzed t).
Proof.
  intros Hok. rewrite (analyze_track_index i 0). unfold analyzed.
  by destruct (analyze_track_shape 0 t Hok) as (tempo & err & -> & _).
Qed.

Lemma audio_collect_fill (total : nat) (futs : list (outcome (nat * Track)))
    (st : AudioFeatures.collect_state) :
  (foldl (AudioFeatures.collect_step total) st futs).1.1 = fill futs st.1.1.
Proof.
  revert st. induction futs as [|fut futs IH]; intros [[m c] calls]; [done|].
  simpl. rewrite IH. by destruct fut as [[i u]|e].
Qed.

Lemma audio_pool_returns (order : list nat) (tracks : list Track) :
  order ≡ₚ seq 0 (length tracks) -> Forall artists_ok tracks ->
  (add_audio_features_to_tracks order tracks).1 = Returned (analyzed <$> tracks).
Proof.
  intros Hp Hok. unfold AudioFeatures.add_audio_features_to_tracks.
  destruct tracks as [|t0 tracks0] eqn:Htr; [done|]. rewrite <- Htr in *. clear Htr.
  set (futs := imap _ tracks).
  pose proof (audio_collect_fill (length tracks) (Pool.as_completed order futs) (∅, 0, []))
    as Hfill.
  destruct (foldl _ _ _) as [[m c] calls]. simpl in *. subst m.
  rewrite <- (fmap_seq_lookup analyzed ∅). apply gather_all. intros i Hi.
  assert (length futs = length tracks) as Hlen by apply length_imap.
  apply (fill_permutation (fun i => analyzed (default ∅ (tracks !! i)))).
  - intros j fut. unfold futs. rewrite list_lookup_imap.
    destruct (tracks !! j) as [t|] eqn:Hj; [|done]. simpl. intros [= <-].
    apply analyze_track_analyzed. eapply Forall_lookup_1; eauto.
  - by rewrite Hlen.
  - by rewrite Hlen.
Qed.

(** *** backend/lyrics_fetch.py and backend/sentiment_analysis.py:
        the two other pools *)

Local Abbreviation fetch_lyrics_single := (LyricsFetch.fetch_lyrics_single search_song).
Local Abbreviation fetch_with_index := (LyricsFetch.fetch_with_index search_song).
Local Abbreviation fetch_lyrics_for_tracks :=
  (LyricsFetch.fetch_lyrics_for_tracks search_song).
Local Abbreviation analyze_sentiment_single :=
  (SentimentAnalysis.analyze_sentiment_single preprocess_lyrics_for_sentiment
     split_into_stanzas sentiment_classifier).
Local Abbreviation analyze_with_index :=
  (SentimentAnalysis.analyze_with_index preprocess_lyrics_for_sentiment
     split_into_stanzas sentiment_classifier).
Local Abbreviation add_sentiment_to_tracks :=
  (SentimentAnalysis.add_sentiment_to_tracks preprocess_lyrics_for_sentiment
     split_into_stanzas sentiment_classifier).

Definition is_returned {A} (o : outcome A) : Prop := exists a, o = Returned a.

Lemma as_completed_Forall {A} (P : A -> Prop) (order : list nat) (futs : list A) :
  Forall P futs -> Forall P (Pool.as_completed order futs).
Proof.
  intros HP. induction order as [|j order IH]; [constructor|].
  change (Pool.as_completed (j :: order) futs)
    with (match futs !! j with
          | Some fut => fut :: Pool.as_completed order futs
          | None => Pool.as_completed order futs
          end).
  destruct (futs !! j) as [fut|] eqn:Hj; [|done].
  constructor; [|done]. by apply (Forall_lookup_1 P futs j).
Qed.

Lemma fetch_lyrics_single_returned (t : Track) :
  artists_ok t -> is_returned (fetch_lyrics_single t).
Proof.
  intros Hok. unfold LyricsFetch.fetch_lyrics_single.
  destruct (first_artist_returned t (VStr "") Hok) as [artist ->]. simpl.
  destruct (_ && _); by eexists.
Qed.

(** The enriched versions of a track. *)
Definition fetched (t : Track) : Track :=
  match fetch_lyrics_single t with
  | Returned r => r.1
  | Raised _ => t
  end.

Lemma fetch_with_index_fetched (i : nat) (t : Track) :
  artists_ok t -> fetch_with_index i t = Returned (i, fetched t).
Proof.
  intros Hok. unfold LyricsFetch.fetch_with_index, fetched.
  by destruct (fetch_lyrics_single_returned t Hok) as [r ->].
Qed.

Lemma lyrics_collect_fill (total : nat) (futs : list (outcome (nat * Track)))
    (st : LyricsFetch.collect_state) :
  Forall is_returned futs ->
  exists c calls,
    foldl (LyricsFetch.collect_step total) (Returned st) futs
    = Returned (fill futs st.1.1, c, calls).
Proof.
  revert st. induction futs as [|fut futs IH]; intros [[m c] calls] Hall.
  - by exists c, calls.
  - apply Forall_cons in Hall as [[[i u] ->] Hall]. simpl. apply (IH (_, _, _) Hall).
Qed.

Lemma sentiment_collect_fill (total : nat) (futs : list (outcome (nat * Track)))
    (st : SentimentAnalysis.collect_state) :
  Forall is_returned futs ->
  exists c calls,
    foldl (SentimentAnalysis.collect_step total) (Returned st) futs
    = Returned (fill futs st.1.1, c, calls).
Proof.
  revert st. induction futs as [|fut futs IH]; intros [[m c] calls] Hall.
  - by exists c, calls.
  - apply Forall_cons in Hall as [[[i u] ->] Hall]. simpl. apply (IH (_, _, _) Hall).
Qed.

Lemma lyrics_pool_returns (order : list nat) (tracks : list Track) :
  order ≡ₚ seq 0 (length tracks) -> Forall artists_ok tracks ->
  exists calls, fetch_lyrics_for_tracks order tracks = Returned (fetched <$> tracks, calls).
Proof.
  intros Hp Hok. unfold LyricsFetch.fetch_lyrics_for_tracks. cbv zeta.
  set (futs := imap _ tracks).
  assert (length futs = length tracks) as Hlen by apply length_imap.
  assert (forall j fut, futs !! j = Some fut ->
                   fut = Returned (j, fetched (default ∅ (tracks !! j)))) as Hfuts.
  { intros j fut. unfold futs. rewrite list_lookup_imap.
    destruct (tracks !! j) as [t|] eqn:Hj; [|done]. simpl. intros [= <-].
    apply fetch_with_index_fetched. eapply Forall_lookup_1; eauto. }
  destruct (lyrics_collect_fill (length tracks) (Pool.as_completed order futs) (∅, 0, []))
    as (c & calls & Hfold).
  { apply as_completed_Forall, Forall_lookup. intros j fut Hj.
    rewrite (Hfuts j fut Hj). by eexists. }
  unfold LyricsFetch.collect_state in *. rewrite Hfold. simpl. erewrite gather_all.
  - simpl. rewrite fmap_seq_lookup. by exists calls.
  - intros i Hi. apply fill_permutation; rewrite ?Hlen; done.
Qed.

Lemma sentiment_pool_returns (order : list nat) (tracks : list Track) :
  order ≡ₚ seq 0 (length tracks) ->
  exists calls,
    add_sentiment_to_tracks order tracks
    = Returned (analyze_sentiment_single <$> tracks, calls).
Proof.
  intros Hp. unfold SentimentAnalysis.add_sentiment_to_tracks. cbv zeta.
  set (futs := imap _ tracks).
  assert (length futs = length tracks) as Hlen by apply length_imap.
  assert (forall j fut, futs !! j = Some fut ->
                   fut = Returned (j, analyze_sentiment_single (default ∅ (tracks !! j))))
    as Hfuts.
  { intros j fut. unfold futs. rewrite list_lookup_imap.
    destruct (tracks !! j) as [t|] eqn:Hj; [|done]. simpl. by intros [= <-]. }
  destruct (sentiment_collect_fill (length tracks) (Pool.as_completed order futs)
              (∅, 0, [])) as (c & calls & Hfold).
  { apply as_completed_Forall, Forall_lookup. intros j fut Hj.
    rewrite (Hfuts j fut Hj). by eexists. }
  unfold SentimentAnalysis.collect_state in *. rewrite Hfold. simpl. erewrite gather_all.
  - simpl. rewrite fmap_seq_lookup. by exists calls.
  - intros i Hi. apply fill_permutation; rewrite ?Hlen; done.
Qed.

(** C2. Worker-pool index stability: for a non-empty list of tracks
    and whatever the order in which the per-item transforms complete,
    each of the three pools returns a list as long as its input whose
    element at position [i] is what the per-item transform returned
    for input item [i]. *)
Theorem worker_pools_index_stable (order : list nat) (tracks : list Track) :
  tracks ≠ [] ->
  order ≡ₚ seq 0 (length tracks) ->
  Forall artists_ok tracks ->
  (exists res,
      (add_audio_features_to_tracks order tracks).1 = Returned res /\
      length res = length tracks /\
      forall i t, tracks !! i = Some t ->
        exists u, res !! i = Some u /\ analyze_track_with_index i t = Returned (i, u)) /\
  (exists res calls,
      fetch_lyrics_for_tracks order tracks = Returned (res, calls) /\
      length res = length tracks /\
      forall i t, tracks !! i = Some t ->
        exists u, res !! i = Some u /\ fetch_with_index i t = Returned (i, u)) /\
  (exists res calls,
      add_sentiment_to_tracks order tracks = Returned (res, calls) /\
      length res = length tracks /\
      forall i t, tracks !! i = Some t ->
        exists u, res !! i = Some u /\ analyze_with_index i t = Returned (i, u)).
Proof.
  intros _ Hp Hok. split; [|split].
  - exists (analyzed <$> tracks). split; [by apply audio_pool_returns|].
    split; [by rewrite length_fmap|]. intros i t Hi.
    exists (analyzed t). rewrite list_lookup_fmap, Hi. split; [done|].
    apply analyze_track_analyzed. by eapply Forall_lookup_1.
  - destruct (lyrics_pool_returns order tracks Hp Hok) as [calls Hres].
    exists (fetched <$> tracks), calls. split; [done|].
    split; [by rewrite length_fmap|]. intros i t Hi.
    exists (fetched t). rewrite list_lookup_fmap, Hi. split; [done|].
    apply fetch_with_index_fetched. by eapply Forall_lookup_1.
  - destruct (sentiment_pool_returns order tracks Hp) as [calls Hres].
    exists (analyze_sentiment_single <$> tracks), calls. split; [done|].
    split; [by rewrite length_fmap|]. intros i t Hi.
    exists (analyze_sentiment_single t). by rewrite list_lookup_fmap, Hi.
Qed.

(** *** The fields a pool run leaves on a track *)

Lemma analyzed_exactly_one (t : Track) :
  artists_ok t ->
  exactly_one_set (dict_get (analyzed t) "tempo")
                  (dict_get (analyzed t) "audio_features_error").
Proof.
  intros Hok. unfold analyzed.
  destruct (analyze_track_shape 0 t Hok) as (tempo & err & -> & Hcases).
  unfold exactly_one_set, dict_get.
  rewrite lookup_insert_ne, !lookup_insert_eq; [|done]. simpl.
  by destruct Hcases as [(b & -> & ->)|(-> & s & ->)].
Qed.

Lemma analyze_sentiment_keys (lyrics : value) (r : gmap string value) :
  SentimentAnalysis.analyze_sentiment preprocess_lyrics_for_sentiment split_into_stanzas
    sentiment_classifier lyrics = Returned r ->
  exists score chunks stanza_scores,
    r = SentimentAnalysis.sentiment_result score chunks stanza_scores.
Proof.
  unfold SentimentAnalysis.analyze_sentiment.
  destruct (negb (truthy lyrics)); [intros [= <-]; eauto|].
  destruct lyrics as [|x|s|l]; try done.
  destruct (negb (truthy (VStr (str_strip s)))); [intros [= <-]; eauto|].
  destruct (negb (truthy (VStr (preprocess_lyrics_for_sentiment s))));
    [intros [= <-]; eauto|].
  destruct (split_into_stanzas _) as [|stanza stanzas]; [intros [= <-]; eauto|].
  destruct (omap _ _); intros [= <-]; eauto.
Qed.

(** [analyze_sentiment_single] never writes [sentiment_error]. *)
Lemma analyze_sentiment_single_error (t : Track) :
  analyze_sentiment_single t !! "sentiment_error" = t !! "sentiment_error".
Proof.
  unfold SentimentAnalysis.analyze_sentiment_single, SentimentAnalysis.no_sentiment.
  destruct (_ && _); [done|].
  destruct (negb _); [by rewrite !lookup_insert_ne|].
  destruct (SentimentAnalysis.analyze_sentiment _ _ _ _) as [r|e] eqn:Hr;
    [|by rewrite !lookup_insert_ne].
  apply analyze_sentiment_keys in Hr as (score & chunks & ss & ->).
  rewrite lookup_union_r; [done|].
  unfold SentimentAnalysis.sentiment_result. by rewrite !lookup_insert_ne.
Qed.

(** At most one of a result field and its error field is set. *)
Definition at_most_one_set (field field_error : value) : Prop :=
  is_not_none field && is_not_none field_error = false.

(** The model raises on each stanza of the text [s]. *)
Definition model_fails_on (s : string) : Prop :=
  Forall (fun stanza => exists e, sentiment_classifier (str_take 2000 stanza) = Raised e)
         (split_into_stanzas (preprocess_lyrics_for_sentiment s)).

Lemma score_stanza_fails (stanzas : list string) :
  Forall (fun stanza => exists e, sentiment_classifier (str_take 2000 stanza) = Raised e)
         stanzas ->
  omap (SentimentAnalysis.score_stanza sentiment_classifier) stanzas = [].
Proof.
  induction 1 as [|stanza stanzas [e He] _ IH]; [done|]. cbn [omap list_omap].
  unfold SentimentAnalysis.score_stanza at 1. by rewrite He.
Qed.

(** The score that [analyze_sentiment_single] leaves on a track that
    came in without one, when the track has no lyrics and when the
    model raises on each stanza of its lyrics. *)
Lemma analyze_sentiment_single_no_score (t : Track) :
  is_not_none (dict_get t "sentiment_score") = false ->
  truthy (dict_get_default t "lyrics" (VStr "")) = false \/
  (exists s, dict_get_default t "lyrics" (VStr "") = VStr s /\ model_fails_on s) ->
  dict_get (analyze_sentiment_single t) "sentiment_score" = VNone.
Proof.
  intros Hscore Hcases. unfold SentimentAnalysis.analyze_sentiment_single.
  rewrite Hscore, andb_false_r.
  assert (dict_get (SentimentAnalysis.no_sentiment t) "sentiment_score" = VNone) as Hnone.
  { unfold SentimentAnalysis.no_sentiment, dict_get.
    rewrite !lookup_insert. by repeat case_decide. }
  destruct Hcases as [Hlyrics|(s & Hlyrics & Hfails)]; rewrite Hlyrics; [done|].
  destruct (negb (truthy (VStr s))); [done|].
  assert (forall chunks, dict_get (SentimentAnalysis.sentiment_result VNone chunks [] ∪ t)
                           "sentiment_score" = VNone) as Hres.
  { intros chunks. unfold dict_get.
    rewrite (lookup_union_Some_l _ _ _ VNone); [done|].
    unfold SentimentAnalysis.sentiment_result.
    rewrite !lookup_insert. by repeat case_decide. }
  unfold SentimentAnalysis.analyze_sentiment.
  destruct (negb (truthy (VStr s))); [apply Hres|].
  destruct (negb (truthy (VStr (str_strip s)))); [apply Hres|].
  destruct (negb (truthy (VStr (preprocess_lyrics_for_sentiment s)))); [apply Hres|].
  unfold model_fails_on in Hfails.
  destruct (split_into_stanzas (preprocess_lyrics_for_sentiment s)) as [|stanza stanzas];
    [apply Hres|].
  rewrite (score_stanza_fails _ Hfails). apply Hres.
Qed.

(** C3, amended. After a run of the tempo pool exactly one of [tempo]
    and [audio_features_error] is set on every track.  The sentiment
    pool never writes [sentiment_error]: every track keeps the
    [sentiment_error] it came in with, so for a track that came in
    with none at most one of [sentiment_score] and [sentiment_error]
    is set afterwards; and a track that came in with neither of them
    set ends with neither set when it has no lyrics, and when the
    model raises on each stanza of its lyrics. *)
Theorem pool_fields_after_run (order : list nat) (tracks : list Track) :
  order ≡ₚ seq 0 (length tracks) ->
  Forall artists_ok tracks ->
  (exists res,
      (add_audio_features_to_tracks order tracks).1 = Returned res /\
      forall i u, res !! i = Some u ->
        exactly_one_set (dict_get u "tempo") (dict_get u "audio_features_error")) /\
  (exists res calls,
      add_sentiment_to_tracks order tracks = Returned (res, calls) /\
      forall i t u, tracks !! i = Some t -> res !! i = Some u ->
        u !! "sentiment_error" = t !! "sentiment_error" /\
        (dict_get t "sentiment_error" = VNone ->
         at_most_one_set (dict_get u "sentiment_score") (dict_get u "sentiment_error")) /\
        (is_not_none (dict_get t "sentiment_score") = false ->
         dict_get t "sentiment_error" = VNone ->
         truthy (dict_get_default t "lyrics" (VStr "")) = false \/
         (exists s, dict_get_default t "lyrics" (VStr "") = VStr s /\ model_fails_on s) ->
         dict_get u "sentiment_score" = VNone /\
         dict_get u "sentiment_error" = VNone)).
Proof.
  intros Hp Hok. split.
  - exists (analyzed <$> tracks). split; [by apply audio_pool_returns|].
    intros i u. rewrite list_lookup_fmap.
    destruct (tracks !! i) as [t|] eqn:Hi; [|done]. intros [= <-].
    apply analyzed_exactly_one. by eapply Forall_lookup_1.
  - destruct (sentiment_pool_returns order tracks Hp) as [calls Hres].
    exists (analyze_sentiment_single <$> tracks), calls. split; [done|].
    intros i t u Hi. rewrite list_lookup_fmap, Hi. intros [= <-].
    split; [apply analyze_sentiment_single_error|]. split.
    + unfold at_most_one_set, dict_get. rewrite analyze_sentiment_single_error.
      intros ->. apply andb_false_r.
    + intros Hscore Herror Hcases. split; [by apply analyze_sentiment_single_no_score|].
      unfold dict_get in *. by rewrite analyze_sentiment_single_error.
Qed.

(** *** Failures of the tempo computation *)

(** The artist that [analyze_track_with_index] takes from a track
    with well-typed artists. *)
Definition first_artist (t : Track) : value :=
  match (if truthy (dict_get_default t "artists" (VList []))
         then subscript0 (dict_get_default t "artists" (VList []))
         else Returned (VStr "Unknown")) with
  | Returned artist => artist
  | Raised _ => VNone
  end.

(** The tempo computation of [t] is attempted and raises an exception
    whose text is [e]. *)
Definition tempo_fails (t : Track) (e : string) : Prop :=
  truthy (resolved_preview_url t (first_artist t)) = true /\
  download_and_beat_track (resolved_preview_url t (first_artist t)) = Raised e.

Lemma str_take_length (n : nat) (s : string) : String.length (str_take n s) <= n.
Proof.
  revert s. induction n as [|n IH]; intros [|c s]; simpl; try lia.
  specialize (IH s). lia.
Qed.

Lemma str_length_app (s1 s2 : string) :
  String.length (s1 +:+ s2) = String.length s1 + String.length s2.
Proof. induction s1 as [|c s1 IH]; simpl; [done | by rewrite IH]. Qed.

Lemma analyzed_failure (t : Track) (e : string) :
  artists_ok t -> tempo_fails t e ->
  analyzed t = <["audio_features_error" := VStr ("Error: " +:+ str_take 50 e)]>
                 (<["tempo" := VNone]> t).
Proof.
  intros Hok [Hurl Hraise]. unfold analyzed, AudioFeatures.analyze_track_with_index.
  unfold first_artist in *.
  destruct (first_artist_returned t (VStr "Unknown") Hok) as [artist Hartist].
  rewrite Hartist in *. simpl. fold (resolved_preview_url t artist). rewrite Hurl.
  unfold AudioFeatures.calculate_bpm_from_preview_url. by rewrite Hurl, Hraise.
Qed.

(** C9, amended. When the tempo computation of one track raises, the
    exception is caught on that track: its [tempo] is [None] and its
    [audio_features_error] is ["Error: "] followed by the first 50
    characters of the exception's text (57 characters at most); the
    pool still returns a full list, in which every item is what its own
    transform returned. *)
Theorem tempo_failure_captured (order : list nat) (tracks : list Track)
    (i : nat) (t : Track) (e : string) :
  order ≡ₚ seq 0 (length tracks) ->
  Forall artists_ok tracks ->
  tracks !! i = Some t ->
  tempo_fails t e ->
  exists res,
    (add_audio_features_to_tracks order tracks).1 = Returned res /\
    length res = length tracks /\
    res !! i = Some (<["audio_features_error" := VStr ("Error: " +:+ str_take 50 e)]>
                       (<["tempo" := VNone]> t)) /\
    String.length (str_take 50 e) <= 50 /\
    String.length ("Error: " +:+ str_take 50 e) <= 57 /\
    forall j t', tracks !! j = Some t' ->
      exists u, res !! j = Some u /\ analyze_track_with_index j t' = Returned (j, u).
Proof.
  intros Hp Hok Hi Hfail. exists (analyzed <$> tracks).
  split; [by apply audio_pool_returns|]. split; [by rewrite length_fmap|].
  split; [|split; [|split]].
  - rewrite list_lookup_fmap, Hi. simpl. f_equal. apply analyzed_failure; [|done].
    by eapply Forall_lookup_1.
  - apply str_take_length.
  - pose proof (str_take_length 50 e). rewrite str_length_app.
    change (String.length "Error: ") with 7. lia.
  - intros j t' Hj. exists (analyzed t'). rewrite list_lookup_fmap, Hj. split; [done|].
    apply analyze_track_analyzed. by eapply Forall_lookup_1.
Qed.

End properties.

(** ** Concrete tracks and collaborators *)

Module Examples.

Definition track_a : Track :=
  <["preview_url" := VStr "http://p.scdn.co/a"]>
    (<["artists" := VList [VStr "Ann"]]>
       (<["title" := VStr "Song A"]> (<["track_id" := VStr "a"]> ∅))).

Definition track_b : Track :=
  <["artists" := VList [VStr "Bob"]]>
    (<["title" := VStr "Song B"]> (<["track_id" := VStr "b"]> ∅)).

(** A track that already went through the pipeline once. *)
Definition track_c : Track :=
  <["sentiment_score" := VNum 0.5]>
    (<["lyrics" := VStr "la la la"]>
       (<["artists" := VList [VStr "Cy"]]>
          (<["title" := VStr "Song C"]> (<["track_id" := VStr "c"]> ∅)))).

Definition no_preview (_ _ : value) : outcome value := Returned VNone.

Definition tempo_120 (_ : value) : outcome R := Returned 120%R.

(** A download that fails with a text of 60 characters. *)
Definition long_text : string :=
  "HTTPSConnectionPool(host='p.scdn.co', port=443): Read timed.".

Definition tempo_timeout (_ : value) : outcome R := Raised long_text.

Definition no_song (_ _ : value) : outcome (option LyricsFetch.Song) := Returned None.

Definition one_song (_ _ : value) : outcome (option LyricsFetch.Song) :=
  Returned (Some {| LyricsFetch.song_lyrics := "la la la"; LyricsFetch.song_url := None |}).

Definition keep_text (s : string) : string := s.
Definition one_stanza (s : string) : list string := [s].
Definition rather_positive (_ : string) : outcome (string * R) :=
  Returned ("positive", 0.8%R).

(** A track whose lyrics are there and whose sentiment is still to be
    analysed, and a model that fails on every text. *)
Definition track_d : Track := <["lyrics" := VStr "la la la"]> track_b.

Definition model_down (_ : string) : outcome (string * R) := Raised "RuntimeError".

(** The values of a field on the tracks that a call returned. *)
Definition returned_field (k : string) (o : outcome (list Track)) : option (list value) :=
  match o with
  | Returned l => Some ((fun u => dict_get u k) <$> l)
  | Raised _ => None
  end.

Definition returned_tracks {A} (o : outcome (list Track * A)) : outcome (list Track) :=
  match o with
  | Returned r => Returned r.1
  | Raised e => Raised e
  end.

End Examples.

Import Examples.

Lemma worker_pools_index_stable_witness :
  exists res,
    (AudioFeatures.add_audio_features_to_tracks no_preview tempo_120
       [1; 0] [track_a; track_b] None).1 = Returned res /\
    length res = 2.
Proof.
  destruct (worker_pools_index_stable no_preview tempo_120 None one_song keep_text
              one_stanza rather_positive [1; 0] [track_a; track_b])
    as [(res & Hres & Hlen & _) _].
  - discriminate.
  - apply perm_swap.
  - repeat constructor; vm_compute; exact I.
  - exists res. split; [exact Hres | exact Hlen].
Defined.

Lemma pool_fields_after_run_witness :
  exists res calls,
    SentimentAnalysis.add_sentiment_to_tracks keep_text one_stanza model_down
      [1; 0] [track_d; track_b] = Returned (res, calls) /\
    forall i u, res !! i = Some u ->
      dict_get u "sentiment_score" = VNone /\ dict_get u "sentiment_error" = VNone.
Proof.
  destruct (pool_fields_after_run no_preview tempo_120 None keep_text
              one_stanza model_down [1; 0] [track_d; track_b])
    as [_ (res & calls & Hres & Hfields)].
  - apply perm_swap.
  - repeat constructor; vm_compute; exact I.
  - exists res, calls. split; [exact Hres|]. intros i u Hu.
    assert (i < 2) as Hi.
    { apply lookup_lt_Some in Hu. apply (f_equal returned_tracks) in Hres.
      assert (length <$> returned_field "title" (returned_tracks
                (SentimentAnalysis.add_sentiment_to_tracks keep_text one_stanza model_down
                   [1; 0] [track_d; track_b])) = Some 2) as Hlen
        by (vm_compute; reflexivity).
      rewrite Hres in Hlen. simpl in Hlen. rewrite length_fmap in Hlen.
      injection Hlen as Hlen. lia. }
    destruct i as [|[|i]]; [| |lia].
    + destruct (Hfields 0 track_d u eq_refl Hu) as (_ & _ & Hneither).
      apply Hneither; [reflexivity | reflexivity |].
      right. exists "la la la". split; [reflexivity|].
      repeat constructor. by exists "RuntimeError".
    + destruct (Hfields 1 track_b u eq_refl Hu) as (_ & _ & Hneither).
      apply Hneither; [reflexivity | reflexivity |]. by left.
Defined.

(** C3 as stated fails on the sentiment pool: the analysis of a track
    with lyrics runs, the model raises on its one stanza, the exception
    is passed over, and the track leaves the pool with neither
    [sentiment_score] nor [sentiment_error] set. *)
Lemma sentiment_pool_leaves_neither_set :
  let res := returned_tracks (SentimentAnalysis.add_sentiment_to_tracks keep_text
                                one_stanza model_down [0] [track_d]) in
  returned_field "lyrics" res = Some [VStr "la la la"] /\
  returned_field "sentiment_chunks" res = Some [VNum 1] /\
  returned_field "sentiment_score" res = Some [VNone] /\
  returned_field "sentiment_error" res = Some [VNone] /\
  ~ exactly_one_set VNone VNone.
Proof.
  split; [vm_compute; reflexivity|]. split; [vm_compute; reflexivity|].
  split; [vm_compute; reflexivity|]. split; [vm_compute; reflexivity|].
  vm_compute. discriminate.
Qed.

Lemma tempo_failure_captured_witness :
  exists res,
    (AudioFeatures.add_audio_features_to_tracks no_preview tempo_timeout
       [1; 0] [track_b; track_a] None).1 = Returned res /\
    length res = 2.
Proof.
  destruct (tempo_failure_captured no_preview tempo_timeout None
              [1; 0] [track_b; track_a] 1 track_a long_text)
    as (res & Hres & Hlen & _).
  - apply perm_swap.
  - repeat constructor; vm_compute; exact I.
  - reflexivity.
  - split; vm_compute; reflexivity.
  - exists res. split; [exact Hres | exact Hlen].
Defined.

(** C9 as stated fails: the error message of a track is not capped at
    50 characters, a failure whose text has 60 characters leaves a
    message of 57. *)
Lemma tempo_error_message_exceeds_50 :
  returned_field "audio_features_error"
    (AudioFeatures.add_audio_features_to_tracks no_preview tempo_timeout
       [0] [track_a] None).1
  = Some [VStr "Error: HTTPSConnectionPool(host='p.scdn.co', port=443): R"] /\
  String.length "Error: HTTPSConnectionPool(host='p.scdn.co', port=443): R" = 57 /\
  ~ String.length "Error: HTTPSConnectionPool(host='p.scdn.co', port=443): R" <= 50.
Proof.
  split; [vm_compute; reflexivity|]. split; [reflexivity|]. simpl. lia.
Qed.


(** ** backend/main.py: the normalisation pass *)

Section normalization_properties.

Import Main.

(** A sentiment score is a number when it is present. *)
Definition score_typed (t : Track) : Prop :=
  match dict_get t "sentiment_score" with
  | VNone | VNum _ => True
  | _ => False
  end.

(** The present scores of a collection, as numbers. *)
Definition scores_of (tracks : list Track) : list R :=
  omap (fun t => match dict_get t "sentiment_score" with
                 | VNum s => Some s
                 | _ => None
                 end) tracks.

Definition iqr_of (xs : list R) : R :=
  (Numpy.percentile xs 75 - Numpy.percentile xs 25)%R.

(** [Numpy.sort] sorts. *)
Lemma insert_sorted_permutation (x : R) (l : list R) : Numpy.insert_sorted x l ≡ₚ x :: l.
Proof.
  induction l as [|y l IH]; [done|]. simpl.
  destruct (Rle_dec x y); [done|]. rewrite IH. apply perm_swap.
Qed.

Lemma sort_permutation (xs : list R) : Numpy.sort xs ≡ₚ xs.
Proof.
  induction xs as [|x xs IH]; [done|]. unfold Numpy.sort in *. simpl.
  by rewrite insert_sorted_permutation, IH.
Qed.

Lemma sort_length (xs : list R) : length (Numpy.sort xs) = length xs.
Proof. by rewrite sort_permutation. Qed.

Lemma insert_sorted_sorted (x : R) (l : list R) :
  Sorted Rle l -> Sorted Rle (Numpy.insert_sorted x l).
Proof.
  induction 1 as [|y l Hl IH Hhd]; simpl; [by repeat constructor|].
  destruct (Rle_dec x y) as [Hxy|Hxy]; [constructor; by constructor|].
  constructor; [done|].
  destruct Hhd as [|z l Hyz]; simpl.
  - constructor. lra.
  - destruct (Rle_dec x z); constructor; [lra | done].
Qed.

Lemma sort_sorted (xs : list R) : Sorted Rle (Numpy.sort xs).
Proof.
  induction xs as [|x xs IH]; [constructor|]. by apply insert_sorted_sorted.
Qed.

Lemma mapM_returned {A B} (f : A -> outcome B) (g : A -> B) (l : list A) :
  Forall (fun x => f x = Returned (g x)) l -> mapM f l = Returned (g <$> l).
Proof.
  induction 1 as [|x l Hx _ IH]; [done|]. simpl. by rewrite Hx, IH.
Qed.

Lemma present_scores_floats (tracks : list Track) :
  Forall score_typed tracks ->
  mapM Numpy.as_float (present_scores tracks) = Returned (scores_of tracks).
Proof.
  unfold present_scores, scores_of, score_typed, has_sentiment.
  induction 1 as [|t tracks Ht _ IH]; [done|]. csimpl.
  destruct (dict_get t "sentiment_score") eqn:Hs; csimpl in *; try done.
  rewrite Hs. csimpl.
  change (@mapM outcome (@mbind outcome outcome_bind)) with (@mapM outcome outcome_bind).
  by rewrite IH.
Qed.

Lemma present_scores_length (tracks : list Track) :
  Forall score_typed tracks ->
  length (present_scores tracks) = length (scores_of tracks).
Proof.
  unfold present_scores, scores_of, score_typed, has_sentiment.
  induction 1 as [|t tracks Ht _ IH]; [done|]. csimpl.
  destruct (dict_get t "sentiment_score") eqn:Hs; csimpl in *; try done.
  by rewrite IH.
Qed.

(** What the main loop leaves of a track. *)
Definition squashed (median iqr : R) (t : Track) : Track :=
  match dict_get t "sentiment_score" with
  | VNum s =>
      <["sentiment_score" := VNum (sigmoid ((s - median) / iqr))]>
        (<["normalized_sentiment" := VNum (sigmoid ((s - median) / iqr))]>
           (<["raw_sentiment" := VNum s]> t))
  | _ => t
  end.

Lemma squash_squashed (median iqr : R) (t : Track) :
  score_typed t -> squash median iqr t = Returned (squashed median iqr t).
Proof.
  unfold squash, squashed, score_typed, has_sentiment.
  by destruct (dict_get t "sentiment_score").
Qed.

(** The three branches of the pass on a well-typed collection. *)
Lemma normalize_cases (tracks : list Track) :
  Forall score_typed tracks ->
  normalize_sentiment_scores tracks =
    if length (scores_of tracks) <? 2 then Returned tracks
    else if Rlt_dec (iqr_of (scores_of tracks)) 1e-6 then Returned (collapse <$> tracks)
    else Returned (squashed (Numpy.median (scores_of tracks)) (iqr_of (scores_of tracks))
                     <$> tracks).
Proof.
  intros Htyped. unfold normalize_sentiment_scores.
  rewrite present_scores_length, present_scores_floats by done.
  destruct (_ <? 2); [done|]. simpl. fold (iqr_of (scores_of tracks)).
  destruct (Rlt_dec _ _); [done|].
  apply mapM_returned. eapply Forall_impl; [done|].
  intros t Ht. by apply squash_squashed.
Qed.

Lemma sigmoid_median : sigmoid 0 = (1 / 2)%R.
Proof. unfold sigmoid, Numpy.exp. rewrite Ropp_0, exp_0. lra. Qed.

Lemma sigmoid_monotone (z1 z2 : R) : (z1 <= z2)%R -> (sigmoid z1 <= sigmoid z2)%R.
Proof.
  intros Hz. unfold sigmoid, Numpy.exp.
  assert (exp (- z2) <= exp (- z1))%R as Hexp.
  { destruct Hz as [Hlt | ->]; [|lra]. left. apply exp_increasing. lra. }
  pose proof (exp_pos (- z1)). pose proof (exp_pos (- z2)).
  unfold Rdiv. rewrite !Rmult_1_l. apply Rinv_le_contravar; lra.
Qed.

Lemma dict_get_insert_eq (d : Track) (k : string) (v : value) :
  dict_get (<[k := v]> d) k = v.
Proof. unfold dict_get. by rewrite lookup_insert_eq. Qed.

Lemma dict_get_insert_ne (d : Track) (k k' : string) (v : value) :
  k ≠ k' -> dict_get (<[k := v]> d) k' = dict_get d k'.
Proof. intros Hne. unfold dict_get. by rewrite lookup_insert_ne. Qed.

Lemma collapse_fields (t : Track) :
  has_sentiment t = true ->
  dict_get (collapse t) "sentiment_score" = VNum 0.5 /\
  dict_get (collapse t) "normalized_sentiment" = VNum 0.5 /\
  dict_get (collapse t) "raw_sentiment" = dict_get t "sentiment_score" /\
  forall k, k ∉ ["sentiment_score"; "normalized_sentiment"; "raw_sentiment"] ->
            collapse t !! k = t !! k.
Proof.
  intros Hs. unfold collapse. rewrite Hs.
  rewrite dict_get_insert_eq.
  rewrite (dict_get_insert_ne _ _ "normalized_sentiment"), dict_get_insert_eq by done.
  rewrite !(dict_get_insert_ne _ _ "raw_sentiment"), dict_get_insert_eq by done.
  repeat split. intros k Hk.
  rewrite !lookup_insert_ne; [done| |  |]; intros <-; apply Hk; set_solver.
Qed.

Lemma squashed_fields (median iqr s : R) (t : Track) :
  dict_get t "sentiment_score" = VNum s ->
  dict_get (squashed median iqr t) "sentiment_score" = VNum (sigmoid ((s - median) / iqr)) /\
  dict_get (squashed median iqr t) "normalized_sentiment"
  = VNum (sigmoid ((s - median) / iqr)) /\
  dict_get (squashed median iqr t) "raw_sentiment" = VNum s /\
  forall k, k ∉ ["sentiment_score"; "normalized_sentiment"; "raw_sentiment"] ->
            squashed median iqr t !! k = t !! k.
Proof.
  intros Hs. unfold squashed. rewrite Hs.
  rewrite dict_get_insert_eq.
  rewrite (dict_get_insert_ne _ _ "normalized_sentiment"), dict_get_insert_eq by done.
  rewrite !(dict_get_insert_ne _ _ "raw_sentiment"), dict_get_insert_eq by done.
  repeat split. intros k Hk.
  rewrite !lookup_insert_ne; [done| |  |]; intros <-; apply Hk; set_solver.
Qed.

(** C5. Normalisation formula: with at least 2 present scores and an
    interquartile range of at least 1e-6, every present score [s]
    becomes [1 / (1 + e^-z)] with [z = (s - median) / IQR] (the same
    value is stored as [normalized_sentiment] and [s] as
    [raw_sentiment]); a score equal to the median becomes exactly 0.5;
    the new value is non-decreasing in the raw score; a track without a
    score is left as it is. *)
Theorem normalize_formula (tracks : list Track) :
  Forall score_typed tracks ->
  2 <= length (scores_of tracks) ->
  (1e-6 <= iqr_of (scores_of tracks))%R ->
  let median := Numpy.median (scores_of tracks) in
  let iqr := iqr_of (scores_of tracks) in
  let normalized s := (1 / (1 + exp (- ((s - median) / iqr))))%R in
  exists res,
    normalize_sentiment_scores tracks = Returned res /\
    length res = length tracks /\
    (forall i t, tracks !! i = Some t ->
       exists u, res !! i = Some u /\
         (forall s, dict_get t "sentiment_score" = VNum s ->
            dict_get u "sentiment_score" = VNum (normalized s) /\
            dict_get u "normalized_sentiment" = VNum (normalized s) /\
            dict_get u "raw_sentiment" = VNum s) /\
         (has_sentiment t = false -> u = t)) /\
    normalized median = 0.5%R /\
    (forall s1 s2, (s1 <= s2)%R -> (normalized s1 <= normalized s2)%R).
Proof.
  intros Htyped Hlen Hiqr median iqr normalized.
  exists (squashed median iqr <$> tracks).
  split; [|split; [|split; [|split]]].
  - rewrite normalize_cases by done.
    destruct (Nat.ltb_spec (length (scores_of tracks)) 2) as [|_]; [lia|].
    destruct (Rlt_dec _ _); [lra | done].
  - by rewrite length_fmap.
  - intros i t Hi. exists (squashed median iqr t). rewrite list_lookup_fmap, Hi.
    split; [done|]. split.
    + intros s Hs. destruct (squashed_fields median iqr s t Hs) as (? & ? & ? & _).
      done.
    + unfold has_sentiment, squashed. by destruct (dict_get t "sentiment_score").
  - unfold normalized. replace ((median - median) / iqr)%R with 0%R.
    + rewrite Ropp_0, exp_0. lra.
    + unfold Rdiv. lra.
  - intros s1 s2 Hs. apply (sigmoid_monotone ((s1 - median) / iqr) ((s2 - median) / iqr)).
    assert (0 < iqr)%R as Hpos by (unfold iqr; lra).
    apply Rmult_le_compat_r; [|lra]. left. by apply Rinv_0_lt_compat.
Qed.

(** C6. Degenerate distribution: with at least 2 present scores and an
    interquartile range below 1e-6, every present [sentiment_score] and
    its [normalized_sentiment] become 0.5, the original value is kept in
    [raw_sentiment], and nothing else changes. *)
Theorem normalize_degenerate (tracks : list Track) :
  Forall score_typed tracks ->
  2 <= length (scores_of tracks) ->
  (iqr_of (scores_of tracks) < 1e-6)%R ->
  exists res,
    normalize_sentiment_scores tracks = Returned res /\
    length res = length tracks /\
    forall i t, tracks !! i = Some t ->
      exists u, res !! i = Some u /\
        (has_sentiment t = true ->
           dict_get u "sentiment_score" = VNum 0.5 /\
           dict_get u "normalized_sentiment" = VNum 0.5 /\
           dict_get u "raw_sentiment" = dict_get t "sentiment_score" /\
           forall k, k ∉ ["sentiment_score"; "normalized_sentiment"; "raw_sentiment"] ->
                     u !! k = t !! k) /\
        (has_sentiment t = false -> u = t).
Proof.
  intros Htyped Hlen Hiqr. exists (collapse <$> tracks). split; [|split].
  - rewrite normalize_cases by done.
    destruct (Nat.ltb_spec (length (scores_of tracks)) 2) as [|_]; [lia|].
    destruct (Rlt_dec _ _); [done | lra].
  - by rewrite length_fmap.
  - intros i t Hi. exists (collapse t). rewrite list_lookup_fmap, Hi.
    split; [done|]. split; [apply collapse_fields|].
    unfold collapse. by intros ->.
Qed.

(** C7. Small sample: when fewer than 2 tracks have a present
    [sentiment_score], the pass returns the collection as it is. *)
Theorem normalize_small_sample (tracks : list Track) :
  length (List.filter has_sentiment tracks) < 2 ->
  normalize_sentiment_scores tracks = Returned tracks.
Proof.
  intros Hlen. unfold normalize_sentiment_scores, present_scores.
  rewrite length_fmap.
  by destruct (Nat.ltb_spec (length (List.filter has_sentiment tracks)) 2) as [_|]; [|lia].
Qed.

End normalization_properties.

(** ** The normalisation pass on the samples of the specification *)

Definition scored (s : R) : Track :=
  <["sentiment_score" := VNum s]> (<["track_id" := VStr "s"]> ∅).

Lemma sort_spread : Numpy.sort [0.2; 0.5; 0.8]%R = [0.2; 0.5; 0.8]%R.
Proof.
  unfold Numpy.sort. simpl.
  repeat (destruct (Rle_dec _ _); try lra; simpl).
  reflexivity.
Qed.

(** The sample [[0.2, 0.5, 0.8]] has median 0.5 and interquartile
    range 0.3. *)
Lemma median_spread : Numpy.median [0.2; 0.5; 0.8]%R = 0.5%R.
Proof. unfold Numpy.median. rewrite sort_spread. reflexivity. Qed.

Lemma iqr_spread : iqr_of [0.2; 0.5; 0.8]%R = 0.3%R.
Proof.
  unfold iqr_of, Numpy.percentile. rewrite sort_spread.
  change (length [0.2; 0.5; 0.8]%R) with 3.
  change (75 * (3 - 1) / 100) with 1. change (25 * (3 - 1) / 100) with 0.
  change (75 * (3 - 1) mod 100) with 50. change (25 * (3 - 1) mod 100) with 50.
  unfold Numpy.item. simpl nth. rewrite (INR_IZR_INZ 50). simpl Z.of_nat. lra.
Qed.

Lemma sort_flat : Numpy.sort [0.6; 0.6; 0.6]%R = [0.6; 0.6; 0.6]%R.
Proof.
  unfold Numpy.sort. simpl.
  repeat (destruct (Rle_dec _ _); try lra; simpl).
  reflexivity.
Qed.

(** The sample [[0.6, 0.6, 0.6]] has no spread. *)
Lemma iqr_flat : iqr_of [0.6; 0.6; 0.6]%R = 0%R.
Proof.
  unfold iqr_of, Numpy.percentile. rewrite sort_flat.
  change (length [0.6; 0.6; 0.6]%R) with 3.
  change (75 * (3 - 1) / 100) with 1. change (25 * (3 - 1) / 100) with 0.
  unfold Numpy.item. simpl nth. lra.
Qed.

Lemma normalize_formula_witness :
  exists res u,
    Main.normalize_sentiment_scores [scored 0.2; scored 0.5; track_b; scored 0.8]
    = Returned res /\
    res !! 1 = Some u /\
    dict_get u "sentiment_score" = VNum 0.5 /\
    dict_get u "raw_sentiment" = VNum 0.5 /\
    res !! 2 = Some track_b.
Proof.
  destruct (normalize_formula [scored 0.2; scored 0.5; track_b; scored 0.8])
    as (res & Hres & _ & Hitems & Hmedian & _).
  - repeat constructor.
  - change (scores_of _) with [0.2; 0.5; 0.8]%R. simpl. lia.
  - change (scores_of _) with [0.2; 0.5; 0.8]%R. rewrite iqr_spread. lra.
  - destruct (Hitems 1 (scored 0.5) eq_refl) as (u & Hu & Hscore & _).
    destruct (Hitems 2 track_b eq_refl) as (u' & Hu' & _ & Habsent).
    destruct (Hscore 0.5%R eq_refl) as (Hnew & _ & Hraw).
    change (scores_of _) with [0.2; 0.5; 0.8]%R in Hnew, Hmedian.
    rewrite median_spread in Hnew, Hmedian. rewrite Hmedian in Hnew.
    exists res, u. repeat split; try assumption.
    rewrite Hu'. f_equal. apply Habsent. reflexivity.
Defined.

Lemma normalize_degenerate_witness :
  exists res,
    Main.normalize_sentiment_scores [scored 0.6; scored 0.6; scored 0.6] = Returned res /\
    length res = 3 /\
    forall i u, res !! i = Some u -> dict_get u "sentiment_score" = VNum 0.5.
Proof.
  destruct (normalize_degenerate [scored 0.6; scored 0.6; scored 0.6])
    as (res & Hres & Hlen & Hitems).
  - repeat constructor.
  - change (scores_of _) with [0.6; 0.6; 0.6]%R. simpl. lia.
  - change (scores_of _) with [0.6; 0.6; 0.6]%R. rewrite iqr_flat. lra.
  - exists res. split; [exact Hres|]. split; [exact Hlen|].
    intros i u Hu.
    assert (i < 3) as Hi.
    { pose proof (lookup_lt_Some _ _ _ Hu) as Hi. simpl in Hlen. lia. }
    destruct (Hitems i (scored 0.6)) as (u' & Hu' & Hset & _).
    + destruct i as [|[|[|i]]]; [reflexivity..|lia].
    + rewrite Hu in Hu'. injection Hu' as <-. apply Hset. reflexivity.
Defined.

Lemma normalize_small_sample_witness :
  Main.normalize_sentiment_scores [scored 0.9; track_b; track_a]
  = Returned [scored 0.9; track_b; track_a].
Proof.
  apply normalize_small_sample. vm_compute. lia.
Defined.

(** ** backend/main.py: the progress stream *)

Section stream_properties.

Import Main.

(** [ev] is a [track_update] event for [field] about the track
    [track_id]. *)
Definition is_update (field : string) (track_id : value) (ev : event) : bool :=
  match ev with
  | EvTrackUpdate f track_update =>
      bool_decide (f = field /\ dict_get track_update "track_id" = track_id)
  | _ => false
  end.

Definition updates_for (field : string) (track_id : value) (evs : list event) : nat :=
  length (List.filter (is_update field track_id) evs).

(** The final event is the one that carries the key [output_file]. *)
Definition is_final (ev : event) : bool :=
  match ev with
  | EvProgress _ _ _ _ _ _ (Some _) => true
  | _ => false
  end.

Definition is_error (ev : event) : bool :=
  match ev with
  | EvError _ => true
  | _ => false
  end.

(** How many [track_update] events for [field] about [track_id] the
    generator may still emit, given its two sets. *)
Definition budget (field : string) (track_id : value)
    (bpm_updates sentiment_updates : list value) : nat :=
  if decide (field = "tempo") then
    if decide (track_id ∈ bpm_updates) then 0 else 1
  else if decide (field = "sentiment") then
    if decide (track_id ∈ sentiment_updates) then 0 else 1
  else 0.

Lemma updates_for_app (field : string) (tid : value) (evs1 evs2 : list event) :
  updates_for field tid (evs1 ++ evs2) = updates_for field tid evs1 + updates_for field tid evs2.
Proof. unfold updates_for. by rewrite List.filter_app, length_app. Qed.

Lemma tempo_update_id (track_id : value) (track : Track) :
  dict_get (tempo_update track_id track) "track_id" = track_id.
Proof.
  unfold tempo_update, dict_get. rewrite !lookup_insert_ne by done.
  by rewrite lookup_insert_eq.
Qed.

Lemma sentiment_update_id (track_id : value) (track : Track) :
  dict_get (sentiment_update track_id track) "track_id" = track_id.
Proof.
  unfold sentiment_update, dict_get. rewrite !lookup_insert_ne by done.
  by rewrite lookup_insert_eq.
Qed.

(** Emitting the tempo event of a track uses up its budget. *)
Lemma budget_tempo_step (field : string) (tid track_id : value) (track : Track)
    (bpm sent : list value) :
  track_id ∉ bpm ->
  updates_for field tid [EvTrackUpdate "tempo" (tempo_update track_id track)]
  + budget field tid (track_id :: bpm) sent <= budget field tid bpm sent.
Proof.
  intros Hnew. unfold updates_for, budget. simpl. rewrite tempo_update_id.
  destruct (decide (field = "tempo")) as [->|Hf].
  - destruct (decide (track_id = tid)) as [->|Hne].
    + rewrite bool_decide_eq_true_2 by done.
      rewrite decide_True by (apply elem_of_cons; by left).
      rewrite decide_False by done. simpl. lia.
    + rewrite bool_decide_eq_false_2 by (intros [_ ?]; done).
      destruct (decide (tid ∈ bpm)) as [Hin|Hnin].
      * rewrite decide_True by (apply elem_of_cons; by right). simpl. lia.
      * case_decide; simpl; lia.
  - rewrite bool_decide_eq_false_2 by (intros [? _]; done). simpl. lia.
Qed.

Lemma budget_sentiment_step (field : string) (tid track_id : value) (track : Track)
    (bpm sent : list value) :
  track_id ∉ sent ->
  updates_for field tid [EvTrackUpdate "sentiment" (sentiment_update track_id track)]
  + budget field tid bpm (track_id :: sent) <= budget field tid bpm sent.
Proof.
  intros Hnew. unfold updates_for, budget. simpl. rewrite sentiment_update_id.
  destruct (decide (field = "tempo")) as [->|Hf].
  - rewrite bool_decide_eq_false_2 by (intros [? _]; done). simpl. lia.
  - destruct (decide (field = "sentiment")) as [->|Hf'].
    + destruct (decide (track_id = tid)) as [->|Hne].
      * rewrite bool_decide_eq_true_2 by done.
        rewrite decide_True by (apply elem_of_cons; by left).
        rewrite decide_False by done. simpl. lia.
      * rewrite bool_decide_eq_false_2 by (intros [_ ?]; done).
        destruct (decide (tid ∈ sent)) as [Hin|Hnin].
        -- rewrite decide_True by (apply elem_of_cons; by right). simpl. lia.
        -- case_decide; simpl; lia.
    + rewrite bool_decide_eq_false_2 by (intros [? _]; done). simpl. lia.
Qed.

(** In a proof by induction on the tracks: take the induction hypothesis
    at the sets of the recursive call and name what the call returns. *)
Ltac recursive_report IH :=
  match goal with
  | |- context [report_tracks ?r ?b ?s] =>
      specialize (IH b s); destruct (report_tracks r b s) as [evs sets]
  end.

(** The loop of one poll spends its budget: the events it emits plus
    what may still be emitted afterwards stay within what could be
    emitted before. *)
Lemma report_tracks_budget (field : string) (tid : value) (tracks : list Track)
    (bpm sent : list value) :
  updates_for field tid (report_tracks tracks bpm sent).1
  + match (report_tracks tracks bpm sent).2 with
    | Some (bpm', sent') => budget field tid bpm' sent'
    | None => 0
    end
  <= budget field tid bpm sent.
Proof.
  revert bpm sent. induction tracks as [|track rest IH]; intros bpm sent.
  - simpl. unfold updates_for. simpl. lia.
  - cbn [report_tracks].
    destruct (negb (truthy (dict_get track "track_id"))); [apply IH|].
    destruct (negb (hashable (dict_get track "track_id"))).
    { simpl. unfold updates_for. simpl. lia. }
    set (track_id := dict_get track "track_id").
    destruct (bool_decide (track_id ∉ bpm) && _) eqn:Hb;
      destruct (bool_decide (track_id ∉ sent) && _) eqn:Hs.
    all: repeat match goal with
           | H : _ && _ = true |- _ =>
               apply andb_true_iff in H as [?%bool_decide_eq_true _]
           end.
    all: recursive_report IH.
    all: cbn [fst snd] in *; rewrite ?updates_for_app.
    + pose proof (budget_tempo_step field tid track_id track bpm sent ltac:(done)).
      pose proof (budget_sentiment_step field tid track_id track (track_id :: bpm) sent
                    ltac:(done)).
      lia.
    + pose proof (budget_tempo_step field tid track_id track bpm sent ltac:(done)).
      change (updates_for field tid []) with 0. lia.
    + pose proof (budget_sentiment_step field tid track_id track bpm sent ltac:(done)).
      change (updates_for field tid []) with 0. lia.
    + change (updates_for field tid []) with 0. lia.
Qed.

Definition budget_of (field : string) (tid : value) (st : gen_state) : nat :=
  budget field tid (last_bpm_updates st) (last_sentiment_updates st).

Lemma updates_for_progress (field : string) (tid : value) (evs : list event) :
  Forall (fun ev => is_update field tid ev = false) evs -> updates_for field tid evs = 0.
Proof.
  unfold updates_for. induction 1 as [|ev evs Hev _ IH]; [done|]. simpl. by rewrite Hev.
Qed.

Lemma poll_budget (field : string) (tid : value) (job_id : string) (st : gen_state)
    (w : gmap string Job) :
  updates_for field tid (poll job_id st w).1.1
  + match (poll job_id st w).1.2 with
    | Some st' => budget_of field tid st'
    | None => 0
    end
  <= budget_of field tid st.
Proof.
  unfold poll, budget_of. destruct (w !! job_id) as [progress|]; [|simpl; lia].
  pose proof (report_tracks_budget field tid (default [] (job_tracks progress))
                (last_bpm_updates st) (last_sentiment_updates st)) as Hbudget.
  destruct (report_tracks _ _ _) as [updates [[bpm sent]|]]; cbn [fst snd] in *; [|lia].
  set (progress_events := if bool_decide (_ ≠ []) && _ then _ else _).
  assert (updates_for field tid progress_events.1.1.1 = 0) as Hprogress.
  { apply updates_for_progress. unfold progress_events.
    repeat case_match; simpl; repeat constructor. }
  destruct progress_events as [[[evs sent'] stage'] current']. cbn [fst snd] in *.
  destruct (terminal _); cbn [fst snd].
  - rewrite !updates_for_app, Hprogress. change (updates_for field tid [_]) with 0. lia.
  - rewrite updates_for_app, Hprogress. simpl. lia.
Qed.

Lemma stream_budget (field : string) (tid : value) (job_id : string)
    (worlds : list (gmap string Job)) (st : gen_state) :
  updates_for field tid (stream job_id st worlds) <= budget_of field tid st.
Proof.
  revert st. induction worlds as [|w worlds IH]; intros st.
  - unfold updates_for. simpl. lia.
  - pose proof (poll_budget field tid job_id st w) as Hpoll. cbn [stream].
    destruct (poll job_id st w) as [[evs next] w']. cbn [fst snd] in *.
    rewrite updates_for_app. destruct next as [st'|].
    + specialize (IH st'). lia.
    + change (updates_for field tid []) with 0. lia.
Qed.

(** Every [track_update] event carries a truthy track id. *)
Definition update_has_id (ev : event) : Prop :=
  match ev with
  | EvTrackUpdate _ track_update => truthy (dict_get track_update "track_id") = true
  | _ => True
  end.

Lemma report_tracks_ids (tracks : list Track) (bpm sent : list value) :
  Forall update_has_id (report_tracks tracks bpm sent).1.
Proof.
  revert bpm sent. induction tracks as [|track rest IH]; intros bpm sent; [constructor|].
  cbn [report_tracks].
  destruct (negb (truthy (dict_get track "track_id"))) eqn:Hid; [apply IH|].
  apply negb_false_iff in Hid.
  destruct (negb (hashable _)); [constructor|].
  destruct (bool_decide _ && _); destruct (bool_decide _ && _).
  all: recursive_report IH.
  all: cbn [fst snd app] in *; repeat constructor; try done.
  all: unfold update_has_id; by rewrite ?tempo_update_id, ?sentiment_update_id.
Qed.

Lemma poll_ids (job_id : string) (st : gen_state) (w : gmap string Job) :
  Forall update_has_id (poll job_id st w).1.1.
Proof.
  unfold poll. destruct (w !! job_id) as [progress|]; [|by repeat constructor].
  pose proof (report_tracks_ids (default [] (job_tracks progress))
                (last_bpm_updates st) (last_sentiment_updates st)) as Hids.
  destruct (report_tracks _ _ _) as [updates [[bpm sent]|]]; cbn [fst snd] in *; [|done].
  set (progress_events := if bool_decide (_ ≠ []) && _ then _ else _).
  assert (Forall update_has_id progress_events.1.1.1) as Hprogress.
  { unfold progress_events. repeat case_match; simpl; repeat constructor. }
  destruct progress_events as [[[evs sent'] stage'] current']. cbn [fst snd] in *.
  destruct (terminal _); cbn [fst snd]; rewrite ?Forall_app; repeat split; try done.
  by repeat constructor.
Qed.

Lemma stream_ids (job_id : string) (worlds : list (gmap string Job)) (st : gen_state) :
  Forall update_has_id (stream job_id st worlds).
Proof.
  revert st. induction worlds as [|w worlds IH]; intros st; [constructor|].
  pose proof (poll_ids job_id st w) as Hpoll. cbn [stream].
  destruct (poll job_id st w) as [[evs next] w']. cbn [fst snd] in *.
  apply Forall_app. split; [done|]. destruct next; [apply IH | constructor].
Qed.

(** C4. Progress-publisher at-most-once: whatever the registry holds at
    each poll, the stream of a job carries at most one [track_update]
    event for a given field about a given track id; every such event
    carries a track id, and a track without one is skipped by the
    loop that reports the tracks. *)
Theorem track_update_at_most_once (job_id : string) (worlds : list (gmap string Job)) :
  (forall field track_id,
      updates_for field track_id (stream job_id gen_init worlds) <= 1) /\
  (forall field track_update,
      EvTrackUpdate field track_update ∈ stream job_id gen_init worlds ->
      truthy (dict_get track_update "track_id") = true) /\
  (forall track rest bpm_updates sentiment_updates,
      truthy (dict_get track "track_id") = false ->
      report_tracks (track :: rest) bpm_updates sentiment_updates
      = report_tracks rest bpm_updates sentiment_updates).
Proof.
  split; [|split].
  - intros field tid. etrans; [apply stream_budget|].
    unfold budget_of, budget. repeat case_decide; lia.
  - intros field tu Hin.
    pose proof (stream_ids job_id worlds gen_init) as Hids.
    rewrite Forall_forall in Hids. apply (Hids _ Hin).
  - intros track rest bpm sent Hid. cbn [report_tracks]. by rewrite Hid.
Qed.

(** *** The end of the stream *)

(** A track id that is looked up in a set is hashable. *)
Definition id_ok (t : Track) : Prop :=
  truthy (dict_get t "track_id") = true -> hashable (dict_get t "track_id") = true.

Definition ids_ok (job : Job) : Prop := Forall id_ok (default [] (job_tracks job)).

(** The job is in the registry and still at work. *)
Definition running (job_id : string) (w : gmap string Job) : Prop :=
  exists job, w !! job_id = Some job /\ terminal (job_stage job) = false /\ ids_ok job.

(** Neither the final event nor an error event. *)
Definition plain (ev : event) : Prop := is_final ev = false /\ is_error ev = false.

Lemma report_tracks_plain (tracks : list Track) (bpm sent : list value) :
  Forall plain (report_tracks tracks bpm sent).1.
Proof.
  revert bpm sent. induction tracks as [|track rest IH]; intros bpm sent; [constructor|].
  cbn [report_tracks].
  destruct (negb (truthy (dict_get track "track_id"))); [apply IH|].
  destruct (negb (hashable _)); [constructor|].
  destruct (bool_decide _ && _); destruct (bool_decide _ && _).
  all: recursive_report IH.
  all: cbn [fst snd app] in *; repeat constructor; done.
Qed.

Lemma report_tracks_returns (tracks : list Track) (bpm sent : list value) :
  Forall id_ok tracks -> is_Some (report_tracks tracks bpm sent).2.
Proof.
  intros Hok. revert bpm sent.
  induction Hok as [|track rest Hid _ IH]; intros bpm sent; [by eexists|].
  cbn [report_tracks]. unfold id_ok in Hid.
  destruct (truthy (dict_get track "track_id")); [|apply IH]. rewrite Hid by done.
  cbn [negb].
  destruct (bool_decide _ && _); destruct (bool_decide _ && _).
  all: recursive_report IH.
  all: done.
Qed.

(** The events of a poll before a final event, when the loop over the
    tracks does not raise. *)
Lemma poll_found (job_id : string) (st : gen_state) (w : gmap string Job) (job : Job) :
  w !! job_id = Some job -> ids_ok job ->
  exists evs st',
    Forall plain evs /\
    poll job_id st w =
      if terminal (job_stage job) then (evs ++ [final_event job], None, w)
      else (evs, Some st', w).
Proof.
  intros Hjob Hok. unfold poll. rewrite Hjob.
  pose proof (report_tracks_plain (default [] (job_tracks job))
                (last_bpm_updates st) (last_sentiment_updates st)) as Hplain.
  destruct (report_tracks_returns (default [] (job_tracks job))
              (last_bpm_updates st) (last_sentiment_updates st) Hok) as [[bpm sent] Hsets].
  destruct (report_tracks _ _ _) as [updates sets]. cbn [fst snd] in *. subst sets.
  set (progress_events := if bool_decide (_ ≠ []) && _ then _ else _).
  assert (Forall plain progress_events.1.1.1) as Hprogress.
  { unfold progress_events. repeat case_match; simpl; repeat constructor. }
  destruct progress_events as [[[evs sent'] stage'] current']. cbn [fst snd] in *.
  exists (updates ++ evs), (GenState stage' current' bpm sent sent').
  split; [by apply Forall_app|].
  destruct (terminal _); [by rewrite app_assoc | done].
Qed.

Lemma stream_running (job_id : string) (ws1 : list (gmap string Job)) (st : gen_state) :
  Forall (running job_id) ws1 ->
  exists st',
    Forall plain (stream job_id st ws1) /\
    forall rest, stream job_id st (ws1 ++ rest)
                 = stream job_id st ws1 ++ stream job_id st' rest.
Proof.
  intros Hrun. revert st.
  induction Hrun as [|w ws1 (job & Hjob & Hterm & Hok) _ IH]; intros st.
  - exists st. split; [constructor | done].
  - destruct (poll_found job_id st w job Hjob Hok) as (evs & st1 & Hplain & Hpoll).
    rewrite Hterm in Hpoll. destruct (IH st1) as (st' & Hplain' & Hrest).
    exists st'. cbn [stream app]. rewrite Hpoll. split; [by apply Forall_app|].
    intros rest. by rewrite Hrest, app_assoc.
Qed.

(** C8. Stream termination: at the first poll that finds the job at
    stage [complete] or [error], the stream ends with one final event,
    which carries the track collection of the job, and nothing follows
    it; at a poll that does not find the job, the stream ends with one
    error event; no poll changes the registry. *)
Theorem stream_termination (job_id : string) (ws1 : list (gmap string Job))
    (w : gmap string Job) (ws2 : list (gmap string Job)) :
  Forall (running job_id) ws1 ->
  (forall st, (poll job_id st w).2 = w) /\
  (w !! job_id = None ->
   exists evs,
     stream job_id gen_init (ws1 ++ w :: ws2) = evs ++ [EvError "Job not found"] /\
     Forall plain evs) /\
  (forall job,
      w !! job_id = Some job -> terminal (job_stage job) = true -> ids_ok job ->
      exists evs,
        stream job_id gen_init (ws1 ++ w :: ws2) = evs ++ [final_event job] /\
        Forall plain evs /\
        is_final (final_event job) = true /\
        exists stage current total message playlist_name output_file,
          final_event job =
            EvProgress stage current total message
              (Some (default [] (job_tracks job))) playlist_name output_file).
Proof.
  intros Hrun.
  destruct (stream_running job_id ws1 gen_init Hrun) as (st' & Hplain & Hrest).
  split; [|split].
  - intros st. unfold poll. destruct (w !! job_id) as [job|]; [|done].
    destruct (report_tracks _ _ _) as [updates [[bpm sent]|]]; [|done].
    by repeat case_match.
  - intros Hnone. exists (stream job_id gen_init ws1). split; [|done].
    rewrite Hrest. f_equal. cbn [stream]. unfold poll. by rewrite Hnone.
  - intros job Hjob Hterm Hok.
    destruct (poll_found job_id st' w job Hjob Hok) as (evs & st1 & Hplain1 & Hpoll).
    rewrite Hterm in Hpoll.
    exists (stream job_id gen_init ws1 ++ evs).
    split; [|split; [by apply Forall_app|split; [done|]]].
    + rewrite Hrest. cbn [stream]. rewrite Hpoll. by rewrite app_nil_r, app_assoc.
    + unfold final_event. by eexists _, _, _, _, _, _.
Qed.

End stream_properties.

(** ** The progress stream on a concrete job *)

Definition job_at (stage : string) (current : Z) (tracks : list Track) : Main.Job :=
  {| Main.job_stage := Some stage; Main.job_current := Some current;
     Main.job_total := Some 2%Z; Main.job_message := Some "Working";
     Main.job_tracks := Some tracks; Main.job_playlist_name := None;
     Main.job_output_file := None; Main.job_error := None |}.

Definition job_processing : Main.Job := job_at "processing" 0 [track_a; track_b].

Definition job_complete : Main.Job := job_at "complete" 2 [track_a; track_c].

Lemma stream_termination_witness :
  exists evs,
    Main.stream "job-1" Main.gen_init
      [{["job-1" := job_processing]}; {["job-1" := job_complete]}; ∅]
    = evs ++ [Main.final_event job_complete].
Proof.
  destruct (stream_termination "job-1" [{["job-1" := job_processing]}]
              {["job-1" := job_complete]} [∅]) as (_ & _ & Hfinal).
  - repeat constructor. exists job_processing.
    split; [reflexivity|]. split; [reflexivity|].
    repeat constructor; intros _; reflexivity.
  - destruct (Hfinal job_complete) as (evs & Hevs & _).
    + reflexivity.
    + reflexivity.
    + repeat constructor; intros _; reflexivity.
    + exists evs. exact Hevs.
Defined.

(** ** backend/main.py: the parallel flow *)

Section parallel_flow_properties.

Import Main.

Variable search_preview_url : value -> value -> outcome value.
Variable download_and_beat_track : value -> outcome R.
Variable spotify_credentials : option (string * string).
Variable search_song : value -> value -> outcome (option LyricsFetch.Song).
Variable preprocess_lyrics_for_sentiment : string -> string.
Variable split_into_stanzas : string -> list string.
Variable sentiment_classifier : string -> outcome (string * R).

Local Abbreviation bpm_task :=
  (Main.bpm_task search_preview_url download_and_beat_track spotify_credentials).
Local Abbreviation process_sentiment_for_track :=
  (Main.process_sentiment_for_track search_song preprocess_lyrics_for_sentiment
     split_into_stanzas sentiment_classifier).
Local Abbreviation flow_step :=
  (Main.flow_step search_preview_url download_and_beat_track spotify_credentials
     search_song preprocess_lyrics_for_sentiment split_into_stanzas sentiment_classifier).
Local Abbreviation flow_run :=
  (Main.flow_run search_preview_url download_and_beat_track spotify_credentials
     search_song preprocess_lyrics_for_sentiment split_into_stanzas sentiment_classifier).
Local Abbreviation gathered :=
  (Main.gathered search_preview_url download_and_beat_track spotify_credentials
     search_song preprocess_lyrics_for_sentiment split_into_stanzas sentiment_classifier).

(** The fields that the tempo branch writes. *)
Definition tempo_keys : list string := ["tempo"; "audio_features_error"].

Lemma bpm_task_returned (i j : nat) (t u : Track) :
  bpm_task i t = Returned (j, u) ->
  j = i /\ forall k, k ∈ tempo_keys -> is_Some (u !! k).
Proof.
  unfold Main.bpm_task, AudioFeatures.analyze_track_with_index.
  destruct (if truthy _ then _ else _) as [artist|e]; simpl; [|done].
  assert (forall tempo err k, k ∈ tempo_keys ->
            is_Some ((<["audio_features_error" := err]> (<["tempo" := tempo]> t)) !! k))
    as Hkeys.
  { intros tempo err k [->|[->|[]%elem_of_nil]%elem_of_cons]%elem_of_cons.
    - rewrite lookup_insert_ne, lookup_insert_eq by done. by eexists.
    - rewrite lookup_insert_eq. by eexists. }
  destruct (truthy _).
  - destruct (AudioFeatures.calculate_bpm_from_preview_url _ _) as [bpm error].
    destruct (is_not_none bpm); intros [= <- <-]; split; try done; apply Hkeys.
  - intros [= <- <-]; split; try done; apply Hkeys.
Qed.

Lemma fetch_lyrics_single_other (t : Track) (r : Track * list (value * value)) (k : string) :
  k ≠ "lyrics" -> k ≠ "lyrics_source" -> k ≠ "genius_url" ->
  LyricsFetch.fetch_lyrics_single search_song t = Returned r -> r.1 !! k = t !! k.
Proof.
  intros ? ? ?. unfold LyricsFetch.fetch_lyrics_single, LyricsFetch.no_lyrics.
  destruct (if truthy _ then _ else _) as [artist|e]; cbn [mbind outcome_bind]; [|done].
  destruct (_ && _); [by intros [= <-]|]. intros [= <-]. cbn [fst].
  destruct (search_song _ _) as [[song|]|e]; [|by rewrite !lookup_insert_ne..].
  destruct (LyricsFetch.song_lyrics song); by rewrite !lookup_insert_ne.
Qed.

Lemma analyze_sentiment_single_other (t : Track) (k : string) :
  k ≠ "sentiment_score" -> k ≠ "sentiment_chunks" -> k ≠ "stanza_scores" ->
  SentimentAnalysis.analyze_sentiment_single preprocess_lyrics_for_sentiment
    split_into_stanzas sentiment_classifier t !! k = t !! k.
Proof.
  intros ? ? ?.
  unfold SentimentAnalysis.analyze_sentiment_single, SentimentAnalysis.no_sentiment.
  destruct (_ && _); [done|].
  destruct (negb _); [by rewrite !lookup_insert_ne|].
  destruct (SentimentAnalysis.analyze_sentiment _ _ _ _) as [r|e] eqn:Hr;
    [|by rewrite !lookup_insert_ne].
  apply analyze_sentiment_keys in Hr as (score & chunks & ss & ->).
  rewrite lookup_union_r; [done|].
  unfold SentimentAnalysis.sentiment_result. by rewrite !lookup_insert_ne.
Qed.

(** The sentiment branch hands the tempo fields over as it found
    them. *)
Lemma sentiment_task_returned (i j : nat) (t u : Track) :
  process_sentiment_for_track i t = Returned (j, u) ->
  j = i /\ forall k, k ∈ tempo_keys -> u !! k = t !! k.
Proof.
  unfold Main.process_sentiment_for_track.
  destruct (LyricsFetch.fetch_lyrics_single _ _) as [r|e] eqn:Hr; simpl; [|done].
  intros [= <- <-]. split; [done|].
  intros k [->|[->|[]%elem_of_nil]%elem_of_cons]%elem_of_cons.
  - rewrite analyze_sentiment_single_other by done.
    by apply (fetch_lyrics_single_other t r).
  - rewrite analyze_sentiment_single_other by done.
    by apply (fetch_lyrics_single_other t r).
Qed.

(** *** An invariant of the interleavings

    On every track that sits in the shared list or that the sentiment
    branch has taken or produced, a tempo field is either missing or the
    one that the tempo branch computed for that position. *)

Definition consistent (st : flow_state) (i : nat) (t : Track) : Prop :=
  forall k, k ∈ tempo_keys ->
    t !! k = None \/
    exists b, futures (bpm st) !! i = Some (Returned (i, b)) /\ t !! k = b !! k.

Record flow_inv (st : flow_state) : Prop := FlowInv {
  inv_length : length (futures (bpm st)) <= length (shared_tracks st);
  inv_shared : forall i t, shared_tracks st !! i = Some t -> consistent st i t;
  inv_sentiment_futures : forall i j u,
    futures (sentiment st) !! i = Some (Returned (j, u)) -> j = i /\ consistent st i u;
  inv_bpm_futures : forall i j u,
    futures (bpm st) !! i = Some (Returned (j, u)) ->
    j = i /\ forall k, k ∈ tempo_keys -> is_Some (u !! k);
  inv_bpm_results : forall i b,
    results (bpm st) !! i = Some b -> futures (bpm st) !! i = Some (Returned (i, b));
  inv_sentiment_results : forall i s,
    results (sentiment st) !! i = Some s ->
    futures (sentiment st) !! i = Some (Returned (i, s))
}.

Lemma consistent_mono (st st' : flow_state) (i : nat) (t : Track) :
  (forall fut, futures (bpm st) !! i = Some fut -> futures (bpm st') !! i = Some fut) ->
  consistent st i t -> consistent st' i t.
Proof.
  intros Hfut Hc k Hk. destruct (Hc k Hk) as [Hnone|(b & Hb & Hkb)]; [by left|].
  right. exists b. split; [by apply Hfut | done].
Qed.

Lemma flow_inv_init (tracks : list Track) :
  Forall (fun t => forall k, k ∈ tempo_keys -> t !! k = None) tracks ->
  flow_inv (FlowState tracks branch_init branch_init).
Proof.
  intros Hfresh. split; simpl; try done; [lia|].
  intros i t Hi k Hk. left. rewrite Forall_forall in Hfresh.
  apply Hfresh; [|done]. by eapply list_elem_of_lookup_2.
Qed.

Lemma flow_inv_step (st st' : flow_state) (ev : flow_event) :
  flow_inv st -> flow_step st ev = Some st' -> flow_inv st'.
Proof.
  intros [Hlen Hshared Hsf Hbf Hbr Hsr].
  destruct st as [shared b s]. destruct b as [bf by_ br bc]. destruct s as [sf sy sr sc].
  simpl in *. destruct ev as [|i| |i]; unfold Main.flow_step; simpl.
  - (* SubmitBpm *)
    unfold submit. simpl. destruct (shared !! length bf) as [t|] eqn:Ht; [|done].
    simpl. intros [= <-].
    assert (forall i fut, bf !! i = Some fut ->
              (bf ++ [bpm_task (length bf) t]) !! i = Some fut) as Hext.
    { intros i fut Hi. by apply lookup_app_l_Some. }
    split; simpl.
    + apply lookup_lt_Some in Ht. rewrite length_app. simpl. lia.
    + intros i t0 Hi. eapply consistent_mono; [|by apply Hshared]. simpl. apply Hext.
    + intros i j u Hi. destruct (Hsf i j u Hi) as [-> Hc]. split; [done|].
      eapply consistent_mono; [|done]. simpl. apply Hext.
    + intros i j u [[_ Hi]|[-> Hi]]%lookup_snoc_Some; [by apply Hbf|].
      by apply (bpm_task_returned _ _ t).
    + intros i b Hi. by apply Hext, Hbr.
    + done.
  - (* YieldBpm *)
    unfold yield. simpl. case_bool_decide as Hguard; [|done].
    destruct (bf !! i) as [[[j u]|e]|] eqn:Hfut; simpl; [| |done].
    + intros [= <-]. destruct (Hbf i j u Hfut) as [-> Hkeys].
      split; simpl.
      * by rewrite length_insert.
      * intros i0 t0 [(<- & <- & _)|[_ Hi0]]%list_lookup_insert_Some.
        -- intros k Hk. right. by exists u.
        -- by apply Hshared.
      * done.
      * done.
      * intros i0 b [[<- <-]|[_ Hi0]]%lookup_insert_Some; [done | by apply Hbr].
      * done.
    + intros [= <-]. by split.
  - (* SubmitSentiment *)
    unfold submit. simpl. destruct (shared !! length sf) as [t|] eqn:Ht; [|done].
    simpl. intros [= <-]. split; simpl; try done.
    + intros i j u [[_ Hi]|[-> Hi]]%lookup_snoc_Some; [by apply Hsf|].
      destruct (sentiment_task_returned _ _ _ _ Hi) as [-> Hsame]. split; [done|].
      intros k Hk. rewrite (Hsame k Hk). by apply (Hshared _ _ Ht).
    + intros i s Hi. by apply lookup_app_l_Some, Hsr.
  - (* YieldSentiment *)
    unfold yield. simpl. case_bool_decide as Hguard; [|done].
    destruct (sf !! i) as [[[j u]|e]|] eqn:Hfut; simpl; [| |done].
    + intros [= <-]. destruct (Hsf i j u Hfut) as [-> Hc].
      split; simpl; try done.
      * by rewrite length_insert.
      * intros i0 t0 [(<- & <- & _)|[_ Hi0]]%list_lookup_insert_Some;
          [done | by apply Hshared].
      * intros i0 s [[<- <-]|[_ Hi0]]%lookup_insert_Some; [done | by apply Hsr].
    + intros [= <-]. by split.
Qed.

Lemma flow_inv_run (schedule : list flow_event) (st st' : flow_state) :
  flow_inv st -> flow_run st schedule = Some st' -> flow_inv st'.
Proof.
  revert st. induction schedule as [|ev schedule IH]; intros st Hinv; simpl.
  - by intros [= <-].
  - destruct (flow_step st ev) as [st1|] eqn:Hstep; [|done]. simpl.
    apply IH. by eapply flow_inv_step.
Qed.

(** On tracks that come in without tempo fields, the merge keeps what
    both branches wrote, whatever the interleaving. *)
Lemma merge_keeps_both_on_fresh_tracks (tracks : list Track)
    (schedule : list flow_event) (st : flow_state) (i : nat) (b s : Track) :
  Forall (fun t => forall k, k ∈ tempo_keys -> t !! k = None) tracks ->
  gathered tracks schedule = Some st ->
  results (bpm st) !! i = Some b ->
  results (sentiment st) !! i = Some s ->
  exists f,
    merge_results (shared_tracks st) (results (bpm st)) (results (sentiment st)) !! i
    = Some f /\
    (forall k v, s !! k = Some v -> f !! k = Some v) /\
    (forall k, k ∈ tempo_keys -> is_Some (b !! k) /\ f !! k = b !! k).
Proof.
  intros Hfresh Hgathered Hb Hs. unfold Main.gathered in Hgathered.
  destruct (flow_run _ schedule) as [st1|] eqn:Hrun; [|done]. simpl in Hgathered.
  destruct (_ && _); [|done]. injection Hgathered as ->.
  pose proof (flow_inv_run schedule _ _ (flow_inv_init tracks Hfresh) Hrun)
    as [Hlen Hshared Hsf Hbf Hbr Hsr].
  pose proof (Hbr i b Hb) as Hbfut. pose proof (Hsr i s Hs) as Hsfut.
  destruct (lookup_lt_is_Some_2 (shared_tracks st) i) as [t Ht].
  { apply lookup_lt_Some in Hbfut. lia. }
  unfold merge_results. rewrite list_lookup_imap, Ht. simpl. rewrite Hb, Hs.
  eexists. split; [done|]. split.
  - intros k v Hk. by apply lookup_union_Some_l.
  - intros k Hk. destruct (Hbf i i b Hbfut) as [_ Hkeys].
    destruct (Hkeys k Hk) as [v Hv]. split; [by eexists|].
    destruct (Hsf i i s Hsfut) as [_ Hc].
    destruct (Hc k Hk) as [Hnone|(b' & Hb' & Hkb)].
    + rewrite lookup_union_r by done. rewrite Hv. by apply lookup_union_Some_l.
    + rewrite Hbfut in Hb'. injection Hb' as <-.
      rewrite Hv in *. by apply lookup_union_Some_l.
Qed.

End parallel_flow_properties.

(** ** The parallel flow on a track that was enriched before *)

(** A track saved by an earlier run whose tempo computation had
    failed. *)
Definition track_stale : Track :=
  <["audio_features_error" := VStr "Error: timed out"]> (<["tempo" := VNone]> track_a).

(** Both pipelines submit their task before either result arrives. *)
Definition usual_schedule : list Main.flow_event :=
  [Main.SubmitBpm; Main.SubmitSentiment; Main.YieldBpm 0; Main.YieldSentiment 0].

Definition gathered_stale : option Main.flow_state :=
  Main.gathered no_preview tempo_120 None one_song keep_text one_stanza rather_positive
    [track_stale] usual_schedule.

Definition merged_stale : option (list Track) :=
  Main.merged_tracks no_preview tempo_120 None one_song keep_text one_stanza
    rather_positive [track_stale] usual_schedule.

(** C1, on the code. Parallel-branch merge safety fails on a track that
    comes in with tempo fields of its own: both branches produce a
    result for position 0, the tempo branch computes [tempo = 120] and
    no error, and the merged track still has the [tempo] and the
    [audio_features_error] it came in with, because the copy that the
    sentiment branch returns carries them and is merged last.  The
    fields of the sentiment branch are kept, and the normalisation pass
    that follows leaves the merged track as it is. *)
Theorem parallel_merge_loses_tempo :
  (st ← gathered_stale; b ← Main.results (Main.bpm st) !! 0; b !! "tempo")
  = Some (VNum 120) /\
  (st ← gathered_stale; b ← Main.results (Main.bpm st) !! 0; b !! "audio_features_error")
  = Some VNone /\
  (st ← gathered_stale; s ← Main.results (Main.sentiment st) !! 0; s !! "lyrics")
  = Some (VStr "la la la") /\
  (l ← merged_stale; f ← l !! 0; f !! "lyrics") = Some (VStr "la la la") /\
  (l ← merged_stale; f ← l !! 0; f !! "tempo") = Some VNone /\
  (l ← merged_stale; f ← l !! 0; f !! "audio_features_error")
  = Some (VStr "Error: timed out") /\
  Main.final_tracks no_preview tempo_120 None one_song keep_text one_stanza
    rather_positive [track_stale] usual_schedule = Returned <$> merged_stale.
Proof. repeat split; vm_compute; reflexivity. Qed.

(** ** Enriching a track that is already enriched *)

Section enrichment_properties.

Variable search_song : value -> value -> outcome (option LyricsFetch.Song).
Variable preprocess_lyrics_for_sentiment : string -> string.
Variable split_into_stanzas : string -> list string.
Variable sentiment_classifier : string -> outcome (string * R).

Local Abbreviation fetch_lyrics_single := (LyricsFetch.fetch_lyrics_single search_song).
Local Abbreviation analyze_sentiment :=
  (SentimentAnalysis.analyze_sentiment preprocess_lyrics_for_sentiment
     split_into_stanzas sentiment_classifier).
Local Abbreviation analyze_sentiment_single :=
  (SentimentAnalysis.analyze_sentiment_single preprocess_lyrics_for_sentiment
     split_into_stanzas sentiment_classifier).

(** Writing the same fields twice is writing them once. *)
Ltac same_inserts :=
  apply map_eq; intros ?; rewrite !lookup_insert; repeat case_decide; done.

Lemma fetch_lyrics_single_skips (t : Track) :
  artists_ok t -> truthy (dict_get t "lyrics") = true ->
  fetch_lyrics_single t = Returned (t, []).
Proof.
  intros Hok Hlyrics. unfold LyricsFetch.fetch_lyrics_single.
  destruct (first_artist_returned t (VStr "") Hok) as [artist ->]. simpl.
  rewrite Hlyrics. unfold dict_has, dict_get in *.
  by destruct (t !! "lyrics").
Qed.

Lemma analyze_sentiment_single_skips (t : Track) :
  is_not_none (dict_get t "sentiment_score") = true -> analyze_sentiment_single t = t.
Proof.
  intros Hscore. unfold SentimentAnalysis.analyze_sentiment_single.
  rewrite Hscore. unfold dict_has, dict_get in *.
  by destruct (t !! "sentiment_score").
Qed.

(** The track that [fetch_lyrics_single] returns after a search. *)
Definition searched (t : Track) (title artist : value) : Track :=
  match search_song title artist with
  | Returned (Some song) =>
      if truthy (VStr (LyricsFetch.song_lyrics song)) then
        <["genius_url" := default VNone (LyricsFetch.song_url song)]>
          (<["lyrics_source" := VStr "genius"]>
             (<["lyrics" :=
                  VStr match str_before "Embed" (str_strip (LyricsFetch.song_lyrics song)) with
                       | Some head => str_strip head
                       | None => str_strip (LyricsFetch.song_lyrics song)
                       end]> t))
      else LyricsFetch.no_lyrics t
  | Returned None => LyricsFetch.no_lyrics t
  | Raised _ => LyricsFetch.no_lyrics t
  end.

Lemma fetch_lyrics_single_unfold (t : Track) :
  fetch_lyrics_single t =
    (artist ← (if truthy (dict_get_default t "artists" (VList []))
               then subscript0 (dict_get_default t "artists" (VList []))
               else Returned (VStr ""));
     if dict_has t "lyrics" && truthy (dict_get t "lyrics") then Returned (t, [])
     else Returned (searched t (dict_get_default t "title" (VStr "")) artist,
                    [(dict_get_default t "title" (VStr ""), artist)])).
Proof. reflexivity. Qed.

Lemma searched_other (t : Track) (title artist : value) (k : string) :
  k ≠ "lyrics" -> k ≠ "lyrics_source" -> k ≠ "genius_url" ->
  searched t title artist !! k = t !! k.
Proof.
  intros ? ? ?. unfold searched, LyricsFetch.no_lyrics.
  destruct (search_song _ _) as [[song|]|e]; [|by rewrite !lookup_insert_ne..].
  destruct (truthy _); by rewrite !lookup_insert_ne.
Qed.

Lemma searched_twice (t : Track) (title artist : value) :
  searched (searched t title artist) title artist = searched t title artist.
Proof.
  unfold searched, LyricsFetch.no_lyrics.
  destruct (search_song _ _) as [[song|]|e]; [|same_inserts..].
  destruct (truthy _); same_inserts.
Qed.

(** A second call of [fetch_lyrics_single], answered by Genius as the
    first one was, returns the track of the first call. *)
Lemma fetch_lyrics_single_twice (t : Track) (r : Track * list (value * value)) :
  fetch_lyrics_single t = Returned r ->
  exists searches, fetch_lyrics_single r.1 = Returned (r.1, searches).
Proof.
  rewrite fetch_lyrics_single_unfold.
  destruct (if truthy _ then _ else _) as [artist|e] eqn:Hartist;
    cbn [mbind outcome_bind]; [|done].
  destruct (dict_has t "lyrics" && truthy (dict_get t "lyrics")) eqn:Hskip.
  { intros [= <-]. cbn [fst]. exists []. rewrite fetch_lyrics_single_unfold.
    rewrite Hartist. cbn [mbind outcome_bind]. by rewrite Hskip. }
  intros [= <-]. cbn [fst]. rewrite fetch_lyrics_single_unfold.
  unfold dict_get_default. rewrite !searched_other by done.
  fold (dict_get_default t "artists" (VList [])). rewrite Hartist.
  cbn [mbind outcome_bind]. fold (dict_get_default t "title" (VStr "")).
  destruct (dict_has (searched _ _ _) "lyrics" && _); [eexists; reflexivity|].
  rewrite searched_twice. eexists; reflexivity.
Qed.

Lemma no_sentiment_twice (t : Track) :
  SentimentAnalysis.no_sentiment (SentimentAnalysis.no_sentiment t)
  = SentimentAnalysis.no_sentiment t.
Proof. unfold SentimentAnalysis.no_sentiment. same_inserts. Qed.

Lemma analyze_sentiment_single_unfold (t : Track) :
  analyze_sentiment_single t =
    if dict_has t "sentiment_score" && is_not_none (dict_get t "sentiment_score") then t
    else if negb (truthy (dict_get_default t "lyrics" (VStr ""))) then
      SentimentAnalysis.no_sentiment t
    else match analyze_sentiment (dict_get_default t "lyrics" (VStr "")) with
         | Returned sentiment_result => sentiment_result ∪ t
         | Raised _ => SentimentAnalysis.no_sentiment t
         end.
Proof. reflexivity. Qed.

(** A second call of [analyze_sentiment_single], answered by the model
    as the first one was, returns the track of the first call. *)
Lemma analyze_sentiment_single_twice (t : Track) :
  analyze_sentiment_single (analyze_sentiment_single t) = analyze_sentiment_single t.
Proof.
  assert (forall t0 : Track,
            dict_get (SentimentAnalysis.no_sentiment t0) "sentiment_score" = VNone /\
            dict_get_default (SentimentAnalysis.no_sentiment t0) "lyrics" (VStr "")
            = dict_get_default t0 "lyrics" (VStr "")) as Hnone.
  { intros t0. unfold SentimentAnalysis.no_sentiment, dict_get, dict_get_default.
    rewrite !lookup_insert. by repeat case_decide. }
  rewrite (analyze_sentiment_single_unfold t).
  destruct (dict_has t "sentiment_score" && _) eqn:Hskip.
  { rewrite analyze_sentiment_single_unfold. by rewrite Hskip. }
  destruct (negb (truthy (dict_get_default t "lyrics" (VStr "")))) eqn:Hlyrics.
  { rewrite analyze_sentiment_single_unfold.
    destruct (Hnone t) as [-> ->]. rewrite andb_false_r, Hlyrics.
    apply no_sentiment_twice. }
  destruct (analyze_sentiment _) as [res|e] eqn:Hres.
  - destruct (analyze_sentiment_keys _ _ _ _ _ Hres) as (score & chunks & ss & ->).
    assert (dict_get (SentimentAnalysis.sentiment_result score chunks ss ∪ t)
              "sentiment_score" = score) as Hscore.
    { unfold dict_get. erewrite lookup_union_Some_l; [done|].
      unfold SentimentAnalysis.sentiment_result.
      rewrite !lookup_insert. by repeat case_decide. }
    destruct (is_not_none score) eqn:Hset.
    + apply analyze_sentiment_single_skips. by rewrite Hscore.
    + rewrite analyze_sentiment_single_unfold.
      rewrite Hscore, Hset, andb_false_r.
      assert (dict_get_default (SentimentAnalysis.sentiment_result score chunks ss ∪ t)
                "lyrics" (VStr "") = dict_get_default t "lyrics" (VStr "")) as ->.
      { unfold dict_get_default. rewrite lookup_union_r; [done|].
        unfold SentimentAnalysis.sentiment_result. by rewrite !lookup_insert_ne. }
      rewrite Hlyrics, Hres. by rewrite (assoc_L (∪)), (idemp_L (∪)).
  - rewrite analyze_sentiment_single_unfold.
    destruct (Hnone t) as [-> ->]. rewrite andb_false_r, Hlyrics, Hres.
    apply no_sentiment_twice.
Qed.

(** C10. [fetch_lyrics_single] returns a track whose lyrics are
    non-empty unchanged and sends no search; [analyze_sentiment_single]
    returns a track whose sentiment score is set unchanged; and
    enriching a track a second time, the collaborators answering as
    they did the first time, yields the track that enriching it once
    yields. *)
Theorem enrichment_idempotent (t : Track) :
  (artists_ok t -> truthy (dict_get t "lyrics") = true ->
   fetch_lyrics_single t = Returned (t, [])) /\
  (is_not_none (dict_get t "sentiment_score") = true ->
   analyze_sentiment_single t = t) /\
  (forall r, fetch_lyrics_single t = Returned r ->
             exists searches, fetch_lyrics_single r.1 = Returned (r.1, searches)) /\
  analyze_sentiment_single (analyze_sentiment_single t) = analyze_sentiment_single t.
Proof.
  split; [|split; [|split]].
  - apply fetch_lyrics_single_skips.
  - apply analyze_sentiment_single_skips.
  - apply fetch_lyrics_single_twice.
  - apply analyze_sentiment_single_twice.
Qed.

End enrichment_properties.

Lemma enrichment_idempotent_witness :
  LyricsFetch.fetch_lyrics_single one_song track_c = Returned (track_c, []) /\
  SentimentAnalysis.analyze_sentiment_single keep_text one_stanza rather_positive track_c
  = track_c.
Proof.
  destruct (enrichment_idempotent one_song keep_text one_stanza rather_positive track_c)
    as (Hlyrics & Hsentiment & _).
  split.
  - apply Hlyrics; [vm_compute; exact I | vm_compute; reflexivity].
  - apply Hsentiment. vm_compute. reflexivity.
Defined.

(** * Further properties of the backend *)

From stdpp Require Import pretty.

(** ** backend/sentiment_analysis.py: the range of the scores *)

Section sentiment_range.

Variable preprocess_lyrics_for_sentiment : string -> string.
Variable split_into_stanzas : string -> list string.
Variable sentiment_classifier : string -> outcome (string * R).

(** The model answers with a confidence between 0 and 1. *)
Definition confidence_ok : Prop :=
  forall text label score,
    sentiment_classifier text = Returned (label, score) -> (0 <= score <= 1)%R.

Definition unit_interval (x : R) : Prop := (0 <= x <= 1)%R.

(** The labels that the mapping takes for negative and for neutral. *)
Definition negative_label (label : string) : bool :=
  str_contains "negative" (str_lower label) || String.eqb (str_lower label) "label_0".

Definition neutral_label (label : string) : bool :=
  str_contains "neutral" (str_lower label) || String.eqb (str_lower label) "label_1".

Lemma py_sum_from (a : R) (xs : list R) : foldl Rplus a xs = (a + SentimentAnalysis.py_sum xs)%R.
Proof.
  unfold SentimentAnalysis.py_sum. revert a.
  induction xs as [|x xs IH]; intros a; simpl; [lra|].
  rewrite (IH (a + x)%R), (IH (0 + x)%R). lra.
Qed.

Lemma py_sum_cons (x : R) (xs : list R) :
  SentimentAnalysis.py_sum (x :: xs) = (x + SentimentAnalysis.py_sum xs)%R.
Proof.
  unfold SentimentAnalysis.py_sum at 1. simpl. rewrite py_sum_from. lra.
Qed.

Lemma py_sum_bounds (xs : list R) :
  Forall unit_interval xs -> (0 <= SentimentAnalysis.py_sum xs <= INR (length xs))%R.
Proof.
  induction 1 as [|x xs [Hx0 Hx1] _ IH].
  - unfold SentimentAnalysis.py_sum. simpl. lra.
  - rewrite py_sum_cons. change (length (x :: xs)) with (S (length xs)).
    rewrite S_INR. lra.
Qed.

(** The mean of numbers of the unit interval is in the unit
    interval. *)
Lemma mean_unit_interval (xs : list R) :
  xs ≠ [] -> Forall unit_interval xs ->
  unit_interval (SentimentAnalysis.py_sum xs / INR (length xs)).
Proof.
  intros Hne Hall. pose proof (py_sum_bounds xs Hall) as [H0 H1].
  assert (0 < INR (length xs))%R as Hlen.
  { apply lt_0_INR. destruct xs; [done | simpl; lia]. }
  split.
  - apply Rmult_le_pos; [done|]. left. by apply Rinv_0_lt_compat.
  - apply (Rmult_le_reg_r (INR (length xs))); [done|].
    unfold Rdiv. rewrite Rmult_assoc, Rinv_l; lra.
Qed.

(** X1. The mapping of a label and a confidence to a valence: with a
    confidence between 0 and 1 the valence is between 0 and 1; it is
    the half of the complement of the confidence for a negative label,
    so at most 0.5, exactly 0.5 for a neutral label, and at least 0.5
    for any other label; a label that reads as negative counts as
    negative even when it also reads as neutral. *)
Theorem valence_range (label : string) (score : R) :
  (0 <= score <= 1)%R ->
  (0 <= SentimentAnalysis.valence label score <= 1)%R /\
  (negative_label label = true ->
     SentimentAnalysis.valence label score = ((1 - score) * 0.5)%R /\
     (SentimentAnalysis.valence label score <= 0.5)%R) /\
  (negative_label label = false -> neutral_label label = true ->
     SentimentAnalysis.valence label score = 0.5%R) /\
  (negative_label label = false -> neutral_label label = false ->
     SentimentAnalysis.valence label score = (0.5 + score * 0.5)%R /\
     (0.5 <= SentimentAnalysis.valence label score)%R).
Proof.
  intros Hscore. unfold SentimentAnalysis.valence, negative_label, neutral_label.
  destruct (str_contains "negative" _ || _); [|destruct (str_contains "neutral" _ || _)].
  all: repeat split; intros; try done; lra.
Qed.

Lemma score_stanza_range (stanza : string) (v : R) :
  confidence_ok ->
  SentimentAnalysis.score_stanza sentiment_classifier stanza = Some v -> unit_interval v.
Proof.
  intros Hok. unfold SentimentAnalysis.score_stanza.
  destruct (sentiment_classifier _) as [[label score]|e] eqn:Hc; [|done].
  intros [= <-]. pose proof (Hok _ _ _ Hc). unfold unit_interval, SentimentAnalysis.valence.
  repeat case_match; lra.
Qed.

Lemma stanza_scores_range (stanzas : list string) :
  confidence_ok ->
  Forall unit_interval (omap (SentimentAnalysis.score_stanza sentiment_classifier) stanzas) /\
  length (omap (SentimentAnalysis.score_stanza sentiment_classifier) stanzas)
  <= length stanzas.
Proof.
  intros Hok. induction stanzas as [|stanza stanzas [IH1 IH2]]; [by split|]. csimpl.
  destruct (SentimentAnalysis.score_stanza _ stanza) as [v|] eqn:Hv; csimpl.
  - split; [|lia]. constructor; [|done]. by eapply score_stanza_range.
  - split; [done | lia].
Qed.

(** What [analyze_sentiment] reports about some lyrics. *)
Definition sound_report (r : gmap string value) : Prop :=
  exists (score : value) (chunks : nat) (stanza_scores : list R),
    r = SentimentAnalysis.sentiment_result score chunks stanza_scores /\
    length stanza_scores <= chunks /\
    Forall unit_interval stanza_scores /\
    match stanza_scores with
    | [] => score = VNone
    | _ :: _ =>
        exists s, score = VNum s /\ unit_interval s /\
                  (s * INR (length stanza_scores))%R = SentimentAnalysis.py_sum stanza_scores
    end.

(** X2. The report of [analyze_sentiment]: whenever the model answers
    with confidences between 0 and 1, the call returns (it raises only
    on lyrics that are no string), every stanza score is between 0 and
    1, there are no more stanza scores than chunks, and the sentiment
    score is [None] when no stanza was scored and the mean of the stanza
    scores, itself between 0 and 1, otherwise. *)
Theorem analyze_sentiment_range (lyrics : value) :
  confidence_ok ->
  match SentimentAnalysis.analyze_sentiment preprocess_lyrics_for_sentiment
          split_into_stanzas sentiment_classifier lyrics with
  | Returned r => sound_report r
  | Raised _ => truthy lyrics = true /\ forall s, lyrics ≠ VStr s
  end.
Proof.
  intros Hok. unfold SentimentAnalysis.analyze_sentiment.
  assert (sound_report (SentimentAnalysis.sentiment_result VNone 0 [])) as Hnone.
  { exists VNone, 0, []. by repeat split. }
  destruct (truthy lyrics) eqn:Hl; cbn [negb]; [|done].
  destruct lyrics as [|x|s|l]; try done.
  destruct (negb (truthy (VStr (str_strip s)))); [done|].
  destruct (negb (truthy (VStr (preprocess_lyrics_for_sentiment s)))); [done|].
  destruct (split_into_stanzas _) as [|stanza stanzas] eqn:Hst; [done|].
  destruct (stanza_scores_range (stanza :: stanzas) Hok) as [Hall Hlen].
  destruct (omap _ (stanza :: stanzas)) as [|v vs] eqn:Hscores.
  - exists VNone, (length (stanza :: stanzas)), []. repeat split; [simpl; lia | done].
  - exists (VNum (SentimentAnalysis.py_sum (v :: vs) / INR (length (v :: vs)))),
      (length (stanza :: stanzas)), (v :: vs).
    repeat split; try done. eexists. split; [done|].
    split; [by apply mean_unit_interval|].
    unfold Rdiv. rewrite Rmult_assoc, Rinv_l; [lra|].
    apply not_0_INR. simpl. lia.
Qed.

End sentiment_range.

Lemma valence_range_witness :
  (0 <= SentimentAnalysis.valence "NEGATIVE" 0.8 <= 1)%R /\
  SentimentAnalysis.valence "NEGATIVE" 0.8 = ((1 - 0.8) * 0.5)%R.
Proof.
  destruct (valence_range "NEGATIVE" 0.8%R) as (Hrange & Hneg & _); [lra|].
  split; [exact Hrange|]. apply Hneg. vm_compute. reflexivity.
Defined.

Lemma analyze_sentiment_range_witness :
  match SentimentAnalysis.analyze_sentiment keep_text one_stanza rather_positive
          (VStr "la la la") with
  | Returned r => sound_report r
  | Raised _ => False
  end.
Proof.
  apply (analyze_sentiment_range keep_text one_stanza rather_positive (VStr "la la la")).
  intros text label score [= <- <-]. lra.
Defined.

(** ** The pools: the progress they report and the way they fail *)

(** The calls [(c+1, total, stage)], ..., [(c+k, total, stage)]. *)
Definition progress_log (stage : string) (total c k : nat) : list Pool.progress_call :=
  (fun j => (c + j, total, stage)) <$> seq 1 k.

(** The futures that hold a result. *)
Definition count_returned {A} (futs : list (outcome A)) : nat :=
  length (List.filter (fun fut => match fut with
                                  | Returned _ => true
                                  | Raised _ => false
                                  end) futs).

Lemma progress_log_cons (stage : string) (total c k : nat) :
  progress_log stage total c (S k) = (S c, total, stage) :: progress_log stage total (S c) k.
Proof.
  unfold progress_log. cbn [seq fmap list_fmap]. f_equal.
  - do 2 f_equal. lia.
  - rewrite <- fmap_S_seq, <- list_fmap_compose. apply list_fmap_ext.
    intros _ j _. simpl. do 2 f_equal. lia.
Qed.

Lemma count_returned_all {A} (futs : list (outcome A)) :
  Forall is_returned futs -> count_returned futs = length futs.
Proof.
  unfold count_returned. induction 1 as [|fut futs [a ->] _ IH]; [done|].
  simpl. by rewrite IH.
Qed.

Lemma count_returned_bound {A} (futs : list (outcome A)) :
  Exists (fun fut => ~ is_returned fut) futs -> count_returned futs < length futs.
Proof.
  assert (forall l : list (outcome A), count_returned l <= length l) as Hle.
  { unfold count_returned. induction l as [|[a|e] l IH]; simpl; lia. }
  unfold count_returned in *. induction 1 as [[a|e] futs Hx|[a|e] futs _ IH]; simpl.
  - destruct Hx. by eexists.
  - specialize (Hle futs). lia.
  - lia.
  - lia.
Qed.

Lemma as_completed_total {A} (d : A) (order : list nat) (futs : list A) :
  Forall (fun i => i < length futs) order ->
  Pool.as_completed order futs = (fun i => default d (futs !! i)) <$> order.
Proof.
  unfold Pool.as_completed. induction 1 as [|i order Hi _ IH]; [done|]. csimpl.
  destruct (lookup_lt_is_Some_2 futs i Hi) as [fut Hfut]. rewrite Hfut. simpl.
  by rewrite IH.
Qed.

Lemma permutation_bound (order : list nat) (n : nat) :
  order ≡ₚ seq 0 n -> Forall (fun i => i < n) order.
Proof.
  intros Hp. rewrite Hp. apply Forall_forall. intros i Hi%elem_of_seq. lia.
Qed.

Lemma as_completed_length {A} (order : list nat) (futs : list A) :
  order ≡ₚ seq 0 (length futs) -> length (Pool.as_completed order futs) = length futs.
Proof.
  intros Hp. destruct futs as [|d futs0] eqn:Hfuts.
  - apply Permutation_nil_r in Hp. by subst.
  - rewrite <- Hfuts in *. rewrite (as_completed_total d) by by apply permutation_bound.
    by rewrite length_fmap, Hp, length_seq.
Qed.

(** A future taken at a position of a permutation is met by the
    collecting loop. *)
Lemma as_completed_elem {A} (order : list nat) (futs : list A) (i : nat) (fut : A) :
  order ≡ₚ seq 0 (length futs) -> futs !! i = Some fut ->
  fut ∈ Pool.as_completed order futs.
Proof.
  intros Hp Hi. unfold Pool.as_completed. apply list_elem_of_omap.
  exists i. split; [|done]. rewrite Hp. apply elem_of_seq.
  apply lookup_lt_Some in Hi. lia.
Qed.

(** The results that the collecting loop has stored when every future
    returns its own position. *)
Lemma fill_fmap_lookup (g : nat -> Track) (order : list nat) (m : gmap nat Track) (i : nat) :
  fill ((fun j => Returned (j, g j)) <$> order) m !! i
  = if decide (i ∈ order) then Some (g i) else m !! i.
Proof.
  revert m. induction order as [|j order IH]; intros m.
  - rewrite decide_False; [done | apply not_elem_of_nil].
  - cbn [fmap list_fmap].
    change (fill (Returned (j, g j) :: ?l) m) with (fill l (<[j := g j]> m)).
    rewrite IH. destruct (decide (i = j)) as [->|Hne].
    + rewrite (decide_True (P := j ∈ j :: order)); [|set_solver].
      case_decide; [done|]. by rewrite lookup_insert_eq.
    + rewrite lookup_insert_ne by done.
      case_decide as H1; case_decide as H2; try done.
      * destruct H2. apply elem_of_cons. by right.
      * apply elem_of_cons in H2 as [?|?]; done.
Qed.

Lemma artists_ok_dec (t : Track) : {artists_ok t} + {~ artists_ok t}.
Proof.
  unfold artists_ok. destruct (t !! "artists") as [[|r|s|l]|]; try (left; exact I).
  apply Req_dec_T.
Defined.

#[local] Instance artists_ok_decision (t : Track) : Decision (artists_ok t) :=
  artists_ok_dec t.

(** A position whose future raised stays out of [results_dict]. *)
Lemma fill_raised_lookup (futs : list (outcome (nat * Track))) (order : list nat)
    (m : gmap nat Track) (i : nat) :
  (forall j k u, futs !! j = Some (Returned (k, u)) -> k = j) ->
  (forall fut, futs !! i = Some fut -> ~ is_returned fut) ->
  m !! i = None ->
  fill (Pool.as_completed order futs) m !! i = None.
Proof.
  intros Hown Hraised. revert m. induction order as [|j order IH]; intros m Hm; [done|].
  change (Pool.as_completed (j :: order) futs)
    with (match futs !! j with
          | Some fut => fut :: Pool.as_completed order futs
          | None => Pool.as_completed order futs
          end).
  destruct (futs !! j) as [[[k u]|e]|] eqn:Hj; [| by apply IH..].
  change (fill (Returned (k, u) :: ?l) m) with (fill l (<[k := u]> m)).
  apply IH. rewrite (Hown _ _ _ Hj). rewrite lookup_insert_ne; [done|].
  intros ->. apply (Hraised _ Hj). by eexists.
Qed.

Lemma gather_missing (m : gmap nat Track) (n i : nat) :
  i < n -> m !! i = None -> Pool.gather m n = Raised "KeyError".
Proof.
  intros Hi Hm. unfold Pool.gather.
  destruct (mapM _ _) as [l|] eqn:Hl; [|done].
  apply mapM_Some in Hl.
  destruct (Forall2_lookup_l _ _ _ i i Hl) as (y & _ & Hy).
  - by apply lookup_seq_lt.
  - by rewrite Hm in Hy.
Qed.

Section pool_progress.

Variable search_preview_url : value -> value -> outcome value.
Variable download_and_beat_track : value -> outcome R.
Variable spotify_credentials : option (string * string).
Variable search_song : value -> value -> outcome (option LyricsFetch.Song).
Variable preprocess_lyrics_for_sentiment : string -> string.
Variable split_into_stanzas : string -> list string.
Variable sentiment_classifier : string -> outcome (string * R).

Local Abbreviation analyze_track_with_index i t :=
  (AudioFeatures.analyze_track_with_index search_preview_url
     download_and_beat_track i t spotify_credentials).
Local Abbreviation add_audio_features_to_tracks order tracks :=
  (AudioFeatures.add_audio_features_to_tracks search_preview_url
     download_and_beat_track order tracks spotify_credentials).
Local Abbreviation fetch_with_index := (LyricsFetch.fetch_with_index search_song).
Local Abbreviation fetch_lyrics_for_tracks :=
  (LyricsFetch.fetch_lyrics_for_tracks search_song).
Local Abbreviation analyze_sentiment_single :=
  (SentimentAnalysis.analyze_sentiment_single preprocess_lyrics_for_sentiment
     split_into_stanzas sentiment_classifier).
Local Abbreviation analyze_with_index :=
  (SentimentAnalysis.analyze_with_index preprocess_lyrics_for_sentiment
     split_into_stanzas sentiment_classifier).
Local Abbreviation add_sentiment_to_tracks :=
  (SentimentAnalysis.add_sentiment_to_tracks preprocess_lyrics_for_sentiment
     split_into_stanzas sentiment_classifier).

(** The collecting loop of the tempo pool counts the futures that
    returned and reports each one. *)
Lemma audio_collect_calls (total : nat) (futs : list (outcome (nat * Track)))
    (m : gmap nat Track) (c : nat) (calls : list Pool.progress_call) :
  foldl (AudioFeatures.collect_step total) (m, c, calls) futs
  = (fill futs m, c + count_returned futs,
     calls ++ progress_log "audio_features" total c (count_returned futs)).
Proof.
  revert m c calls. induction futs as [|[[i u]|e] futs IH]; intros m c calls.
  - simpl. by rewrite Nat.add_0_r, app_nil_r.
  - cbn [foldl AudioFeatures.collect_step]. rewrite IH.
    change (count_returned (Returned (i, u) :: futs)) with (S (count_returned futs)).
    rewrite progress_log_cons, <- app_assoc. f_equal. f_equal. lia.
  - cbn [foldl AudioFeatures.collect_step]. by rewrite IH.
Qed.

Lemma lyrics_collect_calls (total : nat) (futs : list (outcome (nat * Track)))
    (m : gmap nat Track) (c : nat) (calls : list Pool.progress_call) :
  Forall is_returned futs ->
  foldl (LyricsFetch.collect_step total) (Returned (m, c, calls)) futs
  = Returned (fill futs m, c + length futs,
              calls ++ progress_log "lyrics" total c (length futs)).
Proof.
  intros Hall. revert m c calls.
  induction Hall as [|fut futs [[i u] ->] _ IH]; intros m c calls.
  - simpl. by rewrite Nat.add_0_r, app_nil_r.
  - cbn [foldl LyricsFetch.collect_step mbind outcome_bind]. rewrite IH.
    cbn [length]. rewrite progress_log_cons, <- app_assoc. do 3 f_equal. lia.
Qed.

(** The collecting loop of the sentiment pool hands each result to the
    callback, with the count of the results met so far. *)
Lemma sentiment_collect_calls (total : nat) (results : list (nat * Track))
    (m : gmap nat Track) (c : nat) (calls : list (Pool.progress_call * Track)) :
  foldl (SentimentAnalysis.collect_step total) (Returned (m, c, calls)) (Returned <$> results)
  = Returned (fill (Returned <$> results) m, c + length results,
              calls ++ imap (fun k r => ((c + S k, total, "sentiment"), r.2)) results).
Proof.
  revert m c calls. induction results as [|[i u] results IH]; intros m c calls.
  - simpl. by rewrite Nat.add_0_r, app_nil_r.
  - cbn [fmap list_fmap foldl SentimentAnalysis.collect_step mbind outcome_bind].
    rewrite IH. cbn [length imap]. rewrite <- app_assoc. f_equal. f_equal; [f_equal; lia|].
    f_equal. cbn [app snd]. f_equal.
    + do 3 f_equal. lia.
    + apply imap_ext. intros k r _. simpl. do 3 f_equal. lia.
Qed.

(** The collecting loop of the lyrics pool stops at the first future
    that raised. *)
Lemma lyrics_collect_raised (total : nat) (e : string)
    (futs : list (outcome (nat * Track))) (st : LyricsFetch.collect_state) :
  Forall (fun fut => is_returned fut \/ fut = Raised e) futs ->
  Raised e ∈ futs ->
  foldl (LyricsFetch.collect_step total) (Returned st) futs = Raised e.
Proof.
  assert (forall l : list (outcome (nat * Track)),
            foldl (LyricsFetch.collect_step total) (Raised e) l = Raised e) as Hraised.
  { induction l as [|fut l IH]; [done|]. simpl. apply IH. }
  intros Hall. revert st.
  induction Hall as [|fut futs Hfut _ IH]; intros [[m c] calls] Hin.
  - by apply elem_of_nil in Hin.
  - destruct Hfut as [[[i u] ->]| ->].
    + cbn [foldl LyricsFetch.collect_step mbind outcome_bind]. apply IH.
      apply elem_of_cons in Hin as [?|?]; done.
    + cbn [foldl LyricsFetch.collect_step mbind outcome_bind]. apply Hraised.
Qed.

Lemma audio_pool_calls (order : list nat) (tracks : list Track) :
  order ≡ₚ seq 0 (length tracks) ->
  Forall artists_ok tracks ->
  (add_audio_features_to_tracks order tracks).2
  = (fun k => (k, length tracks, "audio_features")) <$> seq 1 (length tracks).
Proof.
  intros Hp Hok.
  unfold AudioFeatures.add_audio_features_to_tracks.
  destruct tracks as [|t0 tracks0] eqn:Htr; [done|]. rewrite <- Htr in *. clear Htr.
  set (futs := imap _ tracks).
  assert (length futs = length tracks) as Hlen by apply length_imap.
  rewrite audio_collect_calls. cbn [snd app]. rewrite count_returned_all.
  + rewrite as_completed_length by by rewrite Hlen. by rewrite Hlen.
  + apply as_completed_Forall, Forall_lookup. intros j fut. unfold futs.
    rewrite list_lookup_imap. destruct (tracks !! j) as [t|] eqn:Hj; [|done].
    simpl. intros [= <-].
    destruct (analyze_track_shape search_preview_url download_and_beat_track
                spotify_credentials j t) as (tempo & err & -> & _); [|by eexists].
    by eapply Forall_lookup_1.
Qed.

Lemma lyrics_pool_calls (order : list nat) (tracks : list Track) :
  order ≡ₚ seq 0 (length tracks) ->
  Forall artists_ok tracks ->
  exists res,
    fetch_lyrics_for_tracks order tracks
    = Returned (res, (fun k => (k, length tracks, "lyrics")) <$> seq 1 (length tracks)).
Proof.
  intros Hp Hok.
  unfold LyricsFetch.fetch_lyrics_for_tracks. cbv zeta.
  set (futs := imap _ tracks).
  assert (length futs = length tracks) as Hlen by apply length_imap.
  assert (forall j fut, futs !! j = Some fut ->
            fut = Returned (j, fetched search_song (default ∅ (tracks !! j)))) as Hfuts.
  { intros j fut. unfold futs. rewrite list_lookup_imap.
    destruct (tracks !! j) as [t|] eqn:Hj; [|done]. simpl. intros [= <-].
    apply fetch_with_index_fetched. by eapply Forall_lookup_1. }
  rewrite lyrics_collect_calls.
  + cbn [mbind outcome_bind].
    rewrite (gather_all (fun i => fetched search_song (default ∅ (tracks !! i)))).
    * cbn [mbind outcome_bind]. eexists. do 2 f_equal.
      rewrite as_completed_length by by rewrite Hlen. by rewrite Hlen.
    * intros i Hi.
      apply (fill_permutation (fun i => fetched search_song (default ∅ (tracks !! i))));
        rewrite ?Hlen; done.
  + apply as_completed_Forall, Forall_lookup. intros j fut Hj.
    rewrite (Hfuts j fut Hj). by eexists.
Qed.

Lemma sentiment_pool_calls (order : list nat) (tracks : list Track) :
  order ≡ₚ seq 0 (length tracks) ->
  exists res,
    add_sentiment_to_tracks order tracks
    = Returned (res, imap (fun k i => ((S k, length tracks, "sentiment"),
                                       default ∅ (res !! i))) order) /\
    res = analyze_sentiment_single <$> tracks.
Proof.
  intros Hp.
  exists (analyze_sentiment_single <$> tracks). split; [|done].
  unfold SentimentAnalysis.add_sentiment_to_tracks. cbv zeta.
  set (futs := imap _ tracks).
  assert (length futs = length tracks) as Hlen by apply length_imap.
  assert (forall j, futs !! j
            = (fun t => Returned (j, analyze_sentiment_single t)) <$> tracks !! j)
    as Hfuts.
  { intros j. unfold futs. by rewrite list_lookup_imap. }
  rewrite (as_completed_total (Returned (0, ∅)))
    by (rewrite Hlen; by apply permutation_bound).
  assert ((fun i => default (Returned (0, ∅)) (futs !! i)) <$> order
          = Returned <$> ((fun i => (i, analyze_sentiment_single (default ∅ (tracks !! i))))
                            <$> order)) as ->.
  { rewrite <- list_fmap_compose. apply list_fmap_ext. intros k i Hi. simpl.
    rewrite Hfuts.
    apply list_elem_of_lookup_2 in Hi. rewrite Hp in Hi. apply elem_of_seq in Hi.
    destruct (lookup_lt_is_Some_2 tracks i) as [t Ht]; [lia|]. by rewrite Ht. }
  rewrite sentiment_collect_calls. cbn [mbind outcome_bind].
  rewrite (gather_all (fun i => analyze_sentiment_single (default ∅ (tracks !! i)))).
  + cbn [mbind outcome_bind]. rewrite fmap_seq_lookup. do 2 f_equal. cbn [app].
    rewrite imap_fmap. apply imap_ext. intros k i Hi. simpl.
    apply list_elem_of_lookup_2 in Hi. rewrite Hp in Hi. apply elem_of_seq in Hi.
    destruct (lookup_lt_is_Some_2 tracks i) as [t Ht]; [lia|].
    by rewrite list_lookup_fmap, Ht.
  + intros i Hi. rewrite <- list_fmap_compose.
    etrans; [exact (fill_fmap_lookup
                      (fun i => analyze_sentiment_single (default ∅ (tracks !! i)))
                      order ∅ i)|].
    rewrite decide_True; [done|]. rewrite Hp. apply elem_of_seq. lia.
Qed.

(** X3. The progress that the pools report: whatever the completion
    order, the callback of a pool over [n] tracks is called [n] times,
    with the counts 1, 2, ..., [n], the total [n] and the stage of the
    pool; the [k]-th call of the sentiment pool also carries the track
    that completed [k]-th, as it stands in the result. *)
Theorem pool_progress_counts (order : list nat) (tracks : list Track) :
  order ≡ₚ seq 0 (length tracks) ->
  Forall artists_ok tracks ->
  let n := length tracks in
  (add_audio_features_to_tracks order tracks).2
  = (fun k => (k, n, "audio_features")) <$> seq 1 n /\
  (exists res,
      fetch_lyrics_for_tracks order tracks
      = Returned (res, (fun k => (k, n, "lyrics")) <$> seq 1 n)) /\
  (exists res,
      add_sentiment_to_tracks order tracks
      = Returned (res, imap (fun k i => ((S k, n, "sentiment"), default ∅ (res !! i))) order) /\
      res = analyze_sentiment_single <$> tracks).
Proof.
  intros Hp Hok. cbv zeta. split; [|split].
  - by apply audio_pool_calls.
  - by apply lyrics_pool_calls.
  - by apply sentiment_pool_calls.
Qed.

(** *** A track that the transforms cannot read *)

Lemma ill_typed_artists (t : Track) (dflt : value) :
  ~ artists_ok t ->
  (if truthy (dict_get_default t "artists" (VList []))
   then subscript0 (dict_get_default t "artists" (VList []))
   else Returned dflt) = Raised "TypeError".
Proof.
  unfold artists_ok, dict_get_default.
  destruct (t !! "artists") as [[|r|s|l]|]; try (intros []; done).
  intros Hr. simpl. by destruct (Req_dec_T r 0).
Qed.

Lemma analyze_track_raises (i : nat) (t : Track) :
  ~ artists_ok t -> analyze_track_with_index i t = Raised "TypeError".
Proof.
  intros Hill. unfold AudioFeatures.analyze_track_with_index.
  by rewrite (ill_typed_artists t (VStr "Unknown") Hill).
Qed.

Lemma fetch_with_index_raises (i : nat) (t : Track) :
  ~ artists_ok t -> fetch_with_index i t = Raised "TypeError".
Proof.
  intros Hill. unfold LyricsFetch.fetch_with_index, LyricsFetch.fetch_lyrics_single.
  by rewrite (ill_typed_artists t (VStr "") Hill).
Qed.

(** X4. How the pools fail on a track whose [artists] is a number
    other than 0, on which [artists[0]] raises a [TypeError] in both
    transforms: the collecting loop of the tempo pool swallows the
    exception, reports fewer calls than there are tracks, and the pool
    raises [KeyError] when it rebuilds the list; the lyrics pool lets
    the [TypeError] through. *)
Theorem pools_fail_on_ill_typed_track (order : list nat) (tracks : list Track) :
  order ≡ₚ seq 0 (length tracks) ->
  ~ Forall artists_ok tracks ->
  ((add_audio_features_to_tracks order tracks).1 = Raised "KeyError") /\
  (length (add_audio_features_to_tracks order tracks).2 < length tracks) /\
  (fetch_lyrics_for_tracks order tracks = Raised "TypeError").
Proof.
  intros Hp Hill.
  apply (not_Forall_Exists _) in Hill. apply Exists_exists in Hill as (t & Ht & Hbad).
  apply list_elem_of_lookup in Ht as [i Hi]. simpl in Hbad.
  pose proof (lookup_lt_Some _ _ _ Hi) as Hlt.
  assert (forall (f : nat -> Track -> outcome (nat * Track)),
            length (imap f tracks) = length tracks) as Hlen by (intros; apply length_imap).
  split; [|split].
  - unfold AudioFeatures.add_audio_features_to_tracks.
    destruct tracks as [|t0 tracks0] eqn:Htr; [done|]. rewrite <- Htr in *. clear Htr.
    rewrite audio_collect_calls. cbn [fst].
    apply (gather_missing _ _ i); [done|].
    apply fill_raised_lookup; [| |done].
    + intros j k u. rewrite list_lookup_imap.
      destruct (tracks !! j) as [tj|]; [|done]. simpl.
      destruct (artists_ok_dec tj) as [Hok|Hnok].
      * destruct (analyze_track_shape search_preview_url download_and_beat_track
                    spotify_credentials j tj Hok) as (tempo & err & -> & _).
        by intros [= <- _].
      * by rewrite analyze_track_raises.
    + intros fut. rewrite list_lookup_imap, Hi. simpl.
      rewrite analyze_track_raises by done. by intros [= <-] [a Ha].
  - unfold AudioFeatures.add_audio_features_to_tracks.
    destruct tracks as [|t0 tracks0] eqn:Htr; [done|]. rewrite <- Htr in *. clear Htr.
    rewrite audio_collect_calls. cbn [snd app]. unfold progress_log.
    rewrite length_fmap, length_seq.
    rewrite <- (Hlen (fun i track => analyze_track_with_index i track)).
    rewrite <- (as_completed_length order) by by rewrite Hlen.
    apply count_returned_bound, Exists_exists. exists (Raised "TypeError").
    split; [|by intros [a Ha]].
    apply (as_completed_elem _ _ i); [by rewrite Hlen|].
    by rewrite list_lookup_imap, Hi, <- (analyze_track_raises i t).
  - unfold LyricsFetch.fetch_lyrics_for_tracks. cbv zeta.
    rewrite (lyrics_collect_raised _ "TypeError"); [done| |].
    + apply as_completed_Forall, Forall_lookup. intros j fut.
      rewrite list_lookup_imap. destruct (tracks !! j) as [tj|]; [|done]. simpl.
      intros [= <-]. destruct (artists_ok_dec tj) as [Hok|Hnok].
      * left. rewrite fetch_with_index_fetched by done. by eexists.
      * right. by apply fetch_with_index_raises.
    + apply (as_completed_elem _ _ i); [by rewrite Hlen|].
      by rewrite list_lookup_imap, Hi, <- (fetch_with_index_raises i t).
Qed.

End pool_progress.

(** A track that a client posted with a number for its artists. *)
Definition track_ill : Track := <["artists" := VNum 1]> track_b.

Lemma pool_progress_counts_witness :
  (AudioFeatures.add_audio_features_to_tracks no_preview tempo_120
     [1; 0] [track_a; track_b] None).2
  = [(1, 2, "audio_features"); (2, 2, "audio_features")].
Proof.
  destruct (pool_progress_counts no_preview tempo_120 None one_song keep_text
              one_stanza rather_positive [1; 0] [track_a; track_b]) as [Hcalls _].
  - apply perm_swap.
  - repeat constructor; vm_compute; exact I.
  - exact Hcalls.
Defined.

Lemma pools_fail_on_ill_typed_track_witness :
  (AudioFeatures.add_audio_features_to_tracks no_preview tempo_120
     [1; 0] [track_a; track_ill] None).1 = Raised "KeyError" /\
  LyricsFetch.fetch_lyrics_for_tracks one_song [1; 0] [track_a; track_ill]
  = Raised "TypeError".
Proof.
  destruct (pools_fail_on_ill_typed_track no_preview tempo_120 None one_song
              [1; 0] [track_a; track_ill]) as (Haudio & _ & Hlyrics).
  - apply perm_swap.
  - intros Hall. apply Forall_cons in Hall as [_ Hall].
    apply Forall_cons in Hall as [Hill _]. vm_compute in Hill. lra.
  - split; [exact Haudio | exact Hlyrics].
Defined.

(** ** backend/main.py: the sequential flow and its sentiment callback

    In [process_playlist_with_progress] the sentiment pool is given the
    callback [sentiment_progress], which looks in the list of the
    registry for the first track with the id of the track it is handed,
    replaces that slot by a copy of the track, and then updates the
    counters of the job. *)

Module SequentialFlow.

Import Main.

(** The loop of [sentiment_progress] over [tracks_list]: the first slot
    whose [track_id] equals [track_id] is replaced, and the loop
    breaks. *)
Fixpoint replace_first (track_id : value) (track : Track) (tracks_list : list Track)
    : list Track :=
  match tracks_list with
  | [] => []
  | t :: rest =>
      if decide (dict_get t "track_id" = track_id) then track :: rest
      else t :: replace_first track_id track rest
  end.

Definition sentiment_message (current total : nat) : string :=
  "Analyzing sentiment: " +:+ pretty current +:+ "/" +:+ pretty total.

(** [progress_store[job_id]['tracks']] raises [KeyError] on an entry
    without tracks; a track is truthy when it has a key. *)
Definition sentiment_progress (current total : nat) (stage : string)
    (track : option Track) (progress : Job) : outcome Job :=
  tracks ← match track with
           | Some track =>
               if bool_decide (track ≠ ∅) then
                 match job_tracks progress with
                 | Some tracks_list =>
                     Returned (Some (replace_first (dict_get track "track_id") track
                                       tracks_list))
                 | None => Raised "KeyError"
                 end
               else Returned (job_tracks progress)
           | None => Returned (job_tracks progress)
           end;
  Returned {| job_stage := Some "sentiment";
              job_current := Some (Z.of_nat current);
              job_total := Some (Z.of_nat total);
              job_message := Some (sentiment_message current total);
              job_tracks := tracks;
              job_playlist_name := job_playlist_name progress;
              job_output_file := job_output_file progress;
              job_error := job_error progress |}.

(** The entry of the job after the calls that the sentiment pool made
    to the callback, one after the other. *)
Definition after_sentiment_calls (calls : list (Pool.progress_call * Track))
    (progress : Job) : outcome Job :=
  foldl (fun st call =>
           progress ← st;
           let '((current, total, stage), track) := call in
           sentiment_progress current total stage (Some track) progress)
        (Returned progress) calls.

End SequentialFlow.

Section sentiment_callback.

Import Main SequentialFlow.

Variable preprocess_lyrics_for_sentiment : string -> string.
Variable split_into_stanzas : string -> list string.
Variable sentiment_classifier : string -> outcome (string * R).

Local Abbreviation analyze_sentiment_single :=
  (SentimentAnalysis.analyze_sentiment_single preprocess_lyrics_for_sentiment
     split_into_stanzas sentiment_classifier).
Local Abbreviation add_sentiment_to_tracks :=
  (SentimentAnalysis.add_sentiment_to_tracks preprocess_lyrics_for_sentiment
     split_into_stanzas sentiment_classifier).

Definition track_id_of (t : Track) : value := dict_get t "track_id".

(** The first position of a list at which an id occurs. *)
Definition first_with_id (tracks_list : list Track) (i : nat) : Prop :=
  exists t, tracks_list !! i = Some t /\
    forall j u, j < i -> tracks_list !! j = Some u -> track_id_of u ≠ track_id_of t.

Lemma replace_first_length (tid : value) (u : Track) (l : list Track) :
  length (replace_first tid u l) = length l.
Proof.
  induction l as [|t l IH]; [done|]. simpl. case_decide; simpl; [done | by rewrite IH].
Qed.

(** The loop leaves every slot as it is or writes the track at it, and
    it writes only at a slot that has the id looked for and that no slot
    with this id precedes. *)
Lemma replace_first_lookup (tid : value) (u : Track) (l : list Track) (i : nat) (t : Track) :
  l !! i = Some t ->
  replace_first tid u l !! i = Some t \/
  (replace_first tid u l !! i = Some u /\ track_id_of t = tid /\
   forall j t', j < i -> l !! j = Some t' -> track_id_of t' ≠ tid).
Proof.
  revert i. induction l as [|t0 l IH]; intros i Hi; [done|]. simpl.
  case_decide as Hid.
  - destruct i as [|i]; [|by left]. injection Hi as ->. right.
    split; [done|]. split; [done|]. intros j t' Hj. lia.
  - destruct i as [|i]; [by left|]. simpl in Hi.
    destruct (IH i Hi) as [Hsame|(Hnew & Ht & Hfirst)]; [by left|]. right.
    split; [done|]. split; [done|].
    intros [|j] t' Hj Ht'; [by injection Ht' as <-|].
    apply (Hfirst j); [lia | done].
Qed.

(** With the id at one slot only, the loop writes that slot. *)
Lemma replace_first_insert (tid : value) (u : Track) (l : list Track) (i : nat) (t : Track) :
  NoDup (track_id_of <$> l) -> l !! i = Some t -> track_id_of t = tid ->
  replace_first tid u l = <[i := u]> l.
Proof.
  revert i. induction l as [|t0 l IH]; intros i Hnd Hi Hid; [done|].
  rewrite fmap_cons in Hnd. apply NoDup_cons in Hnd as [Hfresh Hnd]. simpl.
  destruct i as [|i].
  - injection Hi as ->. by rewrite decide_True.
  - simpl in Hi. rewrite decide_False.
    + simpl. f_equal. by apply (IH i).
    + intros Heq. apply Hfresh. apply list_elem_of_fmap. exists t.
      split; [by rewrite Hid|]. by eapply list_elem_of_lookup_2.
Qed.

Lemma analyze_sentiment_single_id (t : Track) :
  track_id_of (analyze_sentiment_single t) = track_id_of t.
Proof.
  unfold track_id_of, dict_get.
  by rewrite (analyze_sentiment_single_other preprocess_lyrics_for_sentiment
                split_into_stanzas sentiment_classifier t "track_id").
Qed.

Lemma analyze_sentiment_single_truthy (t : Track) : analyze_sentiment_single t ≠ ∅.
Proof.
  intros Hempty.
  assert (is_Some (analyze_sentiment_single t !! "sentiment_score")) as [v Hv];
    [|by rewrite Hempty in Hv].
  unfold SentimentAnalysis.analyze_sentiment_single, SentimentAnalysis.no_sentiment.
  destruct (dict_has t "sentiment_score" && _) eqn:Hskip.
  - apply andb_true_iff in Hskip as [Hhas _]. unfold dict_has in Hhas.
    by destruct (t !! "sentiment_score").
  - destruct (negb _).
    + rewrite !lookup_insert_ne, lookup_insert_eq by done. by eexists.
    + destruct (SentimentAnalysis.analyze_sentiment _ _ _ _) as [r|e] eqn:Hr.
      * apply (analyze_sentiment_keys preprocess_lyrics_for_sentiment split_into_stanzas
                 sentiment_classifier) in Hr as (score & chunks & ss & ->).
        apply lookup_union_is_Some. left. unfold SentimentAnalysis.sentiment_result.
        rewrite !lookup_insert_ne, lookup_insert_eq by done. by eexists.
      * rewrite !lookup_insert_ne, lookup_insert_eq by done. by eexists.
Qed.

(** The list of the registry after the calls for the positions
    [order]. *)
Definition registry_after (results : list Track) (order : list nat) (l : list Track)
    : list Track :=
  foldl (fun l i =>
           let u := default ∅ (results !! i) in replace_first (track_id_of u) u l)
        l order.

Lemma after_sentiment_calls_cons (current total : nat) (stage : string) (track : Track)
    (calls : list (Pool.progress_call * Track)) (progress : Job) :
  after_sentiment_calls (((current, total, stage), track) :: calls) progress
  = (progress' ← sentiment_progress current total stage (Some track) progress;
     after_sentiment_calls calls progress').
Proof.
  unfold after_sentiment_calls. cbn [foldl mbind outcome_bind].
  destruct (sentiment_progress current total stage (Some track) progress) as [p|e]; [done|].
  cbn [mbind outcome_bind]. induction calls as [|call calls IH]; [done|]. apply IH.
Qed.

Lemma sentiment_progress_writes (current total : nat) (stage : string) (u : Track)
    (progress : Job) (l : list Track) :
  u ≠ ∅ -> job_tracks progress = Some l ->
  exists progress',
    sentiment_progress current total stage (Some u) progress = Returned progress' /\
    job_tracks progress' = Some (replace_first (track_id_of u) u l) /\
    job_stage progress' = Some "sentiment" /\
    job_current progress' = Some (Z.of_nat current) /\
    job_total progress' = Some (Z.of_nat total).
Proof.
  intros Hne Hl. unfold sentiment_progress. rewrite Hl, bool_decide_eq_true_2 by done.
  cbn [mbind outcome_bind]. eexists. split; [reflexivity|]. by repeat split.
Qed.

Lemma after_sentiment_calls_tracks (results : list Track) (n c : nat) (order : list nat)
    (progress : Job) (l : list Track) :
  Forall (fun i => i < length results) order ->
  Forall (fun u => u ≠ ∅) results ->
  job_tracks progress = Some l ->
  exists progress',
    after_sentiment_calls
      (imap (fun k i => ((c + S k, n, "sentiment"), default ∅ (results !! i))) order) progress
    = Returned progress' /\
    job_tracks progress' = Some (registry_after results order l) /\
    (order ≠ [] ->
     job_stage progress' = Some "sentiment" /\
     job_current progress' = Some (Z.of_nat (c + length order)) /\
     job_total progress' = Some (Z.of_nat n)).
Proof.
  intros Hbound Hne. revert c progress l.
  induction Hbound as [|i order Hi _ IH]; intros c progress l Hl.
  - exists progress. by repeat split.
  - cbn [imap]. rewrite after_sentiment_calls_cons.
    destruct (lookup_lt_is_Some_2 results i Hi) as [u Hu].
    destruct (sentiment_progress_writes (c + 1) n "sentiment" (default ∅ (results !! i))
                progress l) as (progress1 & -> & Hl1 & Hstage & Hcur & Htot);
      [rewrite Hu; exact (Forall_lookup_1 _ _ _ _ Hne Hu) | done |].
    cbn [mbind outcome_bind].
    destruct (IH (S c) progress1 _ Hl1) as (progress' & Hrun & Htracks & Hcounters).
    exists progress'. split; [|split].
    + rewrite <- Hrun. f_equal. apply imap_ext. intros k j _. simpl. do 3 f_equal. lia.
    + by rewrite Htracks.
    + intros _. destruct order as [|i' order'].
      * injection Hrun as <-. repeat split; try done.
        all: rewrite Hcur; do 2 f_equal; simpl; lia.
      * destruct Hcounters as (? & Hcur' & ?); [done|]. repeat split; try done.
        all: rewrite Hcur'; cbn [length]; do 2 f_equal; lia.
Qed.

(** The ids of the slots never change, and a slot that an earlier slot
    with the same id precedes is never written. *)
Lemma registry_after_slots (results : list Track) (order : list nat) (l : list Track) :
  length (registry_after results order l) = length l /\
  track_id_of <$> registry_after results order l = track_id_of <$> l /\
  forall i t, l !! i = Some t -> ~ first_with_id l i ->
              registry_after results order l !! i = Some t.
Proof.
  revert l. induction order as [|j order IH]; intros l; [done|].
  unfold registry_after in *. cbn [foldl].
  set (u := default ∅ (results !! j)).
  assert (track_id_of <$> replace_first (track_id_of u) u l = track_id_of <$> l) as Hids.
  { apply list_eq. intros i. rewrite !list_lookup_fmap.
    destruct (l !! i) as [t|] eqn:Hi.
    - destruct (replace_first_lookup (track_id_of u) u l i t Hi) as [->|(-> & Hid & _)];
        simpl; [done | by rewrite Hid].
    - apply lookup_ge_None in Hi.
      rewrite (proj2 (lookup_ge_None _ _)); [done|]. by rewrite replace_first_length. }
  destruct (IH (replace_first (track_id_of u) u l)) as (Hlen & Hids' & Hkeep).
  split; [by rewrite Hlen, replace_first_length|].
  split; [by rewrite Hids', Hids|].
  intros i t Hi Hnot.
  assert (replace_first (track_id_of u) u l !! i = Some t) as Hi'.
  { destruct (replace_first_lookup (track_id_of u) u l i t Hi)
      as [?|(_ & Hid & Hfirst)]; [done|].
    destruct Hnot. exists t. split; [done|]. intros j' u' Hj' Hu'.
    rewrite Hid. by apply (Hfirst j'). }
  apply Hkeep; [done|]. intros (t' & Ht' & Hfirst). rewrite Hi' in Ht'.
  injection Ht' as <-. apply Hnot. exists t. split; [done|].
  intros j' u' Hj' Hu'.
  destruct (lookup_lt_is_Some_2 (replace_first (track_id_of u) u l) j') as [u'' Hu''].
  { rewrite replace_first_length. apply lookup_lt_Some in Hu'. lia. }
  specialize (Hfirst j' u'' Hj' Hu'').
  assert (track_id_of u'' = track_id_of u') as <-; [|done].
  assert ((track_id_of <$> replace_first (track_id_of u) u l) !! j'
          = (track_id_of <$> l) !! j') as Hsame by by rewrite Hids.
  rewrite !list_lookup_fmap, Hu', Hu'' in Hsame. by injection Hsame.
Qed.

(** With ids that are all different, the calls for a permutation of
    the positions leave the results in the list. *)
Lemma registry_after_converges (g : Track -> Track) (order : list nat) (tracks : list Track) :
  (forall t, track_id_of (g t) = track_id_of t) ->
  NoDup (track_id_of <$> tracks) ->
  order ≡ₚ seq 0 (length tracks) ->
  registry_after (g <$> tracks) order tracks = g <$> tracks.
Proof.
  intros Hid Hnd Hp.
  assert (forall todo l,
            Forall (fun i => i < length tracks) todo ->
            track_id_of <$> l = track_id_of <$> tracks ->
            registry_after (g <$> tracks) todo l
            = foldl (fun l i => <[i := g (default ∅ (tracks !! i))]> l) l todo) as Hfold.
  { induction todo as [|j todo IH]; intros l Hbound Hids; [done|].
    apply Forall_cons in Hbound as [Hj Hbound].
    unfold registry_after in *. cbn [foldl].
    destruct (lookup_lt_is_Some_2 tracks j Hj) as [t Ht].
    rewrite list_lookup_fmap, Ht.
    change (default ∅ (g <$> Some t)) with (g t). change (default ∅ (Some t)) with t.
    assert (exists t', l !! j = Some t' /\ track_id_of t' = track_id_of t) as (t' & Ht' & Hsame).
    { assert ((track_id_of <$> l) !! j = (track_id_of <$> tracks) !! j) as Hj'
        by by rewrite Hids.
      rewrite !list_lookup_fmap, Ht in Hj'. destruct (l !! j) as [t'|]; [|done].
      injection Hj' as Hj'. by exists t'. }
    rewrite (replace_first_insert _ _ l j t'); [| by rewrite Hids | done | by rewrite Hid].
    apply IH; [done|]. rewrite list_fmap_insert, <- Hids.
    apply list_insert_id. rewrite list_lookup_fmap, Ht', Hid. simpl. by rewrite Hsame. }
  rewrite Hfold; [|by apply permutation_bound | done].
  apply list_eq. intros i. rewrite list_lookup_fmap.
  assert (forall todo l,
            foldl (fun l i => <[i := g (default ∅ (tracks !! i))]> l) l todo !! i
            = if decide (i ∈ todo ∧ i < length l)
              then Some (g (default ∅ (tracks !! i))) else l !! i) as Hlookup.
  { induction todo as [|j todo IH]; intros l.
    - rewrite decide_False; [done|]. intros [Hin _]. by apply elem_of_nil in Hin.
    - cbn [foldl]. rewrite IH, length_insert.
      destruct (decide (i = j)) as [->|Hne].
      + destruct (decide (j < length l)) as [Hlt|Hge].
        * rewrite (decide_True (P := j ∈ j :: todo ∧ _)); [|split; [set_solver | done]].
          destruct (decide (j ∈ todo ∧ j < length l)); [done|].
          by apply list_lookup_insert_eq.
        * rewrite !decide_False by (intros [_ ?]; done).
          rewrite list_insert_ge; [done | lia].
      + rewrite list_lookup_insert_ne by done.
        destruct (decide (i ∈ todo ∧ i < length l)) as [H1|H1];
          destruct (decide (i ∈ j :: todo ∧ i < length l)) as [H2|H2]; try done.
        * destruct H2, H1. split; [apply elem_of_cons; by right | done].
        * destruct H2 as [[->|H2]%elem_of_cons H2']; [done|]. by destruct H1. }
  rewrite Hlookup. destruct (tracks !! i) as [t|] eqn:Hi.
  - rewrite decide_True; [done|]. split; [|by eapply lookup_lt_Some].
    rewrite Hp. apply elem_of_seq. apply lookup_lt_Some in Hi. lia.
  - rewrite decide_False; [done|]. intros [_ Hlt]. apply lookup_ge_None in Hi. lia.
Qed.

(** X5. The sentiment callback of the sequential flow, run by the
    sentiment pool over the list that the registry holds: whatever the
    completion order, the calls return, the list keeps its length and
    the id of every slot, a slot that an earlier slot with the same id
    precedes is never written, and the counters of the job end at
    [(n, n)] at the stage [sentiment]; when all the ids are different,
    the list of the registry ends as the list that the pool returns. *)
Theorem sentiment_callback_registry (order : list nat) (tracks : list Track) (progress : Job) :
  order ≡ₚ seq 0 (length tracks) ->
  job_tracks progress = Some tracks ->
  exists res calls progress' registry,
    add_sentiment_to_tracks order tracks = Returned (res, calls) /\
    after_sentiment_calls calls progress = Returned progress' /\
    job_tracks progress' = Some registry /\
    length registry = length tracks /\
    track_id_of <$> registry = track_id_of <$> tracks /\
    (forall i t, tracks !! i = Some t -> ~ first_with_id tracks i -> registry !! i = Some t) /\
    (tracks ≠ [] ->
     job_stage progress' = Some "sentiment" /\
     job_current progress' = Some (Z.of_nat (length tracks)) /\
     job_total progress' = Some (Z.of_nat (length tracks))) /\
    (NoDup (track_id_of <$> tracks) -> registry = res).
Proof.
  intros Hp Htracks.
  destruct (sentiment_pool_calls preprocess_lyrics_for_sentiment split_into_stanzas
              sentiment_classifier order tracks Hp) as (res & Hres & ->).
  destruct (after_sentiment_calls_tracks (analyze_sentiment_single <$> tracks)
              (length tracks) 0 order progress tracks) as (progress' & Hrun & Hreg & Hcount).
  { rewrite length_fmap. by apply permutation_bound. }
  { apply Forall_fmap, Forall_forall. intros t _. apply analyze_sentiment_single_truthy. }
  { done. }
  destruct (registry_after_slots (analyze_sentiment_single <$> tracks) order tracks)
    as (Hlen & Hids & Hkeep).
  eexists _, _, progress', _. split; [exact Hres|]. split; [exact Hrun|].
  split; [exact Hreg|]. split; [done|]. split; [done|]. split; [done|]. split.
  - intros Hne. destruct Hcount as (? & Hcur & ?).
    + intros ->. apply Permutation_nil_l in Hp. by destruct tracks.
    + repeat split; try done. rewrite Hcur. do 2 f_equal.
      by rewrite Hp, length_seq.
  - intros Hnd. apply registry_after_converges; [|done..].
    apply analyze_sentiment_single_id.
Qed.

End sentiment_callback.

Lemma sentiment_callback_registry_witness :
  exists res calls progress',
    SentimentAnalysis.add_sentiment_to_tracks keep_text one_stanza rather_positive
      [1; 0] [track_a; track_b] = Returned (res, calls) /\
    SequentialFlow.after_sentiment_calls calls job_processing = Returned progress' /\
    Main.job_tracks progress' = Some res.
Proof.
  destruct (sentiment_callback_registry keep_text one_stanza rather_positive
              [1; 0] [track_a; track_b] job_processing)
    as (res & calls & progress' & registry & Hres & Hrun & Hreg & _ & _ & _ & _ & Hall).
  - apply perm_swap.
  - reflexivity.
  - exists res, calls, progress'. split; [exact Hres|]. split; [exact Hrun|].
    rewrite Hreg. f_equal. apply Hall.
    change (track_id_of <$> [track_a; track_b]) with [VStr "a"; VStr "b"].
    apply NoDup_cons. split; [|apply NoDup_singleton].
    intros [H|H]%elem_of_cons; [discriminate H | by apply elem_of_nil in H].
Defined.

(** ** backend/main.py: what the progress stream delivers *)

Section stream_delivery.

Import Main.

(** The conditions under which the loop of [stream_progress] reports
    the tempo and the sentiment of a track. *)
Definition tempo_known (track : Track) : bool :=
  is_not_none (dict_get track "tempo") || truthy (dict_get track "audio_features_error").

Definition sentiment_known (track : Track) : bool :=
  is_not_none (dict_get track "sentiment_score") || truthy (dict_get track "sentiment_error").

(** Nothing is left to report about [tracks]: every track with an id
    has a hashable one, which is in the set of a field as soon as the
    field is known. *)
Definition settled (tracks : list Track) (bpm_updates sentiment_updates : list value) : Prop :=
  Forall (fun track =>
            truthy (dict_get track "track_id") = true ->
            hashable (dict_get track "track_id") = true /\
            (tempo_known track = true -> dict_get track "track_id" ∈ bpm_updates) /\
            (sentiment_known track = true -> dict_get track "track_id" ∈ sentiment_updates))
         tracks.

Lemma report_tracks_settled (tracks : list Track) (bpm sent : list value) :
  settled tracks bpm sent -> report_tracks tracks bpm sent = ([], Some (bpm, sent)).
Proof.
  induction 1 as [|track rest Htrack _ IH]; [done|]. cbn [report_tracks].
  destruct (truthy (dict_get track "track_id")); cbn [negb]; [|done].
  destruct Htrack as (-> & Hbpm & Hsent); [done|]. cbn [negb].
  fold (tempo_known track). fold (sentiment_known track).
  assert (bool_decide (dict_get track "track_id" ∉ bpm) && tempo_known track = false) as ->.
  { destruct (tempo_known track); [|apply andb_false_r].
    rewrite bool_decide_eq_false_2; [done|]. intros Hnot. by apply Hnot, Hbpm. }
  assert (bool_decide (dict_get track "track_id" ∉ sent) && sentiment_known track = false)
    as ->.
  { destruct (sentiment_known track); [|apply andb_false_r].
    rewrite bool_decide_eq_false_2; [done|]. intros Hnot. by apply Hnot, Hsent. }
  by rewrite IH.
Qed.

(** The report of one field of one track: the id is added to the set
    of the field when the event is yielded. *)
Lemma report_field (known : bool) (tid0 : value) (updates : list value) (ev : event) :
  let r := if bool_decide (tid0 ∉ updates) && known
           then ([ev], tid0 :: updates) else ([], updates) in
  updates ⊆ r.2 /\
  (known = true -> tid0 ∈ r.2) /\
  (forall tid, tid ∈ r.2 -> tid ∈ updates \/ (tid = tid0 /\ r.1 = [ev])).
Proof.
  cbv zeta. destruct (bool_decide (tid0 ∉ updates) && known) eqn:Hnew; cbn [fst snd].
  - split; [intros x Hx; apply elem_of_cons; by right|].
    split; [intros _; apply elem_of_cons; by left|].
    intros tid [->|Hin]%elem_of_cons; [by right | by left].
  - split; [done|]. split; [|by left].
    intros ->. rewrite andb_true_r in Hnew. apply bool_decide_eq_false in Hnew.
    by destruct (decide (tid0 ∈ updates)).
Qed.

Lemma updates_for_tempo_event (tid0 : value) (track : Track) :
  updates_for "tempo" tid0 [EvTrackUpdate "tempo" (tempo_update tid0 track)] = 1.
Proof.
  unfold updates_for. cbn [List.filter is_update]. rewrite tempo_update_id.
  by rewrite bool_decide_eq_true_2.
Qed.

Lemma updates_for_sentiment_event (tid0 : value) (track : Track) :
  updates_for "sentiment" tid0 [EvTrackUpdate "sentiment" (sentiment_update tid0 track)] = 1.
Proof.
  unfold updates_for. cbn [List.filter is_update]. rewrite sentiment_update_id.
  by rewrite bool_decide_eq_true_2.
Qed.

(** The loop of one poll only adds to the two sets, leaves nothing to
    report, and has reported every id that it added. *)
Lemma report_tracks_sets (tracks : list Track) (bpm sent : list value)
    (evs : list event) (bpm' sent' : list value) :
  report_tracks tracks bpm sent = (evs, Some (bpm', sent')) ->
  bpm ⊆ bpm' /\ sent ⊆ sent' /\ settled tracks bpm' sent' /\
  (forall tid, tid ∈ bpm' -> tid ∈ bpm \/ 1 <= updates_for "tempo" tid evs) /\
  (forall tid, tid ∈ sent' -> tid ∈ sent \/ 1 <= updates_for "sentiment" tid evs).
Proof.
  revert bpm sent evs. induction tracks as [|track rest IH]; intros bpm sent evs.
  - intros [= <- <- <-]. repeat split; try done; auto. constructor.
  - cbn [report_tracks].
    destruct (truthy (dict_get track "track_id")) eqn:Hid; cbn [negb].
    2: { intros Hrest. destruct (IH _ _ _ Hrest) as (? & ? & ? & ? & ?).
         repeat split; try done. constructor; [|done]. intros Hid'. congruence. }
    destruct (hashable (dict_get track "track_id")) eqn:Hhash; cbn [negb]; [|done].
    fold (tempo_known track). fold (sentiment_known track).
    set (tid0 := dict_get track "track_id") in *.
    pose proof (report_field (tempo_known track) tid0 bpm
                  (EvTrackUpdate "tempo" (tempo_update tid0 track)))
      as (Hb1 & Hb2 & Hb3).
    pose proof (updates_for_tempo_event tid0 track) as Hb4.
    destruct (if bool_decide (tid0 ∉ bpm) && tempo_known track then _ else _)
      as [ev_bpm bpm1]. cbn [fst snd] in *.
    pose proof (report_field (sentiment_known track) tid0 sent
                  (EvTrackUpdate "sentiment" (sentiment_update tid0 track)))
      as (Hs1 & Hs2 & Hs3).
    pose proof (updates_for_sentiment_event tid0 track) as Hs4.
    destruct (if bool_decide (tid0 ∉ sent) && sentiment_known track then _ else _)
      as [ev_sent sent1]. cbn [fst snd] in *.
    destruct (report_tracks rest bpm1 sent1) as [evs0 sets] eqn:Hrest.
    intros [= <- ->].
    destruct (IH _ _ _ Hrest) as (Hbpm & Hsent & Hsettled & Htempo & Hsentiment).
    split; [by etrans|]. split; [by etrans|]. split; [|split].
    + constructor; [|done]. intros _. split; [done|]. split; intros Hknown.
      * by apply Hbpm, Hb2.
      * by apply Hsent, Hs2.
    + intros tid Htid. rewrite !updates_for_app.
      destruct (Htempo tid Htid) as [Hold|Hnew]; [|right; lia].
      destruct (Hb3 tid Hold) as [?|[-> ->]]; [by left|]. right. rewrite Hb4. lia.
    + intros tid Htid. rewrite !updates_for_app.
      destruct (Hsentiment tid Htid) as [Hold|Hnew]; [|right; lia].
      destruct (Hs3 tid Hold) as [?|[-> ->]]; [by left|]. right. rewrite Hs4. lia.
Qed.

(** The state of the generator after the polls of [worlds], when it is
    not over. *)
Fixpoint stream_state (job_id : string) (st : gen_state) (worlds : list (gmap string Job))
    : option gen_state :=
  match worlds with
  | [] => Some st
  | progress_store :: worlds' =>
      match (poll job_id st progress_store).1.2 with
      | Some st' => stream_state job_id st' worlds'
      | None => None
      end
  end.

Lemma stream_app (job_id : string) (st : gen_state) (ws1 ws2 : list (gmap string Job)) :
  stream job_id st (ws1 ++ ws2)
  = stream job_id st ws1 ++ match stream_state job_id st ws1 with
                            | Some st' => stream job_id st' ws2
                            | None => []
                            end.
Proof.
  revert st. induction ws1 as [|w ws1 IH]; intros st; [done|].
  cbn [app stream stream_state]. destruct (poll job_id st w) as [[evs next] w'].
  cbn [fst snd]. destruct next as [st'|]; [|by rewrite !app_nil_r].
  by rewrite IH, app_assoc.
Qed.

(** What a poll that goes on leaves in the state of the generator. *)
Lemma poll_goes_on (job_id : string) (st st' : gen_state) (w w' : gmap string Job)
    (evs : list event) :
  poll job_id st w = (evs, Some st', w') ->
  exists job updates progress_events,
    w !! job_id = Some job /\ terminal (job_stage job) = false /\
    evs = updates ++ progress_events /\
    report_tracks (default [] (job_tracks job)) (last_bpm_updates st)
      (last_sentiment_updates st)
    = (updates, Some (last_bpm_updates st', last_sentiment_updates st')) /\
    Forall (fun ev => forall field tid, is_update field tid ev = false) progress_events /\
    last_stage st' = job_stage job /\
    last_current st' = default 0%Z (job_current job) /\
    (default [] (job_tracks job) ≠ [] -> tracks_sent st' = true).
Proof.
  unfold poll. destruct (w !! job_id) as [job|]; [|done].
  destruct (report_tracks _ _ _) as [updates [[bpm sent]|]] eqn:Hreport; [|done].
  destruct (terminal (job_stage job)) eqn:Hterm.
  { by repeat case_match. }
  intros Hpoll. exists job, updates.
  destruct (bool_decide (default [] (job_tracks job) ≠ []) && negb (tracks_sent st))
    eqn:Hfirst.
  - injection Hpoll as <- <- <-. eexists. repeat split; try done.
    by repeat constructor.
  - destruct (bool_decide (job_stage job ≠ last_stage st
                           ∨ default 0%Z (job_current job) ≠ last_current st)) eqn:Hchange.
    + injection Hpoll as <- <- <-. eexists. repeat split; try done.
      * by repeat constructor.
      * cbn. intros Hne. rewrite bool_decide_eq_true_2 in Hfirst by done.
        by destruct (tracks_sent st).
    + injection Hpoll as <- <- <-. exists []. rewrite app_nil_r. repeat split; try done.
      * cbn. apply bool_decide_eq_false in Hchange.
        destruct (decide (job_stage job = last_stage st)) as [->|Hne]; [done|].
        destruct Hchange. by left.
      * cbn. apply bool_decide_eq_false in Hchange.
        destruct (decide (default 0%Z (job_current job) = last_current st)) as [->|Hne];
          [done|].
        destruct Hchange. by right.
      * cbn. intros Hne. rewrite bool_decide_eq_true_2 in Hfirst by done.
        by destruct (tracks_sent st).
Qed.

(** A second poll of a registry that did not change yields nothing and
    leaves the generator as it is. *)
Lemma poll_quiet (job_id : string) (st st' : gen_state) (w w' : gmap string Job)
    (evs : list event) :
  poll job_id st w = (evs, Some st', w') -> poll job_id st' w = ([], Some st', w).
Proof.
  intros Hpoll.
  destruct (poll_goes_on _ _ _ _ _ _ Hpoll)
    as (job & updates & pevs & Hjob & Hterm & _ & Hreport & _ & Hstage & Hcur & Hsent).
  apply report_tracks_sets in Hreport as (_ & _ & Hsettled & _).
  unfold poll. rewrite Hjob, (report_tracks_settled _ _ _ Hsettled), Hterm.
  assert (bool_decide (default [] (job_tracks job) ≠ []) && negb (tracks_sent st') = false)
    as ->.
  { case_bool_decide as Hne; [|done]. by rewrite Hsent. }
  rewrite bool_decide_eq_false_2; [by destruct st'|].
  rewrite Hstage, Hcur. by intros [?|?].
Qed.

(** X6. The stream does not depend on how often the generator polls:
    polling a registry a second time before it changes yields no event
    and leaves the generator as it was, so the events of the stream are
    the same when any poll is repeated. *)
Theorem stream_polling_rate (job_id : string) (st : gen_state)
    (ws1 : list (gmap string Job)) (w : gmap string Job) (ws2 : list (gmap string Job)) :
  (forall evs st' w', poll job_id st w = (evs, Some st', w') ->
                      poll job_id st' w = ([], Some st', w)) /\
  stream job_id st (ws1 ++ w :: w :: ws2) = stream job_id st (ws1 ++ w :: ws2).
Proof.
  split; [intros evs st' w'; apply poll_quiet|].
  rewrite !stream_app. f_equal. destruct (stream_state job_id st ws1) as [st1|]; [|done].
  cbn [stream]. destruct (poll job_id st1 w) as [[evs next] w'] eqn:Hpoll.
  destruct next as [st2|]; [|done]. by rewrite (poll_quiet _ _ _ _ _ _ Hpoll).
Qed.

(** Every id in the sets of the generator was reported by an event of
    the stream. *)
Lemma stream_accounted (job_id : string) (ws : list (gmap string Job)) (st st' : gen_state) :
  stream_state job_id st ws = Some st' ->
  (forall tid, tid ∈ last_bpm_updates st' ->
     tid ∈ last_bpm_updates st \/ 1 <= updates_for "tempo" tid (stream job_id st ws)) /\
  (forall tid, tid ∈ last_sentiment_updates st' ->
     tid ∈ last_sentiment_updates st
     \/ 1 <= updates_for "sentiment" tid (stream job_id st ws)).
Proof.
  revert st. induction ws as [|w ws IH]; intros st.
  - intros [= <-]. split; intros tid Htid; by left.
  - cbn [stream stream_state].
    destruct (poll job_id st w) as [[evs next] w'] eqn:Hpoll. cbn [fst snd].
    destruct next as [st1|]; [|done]. intros Hstate.
    destruct (poll_goes_on _ _ _ _ _ _ Hpoll)
      as (job & updates & pevs & _ & _ & -> & Hreport & _).
    apply report_tracks_sets in Hreport as (_ & _ & _ & Htempo & Hsentiment).
    destruct (IH st1 Hstate) as [IHt IHs].
    split; intros tid Htid; rewrite !updates_for_app.
    + destruct (IHt tid Htid) as [Hold|Hnew]; [|right; lia].
      destruct (Htempo tid Hold) as [?|?]; [by left | right; lia].
    + destruct (IHs tid Htid) as [Hold|Hnew]; [|right; lia].
      destruct (Hsentiment tid Hold) as [?|?]; [by left | right; lia].
Qed.

Lemma stream_state_running (job_id : string) (ws : list (gmap string Job)) (st : gen_state) :
  Forall (running job_id) ws -> is_Some (stream_state job_id st ws).
Proof.
  intros Hrun. revert st.
  induction Hrun as [|w ws (job & Hjob & Hterm & Hok) _ IH]; intros st; [by eexists|].
  cbn [stream_state].
  destruct (poll_found job_id st w job Hjob Hok) as (evs & st1 & _ & ->).
  rewrite Hterm. cbn [fst snd]. apply IH.
Qed.

(** X7. Delivery at the end of a job: when the stream reaches a poll
    that finds the job at a terminal stage, it has carried, for every
    track of the final collection that has an id, exactly one
    [track_update] event for the tempo if the tempo or its error is
    known, and exactly one for the sentiment if the score or its error
    is known. *)
Theorem stream_delivers_updates (job_id : string) (ws1 : list (gmap string Job))
    (w : gmap string Job) (ws2 : list (gmap string Job)) (job : Job) (track : Track) :
  Forall (running job_id) ws1 ->
  w !! job_id = Some job ->
  terminal (job_stage job) = true ->
  ids_ok job ->
  track ∈ default [] (job_tracks job) ->
  truthy (dict_get track "track_id") = true ->
  let events := stream job_id gen_init (ws1 ++ w :: ws2) in
  (tempo_known track = true ->
   updates_for "tempo" (dict_get track "track_id") events = 1) /\
  (sentiment_known track = true ->
   updates_for "sentiment" (dict_get track "track_id") events = 1).
Proof.
  intros Hrun Hjob Hterm Hok Hin Hid events.
  assert (forall field, updates_for field (dict_get track "track_id") events <= 1) as Hmost.
  { intros field. etrans; [apply stream_budget|].
    unfold budget_of, budget. repeat case_decide; lia. }
  destruct (stream_state_running job_id ws1 gen_init Hrun) as [st1 Hst1].
  destruct (stream_accounted job_id ws1 gen_init st1 Hst1) as [Hpast_t Hpast_s].
  unfold events. rewrite stream_app, Hst1. cbn [stream].
  destruct (poll job_id st1 w) as [[evs next] w'] eqn:Hpoll.
  assert (exists updates rest bpm sent,
            evs = updates ++ rest /\
            report_tracks (default [] (job_tracks job)) (last_bpm_updates st1)
              (last_sentiment_updates st1) = (updates, Some (bpm, sent)))
    as (updates & rest & bpm & sent & -> & Hreport).
  { unfold poll in Hpoll. rewrite Hjob in Hpoll.
    destruct (report_tracks_returns (default [] (job_tracks job)) (last_bpm_updates st1)
                (last_sentiment_updates st1) Hok) as [[bpm sent] Hsets].
    destruct (report_tracks _ _ _) as [updates sets]. cbn [snd] in Hsets. subst sets.
    rewrite Hterm in Hpoll.
    destruct (if bool_decide (_ ≠ []) && _ then _ else _) as [[[pevs ?] ?] ?].
    injection Hpoll as <- _ _. by exists updates, (pevs ++ [final_event job]), bpm, sent. }
  apply report_tracks_sets in Hreport as (_ & _ & Hsettled & Htempo & Hsentiment).
  unfold settled in Hsettled. rewrite Forall_forall in Hsettled.
  destruct (Hsettled track Hin Hid) as (_ & Hbpm & Hsent).
  unfold events in Hmost. rewrite stream_app, Hst1 in Hmost. cbn [stream] in Hmost.
  rewrite Hpoll in Hmost.
  split; intros Hknown.
  - specialize (Hmost "tempo"). rewrite !updates_for_app in *.
    destruct (Htempo _ (Hbpm Hknown)) as [Hold|Hnew]; [|lia].
    destruct (Hpast_t _ Hold) as [Hinit|Hnew]; [|lia].
    by apply elem_of_nil in Hinit.
  - specialize (Hmost "sentiment"). rewrite !updates_for_app in *.
    destruct (Hsentiment _ (Hsent Hknown)) as [Hold|Hnew]; [|lia].
    destruct (Hpast_s _ Hold) as [Hinit|Hnew]; [|lia].
    by apply elem_of_nil in Hinit.
Qed.

End stream_delivery.

Lemma stream_delivers_updates_witness :
  updates_for "sentiment" (VStr "c")
    (Main.stream "job-1" Main.gen_init
       [{["job-1" := job_processing]}; {["job-1" := job_complete]}; ∅]) = 1.
Proof.
  destruct (stream_delivers_updates "job-1" [{["job-1" := job_processing]}]
              {["job-1" := job_complete]} [∅] job_complete track_c) as [_ Hsentiment].
  - repeat constructor. exists job_processing.
    split; [reflexivity|]. split; [reflexivity|].
    repeat constructor; intros _; reflexivity.
  - reflexivity.
  - reflexivity.
  - repeat constructor; intros _; reflexivity.
  - apply elem_of_cons. right. apply elem_of_cons. by left.
  - reflexivity.
  - apply Hsentiment. reflexivity.
Defined.

(** ** backend/main.py: the parallel flow does not depend on the
       interleaving

    On tracks that come in without tempo fields the two pipelines of
    [process_features_with_progress] may interleave in any way: the
    merged collection is always the one that the tempo transform
    followed by the lyrics and sentiment transforms yields. *)

(** A key that is written out is, or is not, one of a list that is
    written out. *)
Ltac closed_key := apply (bool_decide_unpack _); vm_compute; exact I.

Section flow_branches.

Import Main.

(** The tracks that the job was given. *)
Variable tracks0 : list Track.

(** One pipeline, whose task computes [F]; the task of the other one
    computes [G].  A task is submitted with the track of the job or
    with the result that the other pipeline has written in its place,
    which happens only once the other pipeline has submitted all its
    tasks. *)
Record branch_inv (F G : Track -> Track) (mine other : branch) : Prop := BranchInv {
  bi_length : length (futures mine) <= length tracks0;
  bi_yielded : forall i, i ∈ yielded mine ->
    i < length tracks0 /\ length (futures mine) = length tracks0;
  bi_nodup : NoDup (yielded mine);
  bi_futures : forall i fut, futures mine !! i = Some fut ->
    exists t, tracks0 !! i = Some t /\
      (fut = Returned (i, F t) \/
       (fut = Returned (i, F (G t)) /\ length (futures other) = length tracks0));
  bi_results : forall i r, results mine !! i = Some r ->
    futures mine !! i = Some (Returned (i, r));
  bi_collected : forall i, i ∈ yielded mine -> is_Some (results mine !! i)
}.

(** A slot of the shared list holds the track of the job or a result
    that one of the pipelines has met. *)
Definition shared_inv (shared : list Track) (b1 b2 : branch) : Prop :=
  length shared = length tracks0 /\
  forall i x, shared !! i = Some x ->
    tracks0 !! i = Some x \/
    (i ∈ yielded b1 /\ futures b1 !! i = Some (Returned (i, x))) \/
    (i ∈ yielded b2 /\ futures b2 !! i = Some (Returned (i, x))).

Lemma shared_inv_sym (shared : list Track) (b1 b2 : branch) :
  shared_inv shared b1 b2 -> shared_inv shared b2 b1.
Proof.
  intros [Hlen Hslots]. split; [done|]. intros i x Hx.
  destruct (Hslots i x Hx) as [?|[?|?]]; auto.
Qed.

Lemma submit_inv (F G : Track -> Track) (task : nat -> Track -> outcome (nat * Track))
    (shared : list Track) (mine other mine' : branch) :
  (forall i t, tracks0 !! i = Some t ->
     task i t = Returned (i, F t) /\ task i (G t) = Returned (i, F (G t))) ->
  branch_inv F G mine other -> branch_inv G F other mine -> shared_inv shared mine other ->
  submit task shared mine = Some mine' ->
  branch_inv F G mine' other /\ branch_inv G F other mine' /\ shared_inv shared mine' other.
Proof.
  intros Htask [Hlen Hyield Hnd Hfut Hres Hcol] [Hlen' Hyield' Hnd' Hfut' Hres' Hcol']
    [Hshared Hslots].
  unfold submit. destruct (shared !! length (futures mine)) as [x|] eqn:Hx; [|done].
  simpl. intros [= <-].
  assert (length (futures mine) < length tracks0) as Hlt.
  { apply lookup_lt_Some in Hx. lia. }
  assert (forall j, j ∉ yielded mine) as Hnone.
  { intros j Hj. destruct (Hyield j Hj). lia. }
  assert (forall i fut, futures mine !! i = Some fut ->
            (futures mine ++ [task (length (futures mine)) x]) !! i = Some fut) as Hext.
  { intros i fut Hi. by apply lookup_app_l_Some. }
  split; [|split].
  - split; simpl; try done.
    + rewrite length_app. simpl. lia.
    + intros i Hi. by destruct (Hnone i).
    + intros i fut [[_ Hi]|[-> <-]]%lookup_snoc_Some; [by apply Hfut|].
      destruct (Hslots _ _ Hx) as [Ht|[[Hy _]|[Hy Hf]]].
      * exists x. split; [done|]. left. by apply Htask.
      * by destruct (Hnone _ Hy).
      * destruct (Hfut' _ _ Hf) as (t & Ht & [[= ->]|[_ Hfull]]); [|lia].
        exists t. split; [done|]. right. split; [by apply Htask|].
        by destruct (Hyield' _ Hy).
    + intros i r Hi. by apply Hext, Hres.
  - split; simpl; try done.
    intros i fut Hi. destruct (Hfut' i fut Hi) as (t & Ht & [->|[_ Hfull]]); [|lia].
    exists t. split; [done|]. by left.
  - split; [done|]. simpl. intros i y Hy.
    destruct (Hslots i y Hy) as [?|[[Hin _]|?]]; auto. by destruct (Hnone i).
Qed.

Lemma yield_inv (F G : Track -> Track) (i : nat)
    (shared shared' : list Track) (mine other mine' : branch) :
  branch_inv F G mine other -> branch_inv G F other mine -> shared_inv shared mine other ->
  yield i shared mine = Some (shared', mine') ->
  branch_inv F G mine' other /\ branch_inv G F other mine' /\ shared_inv shared' mine' other.
Proof.
  intros [Hlen Hyield Hnd Hfut Hres Hcol] [Hlen' Hyield' Hnd' Hfut' Hres' Hcol']
    [Hshared Hslots].
  unfold yield. case_bool_decide as Hguard; [|done]. destruct Hguard as [Hfull Hnew].
  destruct (futures mine !! i) as [fut|] eqn:Hi; [|done]. simpl.
  assert (exists r, fut = Returned (i, r)) as [r ->].
  { destruct (Hfut i fut Hi) as (t & _ & [->|[-> _]]); by eexists. }
  intros [= <- <-].
  assert (i < length tracks0) as Hlt.
  { apply lookup_lt_Some in Hi. lia. }
  split; [|split].
  - split; simpl; try done.
    + intros j [->|Hj]%elem_of_cons; [split; [done | lia] | by apply Hyield].
    + by apply NoDup_cons.
    + intros j r' [[<- <-]|[_ Hj]]%lookup_insert_Some; [done | by apply Hres].
    + intros j [->|Hj]%elem_of_cons.
      * rewrite lookup_insert_eq. by eexists.
      * destruct (decide (i = j)) as [->|Hne]; [rewrite lookup_insert_eq; by eexists|].
        rewrite lookup_insert_ne by done. by apply Hcol.
  - split; simpl; done.
  - split; [by rewrite length_insert|]. simpl. intros j y Hj.
    apply list_lookup_insert_Some in Hj as [(<- & <- & _)|[_ Hj]].
    + right. left. split; [apply elem_of_cons; by left | done].
    + destruct (Hslots j y Hj) as [?|[[Hin ?]|?]]; auto.
      right. left. split; [apply elem_of_cons; by right | done].
Qed.

(** A pipeline that has met all its futures has a result for every
    position. *)
Lemma drained_results (F G : Track -> Track) (shared : list Track) (mine other : branch)
    (i : nat) (t : Track) :
  branch_inv F G mine other -> length shared = length tracks0 ->
  drained shared mine = true -> tracks0 !! i = Some t ->
  exists r, results mine !! i = Some r /\
    (r = F t \/ (r = F (G t) /\ length (futures other) = length tracks0)).
Proof.
  intros [Hlen Hyield Hnd Hfut Hres Hcol] Hshared Hdrained Ht.
  apply bool_decide_eq_true in Hdrained.
  assert (yielded mine ≡ₚ seq 0 (length tracks0)) as Hall.
  { apply submseteq_length_Permutation.
    - apply NoDup_submseteq; [done|]. intros j Hj. apply elem_of_seq.
      destruct (Hyield j Hj). lia.
    - rewrite length_seq. lia. }
  destruct (Hcol i) as [r Hr].
  { rewrite Hall. apply elem_of_seq. apply lookup_lt_Some in Ht. lia. }
  exists r. split; [done|].
  destruct (Hfut i _ (Hres i r Hr)) as (t' & Ht' & Hcases).
  rewrite Ht in Ht'. injection Ht' as <-.
  destruct Hcases as [[= ->]|[[= ->] ?]]; auto.
Qed.

End flow_branches.

Section flow_schedules.

Import Main.

Variable search_preview_url : value -> value -> outcome value.
Variable download_and_beat_track : value -> outcome R.
Variable spotify_credentials : option (string * string).
Variable search_song : value -> value -> outcome (option LyricsFetch.Song).
Variable preprocess_lyrics_for_sentiment : string -> string.
Variable split_into_stanzas : string -> list string.
Variable sentiment_classifier : string -> outcome (string * R).

Local Abbreviation bpm_task :=
  (Main.bpm_task search_preview_url download_and_beat_track spotify_credentials).
Local Abbreviation process_sentiment_for_track :=
  (Main.process_sentiment_for_track search_song preprocess_lyrics_for_sentiment
     split_into_stanzas sentiment_classifier).
Local Abbreviation flow_step :=
  (Main.flow_step search_preview_url download_and_beat_track spotify_credentials
     search_song preprocess_lyrics_for_sentiment split_into_stanzas sentiment_classifier).
Local Abbreviation flow_run :=
  (Main.flow_run search_preview_url download_and_beat_track spotify_credentials
     search_song preprocess_lyrics_for_sentiment split_into_stanzas sentiment_classifier).
Local Abbreviation gathered :=
  (Main.gathered search_preview_url download_and_beat_track spotify_credentials
     search_song preprocess_lyrics_for_sentiment split_into_stanzas sentiment_classifier).
Local Abbreviation merged_tracks :=
  (Main.merged_tracks search_preview_url download_and_beat_track spotify_credentials
     search_song preprocess_lyrics_for_sentiment split_into_stanzas sentiment_classifier).
Local Abbreviation final_tracks :=
  (Main.final_tracks search_preview_url download_and_beat_track spotify_credentials
     search_song preprocess_lyrics_for_sentiment split_into_stanzas sentiment_classifier).
Local Abbreviation analyze_sentiment_single :=
  (SentimentAnalysis.analyze_sentiment_single preprocess_lyrics_for_sentiment
     split_into_stanzas sentiment_classifier).

(** What the task of each pipeline makes of a track. *)
Definition tempo_done (t : Track) : Track :=
  analyzed search_preview_url download_and_beat_track spotify_credentials t.

Definition sentiment_done (t : Track) : Track :=
  analyze_sentiment_single (fetched search_song t).

(** A track that no tempo computation has touched. *)
Definition fresh (t : Track) : Prop := forall k, k ∈ tempo_keys -> t !! k = None.

Lemma tempo_key_cases (k : string) :
  k ∈ tempo_keys -> k = "tempo" \/ k = "audio_features_error".
Proof.
  intros [->|[->|[]%elem_of_nil]%elem_of_cons]%elem_of_cons; auto.
Qed.

Lemma artists_ok_lookup (t t' : Track) :
  t' !! "artists" = t !! "artists" -> artists_ok t -> artists_ok t'.
Proof. unfold artists_ok. by intros ->. Qed.

(** *** The tempo transform *)

Lemma tempo_done_agree (t t' : Track) :
  artists_ok t ->
  t' !! "title" = t !! "title" -> t' !! "artists" = t !! "artists" ->
  t' !! "preview_url" = t !! "preview_url" ->
  exists tempo err,
    tempo_done t = <["audio_features_error" := err]> (<["tempo" := tempo]> t) /\
    tempo_done t' = <["audio_features_error" := err]> (<["tempo" := tempo]> t').
Proof.
  intros Hok Htitle Hartists Hurl.
  destruct (first_artist_returned t (VStr "Unknown") Hok) as [artist Hartist].
  unfold tempo_done, analyzed, AudioFeatures.analyze_track_with_index.
  unfold dict_get_default, dict_get in *. rewrite Htitle, Hartists, Hurl, Hartist.
  cbn [mbind outcome_bind].
  destruct (truthy (if _ && _ then _ else _)); [|by eauto].
  destruct (AudioFeatures.calculate_bpm_from_preview_url _ _) as [bpm error].
  destruct (is_not_none bpm); by eauto.
Qed.

Lemma tempo_done_shape (t : Track) :
  artists_ok t ->
  exists tempo err,
    tempo_done t = <["audio_features_error" := err]> (<["tempo" := tempo]> t).
Proof.
  intros Hok. destruct (tempo_done_agree t t Hok) as (tempo & err & Ht & _); eauto.
Qed.

Lemma tempo_done_other (t : Track) (k : string) :
  artists_ok t -> k ∉ tempo_keys -> tempo_done t !! k = t !! k.
Proof.
  intros Hok Hk. destruct (tempo_done_shape t Hok) as (tempo & err & ->).
  rewrite !lookup_insert_ne; [done|..]; intros <-; apply Hk; set_solver.
Qed.

Lemma tempo_done_tempo (t : Track) (k : string) :
  artists_ok t -> k ∈ tempo_keys -> is_Some (tempo_done t !! k).
Proof.
  intros Hok Hk. destruct (tempo_done_shape t Hok) as (tempo & err & ->).
  destruct (tempo_key_cases k Hk) as [-> | ->].
  - rewrite lookup_insert_ne, lookup_insert_eq by done. by eexists.
  - rewrite lookup_insert_eq. by eexists.
Qed.

(** *** The lyrics and sentiment transform *)

Lemma fetched_other (t : Track) (k : string) :
  k ≠ "lyrics" -> k ≠ "lyrics_source" -> k ≠ "genius_url" ->
  fetched search_song t !! k = t !! k.
Proof.
  intros ? ? ?. unfold fetched.
  destruct (LyricsFetch.fetch_lyrics_single search_song t) as [r|e] eqn:Hr; [|done].
  by apply (fetch_lyrics_single_other search_song t r).
Qed.

Lemma sentiment_done_other (t : Track) (k : string) :
  k ∉ ["lyrics"; "lyrics_source"; "genius_url";
       "sentiment_score"; "sentiment_chunks"; "stanza_scores"] ->
  sentiment_done t !! k = t !! k.
Proof.
  intros Hk. unfold sentiment_done.
  rewrite analyze_sentiment_single_other by (intros ->; apply Hk; set_solver).
  apply fetched_other; intros ->; apply Hk; set_solver.
Qed.

Lemma sentiment_done_tempo (t : Track) (k : string) :
  k ∈ tempo_keys -> sentiment_done t !! k = t !! k.
Proof.
  intros [-> | ->]%tempo_key_cases; apply sentiment_done_other; closed_key.
Qed.

Lemma fetched_insert (t : Track) (k : string) (v : value) :
  k ∈ tempo_keys ->
  fetched search_song (<[k := v]> t) = <[k := v]> (fetched search_song t).
Proof.
  intros Hk. unfold fetched, LyricsFetch.fetch_lyrics_single, LyricsFetch.no_lyrics.
  unfold dict_get_default, dict_has, dict_get.
  assert (forall k', k' ∉ tempo_keys -> <[k := v]> t !! k' = t !! k') as Hread.
  { intros k' Hk'. rewrite lookup_insert_ne; [done|]. by intros <-. }
  rewrite !Hread by closed_key.
  destruct (if truthy _ then _ else _) as [artist|e]; cbn [mbind outcome_bind]; [|done].
  destruct (_ && _); cbn [fst]; [done|].
  destruct (tempo_key_cases k Hk) as [-> | ->].
  all: destruct (search_song _ _) as [[song|]|e]; [destruct (truthy _)|..].
  all: apply map_eq; intros j; rewrite !lookup_insert; by repeat case_decide; simplify_eq.
Qed.

Lemma analyze_sentiment_single_insert (t : Track) (k : string) (v : value) :
  k ∈ tempo_keys ->
  analyze_sentiment_single (<[k := v]> t) = <[k := v]> (analyze_sentiment_single t).
Proof.
  intros Hk.
  unfold SentimentAnalysis.analyze_sentiment_single, SentimentAnalysis.no_sentiment.
  unfold dict_get_default, dict_has, dict_get.
  assert (forall k', k' ∉ tempo_keys -> <[k := v]> t !! k' = t !! k') as Hread.
  { intros k' Hk'. rewrite lookup_insert_ne; [done|]. by intros <-. }
  rewrite !Hread by closed_key.
  destruct (_ && _); [done|].
  destruct (negb _).
  { destruct (tempo_key_cases k Hk) as [-> | ->].
    all: apply map_eq; intros j; rewrite !lookup_insert; by repeat case_decide; simplify_eq. }
  destruct (SentimentAnalysis.analyze_sentiment _ _ _ _) as [r|e] eqn:Hr.
  - apply (analyze_sentiment_keys preprocess_lyrics_for_sentiment split_into_stanzas
             sentiment_classifier) in Hr as (score & chunks & ss & ->).
    symmetry. apply insert_union_r. unfold SentimentAnalysis.sentiment_result.
    destruct (tempo_key_cases k Hk) as [-> | ->]; by rewrite !lookup_insert_ne.
  - destruct (tempo_key_cases k Hk) as [-> | ->].
    all: apply map_eq; intros j; rewrite !lookup_insert; by repeat case_decide; simplify_eq.
Qed.

(** Writing a tempo field before the lyrics and sentiment transform is
    writing it afterwards. *)
Lemma sentiment_done_insert (t : Track) (k : string) (v : value) :
  k ∈ tempo_keys -> sentiment_done (<[k := v]> t) = <[k := v]> (sentiment_done t).
Proof.
  intros Hk. unfold sentiment_done.
  by rewrite fetched_insert, analyze_sentiment_single_insert.
Qed.

(** The transform adds keys and removes none. *)
Lemma sentiment_done_keeps (t : Track) (k : string) :
  is_Some (t !! k) -> is_Some (sentiment_done t !! k).
Proof.
  intros Hk. unfold sentiment_done.
  assert (is_Some (fetched search_song t !! k)) as Hfetched.
  { unfold fetched, LyricsFetch.fetch_lyrics_single, LyricsFetch.no_lyrics.
    destruct (if truthy _ then _ else _) as [artist|e]; cbn [mbind outcome_bind]; [|done].
    destruct (_ && _); cbn [fst]; [done|].
    destruct (search_song _ _) as [[song|]|e]; [destruct (truthy _)|..].
    all: repeat (apply lookup_insert_is_Some'; right); done. }
  revert Hfetched. generalize (fetched search_song t). intros u Hu.
  unfold SentimentAnalysis.analyze_sentiment_single, SentimentAnalysis.no_sentiment.
  destruct (_ && _); [done|].
  destruct (negb _); [repeat (apply lookup_insert_is_Some'; right); done|].
  destruct (SentimentAnalysis.analyze_sentiment _ _ _ _) as [r|e].
  - apply lookup_union_is_Some. by right.
  - repeat (apply lookup_insert_is_Some'; right); done.
Qed.

Lemma sentiment_done_after_tempo (t : Track) :
  artists_ok t ->
  exists tempo err,
    tempo_done t = <["audio_features_error" := err]> (<["tempo" := tempo]> t) /\
    sentiment_done (tempo_done t)
    = <["audio_features_error" := err]> (<["tempo" := tempo]> (sentiment_done t)).
Proof.
  intros Hok. destruct (tempo_done_shape t Hok) as (tempo & err & Ht).
  exists tempo, err. split; [done|]. rewrite Ht.
  rewrite !sentiment_done_insert; [done|..]; closed_key.
Qed.

Lemma tempo_done_after_sentiment (t : Track) :
  artists_ok t ->
  exists tempo err,
    tempo_done t = <["audio_features_error" := err]> (<["tempo" := tempo]> t) /\
    tempo_done (sentiment_done t)
    = <["audio_features_error" := err]> (<["tempo" := tempo]> (sentiment_done t)).
Proof.
  intros Hok. apply tempo_done_agree; [done|..]; apply sentiment_done_other; closed_key.
Qed.

(** The two transforms commute. *)
Lemma transforms_commute (t : Track) :
  artists_ok t -> tempo_done (sentiment_done t) = sentiment_done (tempo_done t).
Proof.
  intros Hok.
  destruct (sentiment_done_after_tempo t Hok) as (tempo & err & Ht & ->).
  destruct (tempo_done_after_sentiment t Hok) as (tempo' & err' & Ht' & ->).
  rewrite Ht in Ht'.
  assert (forall k, <["audio_features_error":=err]> (<["tempo":=tempo]> t) !! k
                    = <["audio_features_error":=err']> (<["tempo":=tempo']> t) !! k) as Hk
    by (intros k; by rewrite Ht').
  pose proof (Hk "tempo") as Htempo. pose proof (Hk "audio_features_error") as Herr.
  rewrite !lookup_insert in Htempo, Herr.
  repeat case_decide; simplify_eq. done.
Qed.

Lemma bpm_task_done (i : nat) (t : Track) :
  artists_ok t -> bpm_task i t = Returned (i, tempo_done t).
Proof. intros Hok. by apply analyze_track_analyzed. Qed.

Lemma sentiment_task_done (i : nat) (t : Track) :
  artists_ok t -> process_sentiment_for_track i t = Returned (i, sentiment_done t).
Proof.
  intros Hok. unfold Main.process_sentiment_for_track, sentiment_done, fetched.
  by destruct (fetch_lyrics_single_returned search_song t Hok) as [r ->].
Qed.

(** *** The interleavings *)

Definition flow_ok (tracks : list Track) (st : flow_state) : Prop :=
  branch_inv tracks tempo_done sentiment_done (bpm st) (sentiment st) /\
  branch_inv tracks sentiment_done tempo_done (sentiment st) (bpm st) /\
  shared_inv tracks (shared_tracks st) (bpm st) (sentiment st).

Lemma flow_ok_init (tracks : list Track) :
  flow_ok tracks (FlowState tracks branch_init branch_init).
Proof.
  assert (forall F G, branch_inv tracks F G branch_init branch_init) as Hinit.
  { intros F G. split; simpl; try done.
    - lia.
    - intros i Hi. by apply elem_of_nil in Hi.
    - apply NoDup_nil_2.
    - intros i Hi. by apply elem_of_nil in Hi. }
  split; [apply Hinit|]. split; [apply Hinit|]. split; [done|]. intros i x Hx. by left.
Qed.

Lemma flow_ok_step (tracks : list Track) (st st' : flow_state) (ev : flow_event) :
  Forall artists_ok tracks ->
  flow_ok tracks st -> flow_step st ev = Some st' -> flow_ok tracks st'.
Proof.
  intros Hok (Hb & Hs & Hshared).
  assert (forall i t, tracks !! i = Some t -> artists_ok t) as Htyped.
  { intros i t Ht. by eapply Forall_lookup_1. }
  assert (forall i t, tracks !! i = Some t ->
            bpm_task i t = Returned (i, tempo_done t) /\
            bpm_task i (sentiment_done t) = Returned (i, tempo_done (sentiment_done t)))
    as Hbpm.
  { intros i t Ht. split; apply bpm_task_done; [by eapply Htyped|].
    apply (artists_ok_lookup t); [|by eapply Htyped].
    apply sentiment_done_other. closed_key. }
  assert (forall i t, tracks !! i = Some t ->
            process_sentiment_for_track i t = Returned (i, sentiment_done t) /\
            process_sentiment_for_track i (tempo_done t)
            = Returned (i, sentiment_done (tempo_done t))) as Hsentiment.
  { intros i t Ht. split; apply sentiment_task_done; [by eapply Htyped|].
    apply (artists_ok_lookup t); [|by eapply Htyped].
    apply tempo_done_other; [by eapply Htyped | closed_key]. }
  pose proof (shared_inv_sym tracks _ _ _ Hshared) as Hshared'.
  destruct st as [shared b s]. simpl in *.
  destruct ev as [|i| |i]; unfold Main.flow_step; simpl.
  - destruct (submit _ shared b) as [b'|] eqn:Hsubmit; [|done]. simpl. intros [= <-].
    destruct (submit_inv tracks tempo_done sentiment_done bpm_task shared b s b'
                Hbpm Hb Hs Hshared Hsubmit) as (H1 & H2 & H3).
    split; [done|]. by split.
  - destruct (yield i shared b) as [[shared' b']|] eqn:Hyield; [|done]. simpl.
    intros [= <-].
    destruct (yield_inv tracks tempo_done sentiment_done i shared shared' b s b'
                Hb Hs Hshared Hyield) as (H1 & H2 & H3).
    split; [done|]. by split.
  - destruct (submit _ shared s) as [s'|] eqn:Hsubmit; [|done]. simpl. intros [= <-].
    destruct (submit_inv tracks sentiment_done tempo_done process_sentiment_for_track
                shared s b s' Hsentiment Hs Hb Hshared' Hsubmit) as (H1 & H2 & H3).
    split; [done|]. split; [done|]. by apply shared_inv_sym.
  - destruct (yield i shared s) as [[shared' s']|] eqn:Hyield; [|done]. simpl.
    intros [= <-].
    destruct (yield_inv tracks sentiment_done tempo_done i shared shared' s b s'
                Hs Hb Hshared' Hyield) as (H1 & H2 & H3).
    split; [done|]. split; [done|]. by apply shared_inv_sym.
Qed.

Lemma flow_ok_run (tracks : list Track) (schedule : list flow_event) (st st' : flow_state) :
  Forall artists_ok tracks ->
  flow_ok tracks st -> flow_run st schedule = Some st' -> flow_ok tracks st'.
Proof.
  intros Hok. revert st. induction schedule as [|ev schedule IH]; intros st Hinv; simpl.
  - by intros [= <-].
  - destruct (flow_step st ev) as [st1|] eqn:Hstep; [|done]. simpl.
    apply IH. by eapply flow_ok_step.
Qed.

(** The merge of a sentiment result, a tempo result and a slot of the
    shared list, whichever they are. *)
Lemma merge_candidates (t s b x : Track) :
  fresh t -> artists_ok t ->
  s = sentiment_done t \/ s = sentiment_done (tempo_done t) ->
  b = tempo_done t \/ b = sentiment_done (tempo_done t) ->
  x = t \/ x = tempo_done t \/ x = sentiment_done t \/ x = sentiment_done (tempo_done t) ->
  s ∪ (b ∪ x) = sentiment_done (tempo_done t).
Proof.
  intros Hfresh Hok Hs Hb Hx.
  destruct (sentiment_done_after_tempo t Hok) as (tempo & err & HB & HSB).
  assert (forall k, sentiment_done t !! k = None -> t !! k = None) as Hkeep.
  { intros k Hnone. destruct (t !! k) as [v|] eqn:Htk; [|done].
    destruct (sentiment_done_keeps t k) as [v' Hv']; [by eexists | congruence]. }
  assert (forall k, k ∈ tempo_keys -> sentiment_done t !! k = None) as Hnone.
  { intros k Hk. rewrite sentiment_done_tempo by done. by apply Hfresh. }
  pose proof (Hnone "tempo" ltac:(closed_key)) as Hnone1.
  pose proof (Hnone "audio_features_error" ltac:(closed_key)) as Hnone2.
  pose proof (Hfresh "tempo" ltac:(closed_key)) as Hfresh1.
  pose proof (Hfresh "audio_features_error" ltac:(closed_key)) as Hfresh2.
  rewrite HSB in *. rewrite HB in *. clear HB HSB Hnone Hfresh.
  apply map_eq. intros k. rewrite !lookup_union.
  destruct Hs as [-> | ->], Hb as [-> | ->], Hx as [-> | [-> | [-> | ->]]].
  all: rewrite !lookup_insert.
  all: destruct (decide ("audio_features_error" = k)) as [<-|?];
    [by rewrite ?Hnone2, ?Hfresh2|].
  all: destruct (decide ("tempo" = k)) as [<-|?]; [by rewrite ?Hnone1, ?Hfresh1|].
  all: destruct (sentiment_done t !! k) as [v|] eqn:Hv; [by destruct (t !! k)|].
  all: by rewrite ?(Hkeep k Hv).
Qed.

(** The merged collection of a complete run on tracks without tempo
    fields. *)
Lemma merged_on_fresh_tracks (tracks : list Track)
    (schedule : list flow_event) (merged : list Track) :
  Forall fresh tracks ->
  Forall artists_ok tracks ->
  merged_tracks tracks schedule = Some merged ->
  merged = (fun t => sentiment_done (tempo_done t)) <$> tracks.
Proof.
  intros Hfresh Hok Hmerged.
  unfold Main.merged_tracks, Main.gathered in Hmerged.
  destruct (flow_run _ schedule) as [st|] eqn:Hrun; [|done]. simpl in Hmerged.
  destruct (drained _ (bpm st)) eqn:Hdb; [|done].
  destruct (drained _ (sentiment st)) eqn:Hds; [|done].
  simpl in Hmerged. injection Hmerged as <-.
  destruct (flow_ok_run tracks schedule _ st Hok (flow_ok_init tracks) Hrun)
    as (Hb & Hs & Hlen & Hslots).
  apply list_eq. intros i. unfold merge_results.
  rewrite list_lookup_imap, list_lookup_fmap.
  destruct (tracks !! i) as [t|] eqn:Ht.
  - destruct (lookup_lt_is_Some_2 (shared_tracks st) i) as [x Hx].
    { rewrite Hlen. by eapply lookup_lt_Some. }
    assert (fresh t) as Hft by by eapply Forall_lookup_1.
    assert (artists_ok t) as Hat by by eapply Forall_lookup_1.
    destruct (drained_results tracks _ _ _ _ _ i t Hb Hlen Hdb Ht) as (b & Hbi & Hbv).
    destruct (drained_results tracks _ _ _ _ _ i t Hs Hlen Hds Ht) as (s & Hsi & Hsv).
    rewrite Hx. simpl. rewrite Hbi, Hsi. f_equal.
    rewrite transforms_commute in Hbv by done.
    apply merge_candidates; try done.
    + destruct Hsv as [?|[? _]]; auto.
    + destruct Hbv as [?|[? _]]; auto.
    + destruct (Hslots i x Hx) as [Hx0|[[_ Hf]|[_ Hf]]].
      * left. congruence.
      * destruct (bi_futures _ _ _ _ _ Hb i _ Hf) as (t' & Ht' & Hcases).
        rewrite Ht in Ht'. injection Ht' as <-.
        rewrite transforms_commute in Hcases by done.
        destruct Hcases as [[= ->]|[[= ->] _]]; auto.
      * destruct (bi_futures _ _ _ _ _ Hs i _ Hf) as (t' & Ht' & Hcases).
        rewrite Ht in Ht'. injection Ht' as <-.
        destruct Hcases as [[= ->]|[[= ->] _]]; auto.
  - destruct (shared_tracks st !! i) as [x|] eqn:Hx; [|done].
    apply lookup_lt_Some in Hx. apply lookup_ge_None in Ht. lia.
Qed.

(** X8. The parallel flow on tracks without tempo fields: for every
    interleaving of the two pipelines that lets both of them meet all
    their futures, the merged collection is the one that the sequential
    composition of the transforms yields, track by track: the tempo
    transform, then the lyrics and sentiment transforms; the final
    collection is its normalisation.  The two transforms commute. *)
Theorem parallel_flow_schedule_independent (tracks : list Track)
    (schedule : list flow_event) (merged : list Track) :
  Forall fresh tracks ->
  Forall artists_ok tracks ->
  merged_tracks tracks schedule = Some merged ->
  merged = (fun t => sentiment_done (tempo_done t)) <$> tracks /\
  final_tracks tracks schedule = Some (normalize_sentiment_scores merged) /\
  forall t, t ∈ tracks -> tempo_done (sentiment_done t) = sentiment_done (tempo_done t).
Proof.
  intros Hfresh Hok Hmerged. split; [|split].
  - by apply (merged_on_fresh_tracks tracks schedule).
  - unfold Main.final_tracks. fold (merged_tracks tracks schedule). by rewrite Hmerged.
  - intros t Ht. apply transforms_commute. rewrite Forall_forall in Hok. by apply Hok.
Qed.

End flow_schedules.

Lemma parallel_flow_schedule_independent_witness :
  Main.merged_tracks no_preview tempo_120 None one_song keep_text one_stanza
    rather_positive [track_a] usual_schedule
  = Some [sentiment_done one_song keep_text one_stanza rather_positive
            (tempo_done no_preview tempo_120 None track_a)].
Proof.
  destruct (Main.merged_tracks no_preview tempo_120 None one_song keep_text one_stanza
              rather_positive [track_a] usual_schedule) as [merged|] eqn:Hmerged.
  - destruct (parallel_flow_schedule_independent no_preview tempo_120 None one_song
                keep_text one_stanza rather_positive [track_a] usual_schedule merged)
      as [-> _].
    + repeat constructor. intros k [-> | ->]%tempo_key_cases; reflexivity.
    + repeat constructor; vm_compute; exact I.
    + exact Hmerged.
    + reflexivity.
  - assert (match Main.merged_tracks no_preview tempo_120 None one_song keep_text
                    one_stanza rather_positive [track_a] usual_schedule with
            | Some _ => true
            | None => false
            end = true) as Hsome by (vm_compute; reflexivity).
    rewrite Hmerged in Hsome. discriminate Hsome.
Defined.

(** ** backend/playlist_fetch.py: what the backend is called with

    The pools are fed with the tracks that [get_playlist_tracks_basic]
    builds from the items of the Spotify Web API, and
    [pipeline.save_playlist_json] names its file with
    [sanitize_filename]. *)

Module Text.

(** [s.replace(a, b)] for two characters. *)
Fixpoint replace_char (a b : ascii) (s : string) : string :=
  match s with
  | EmptyString => EmptyString
  | String c s' => String (if Ascii.eqb c a then b else c) (replace_char a b s')
  end.

(** [re.sub('[...]', '', s)]: the characters of a class are removed. *)
Fixpoint remove_chars (cls : ascii -> bool) (s : string) : string :=
  match s with
  | EmptyString => EmptyString
  | String c s' => if cls c then remove_chars cls s' else String c (remove_chars cls s')
  end.

(** [s.strip(chars)] *)
Fixpoint lstrip_chars (cls : ascii -> bool) (s : string) : string :=
  match s with
  | String c s' => if cls c then lstrip_chars cls s' else s
  | EmptyString => EmptyString
  end.

Fixpoint rstrip_chars (cls : ascii -> bool) (s : string) : string :=
  match s with
  | String c s' =>
      match rstrip_chars cls s' with
      | EmptyString => if cls c then EmptyString else String c EmptyString
      | r => String c r
      end
  | EmptyString => EmptyString
  end.

Definition strip_chars (cls : ascii -> bool) (s : string) : string :=
  rstrip_chars cls (lstrip_chars cls s).

(** Every character of [s] passes the test [p]. *)
Fixpoint str_all (p : ascii -> bool) (s : string) : bool :=
  match s with
  | EmptyString => true
  | String c s' => p c && str_all p s'
  end.

Definition str_first (s : string) : option ascii :=
  match s with
  | EmptyString => None
  | String c _ => Some c
  end.

Fixpoint str_last (s : string) : option ascii :=
  match s with
  | EmptyString => None
  | String c EmptyString => Some c
  | String _ s' => str_last s'
  end.

(** [s.replace(old, new)] for a non-empty [old]: the text is read from
    left to right and an occurrence of [old] is replaced where one
    starts; [skip] counts the characters of that occurrence that are
    still to pass. *)
Fixpoint replace_scan (old new : string) (skip : nat) (s : string) : string :=
  match s with
  | EmptyString => EmptyString
  | String c s' =>
      match skip with
      | S k => replace_scan old new k s'
      | 0 =>
          if String.prefix old s
          then new +:+ replace_scan old new (String.length old - 1) s'
          else String c (replace_scan old new 0 s')
      end
  end.

Definition replace_sub (old new s : string) : string := replace_scan old new 0 s.

(** [s.endswith(suffix)] *)
Fixpoint str_endswith (suffix s : string) : bool :=
  String.eqb suffix s ||
  match s with
  | EmptyString => false
  | String _ s' => str_endswith suffix s'
  end.

(** [s.split(sep)] for a non-empty [sep], read from left to right as
    [replace_scan] reads: the first segment and the list of the
    others. *)
Fixpoint split_scan (sep : string) (skip : nat) (s : string) : string * list string :=
  match s with
  | EmptyString => (EmptyString, [])
  | String c s' =>
      match skip with
      | S k => split_scan sep k s'
      | 0 =>
          if String.prefix sep s
          then (EmptyString,
                let '(h, t) := split_scan sep (String.length sep - 1) s' in h :: t)
          else let '(h, t) := split_scan sep 0 s' in (String c h, t)
      end
  end.

Definition split (sep s : string) : list string :=
  let '(h, t) := split_scan sep 0 s in h :: t.

End Text.

Module PlaylistFetch.

Import Text.

(** The class of the regular expression: the characters [<], [>],
    [:], the double quote, [/], the backslash, [|], [?] and the star,
    by their codes. *)
Definition special (c : ascii) : bool :=
  bool_decide (nat_of_ascii c ∈ [60; 62; 58; 34; 47; 92; 124; 63; 42]).

Definition dot_or_space (c : ascii) : bool :=
  Ascii.eqb c "."%char || Ascii.eqb c " "%char.

Definition sanitize_filename (name : string) : string :=
  let name := replace_char " " "_" name in
  let name := remove_chars special name in
  strip_chars dot_or_space name.

(** [l[-1]] and [l[0]] are taken on the list of a [split], which is
    never empty. *)
Definition extract_playlist_id (playlist_url : string) : string :=
  if str_contains "spotify.com" playlist_url then
    List.hd "" (split "?" (List.last (split "playlist/" playlist_url) ""))
  else playlist_url.

(** An image of an album, as the Web API describes it: [img.get('url')]
    and the key [height], which may be missing. *)
Record Image : Type := { image_url : value; image_height : option value }.

(** [img.get('height') == 300] *)
Definition height_is_300 (img : Image) : bool :=
  bool_decide (image_height img = Some (VNum 300)).

(** [img.get('height', 0) > 300]: a height that is no number cannot be
    compared. *)
Definition height_above_300 (img : Image) : outcome bool :=
  match image_height img with
  | None => Returned false
  | Some (VNum h) => Returned (if Rlt_dec 300 h then true else false)
  | Some _ => Raised "TypeError"
  end.

(** The inner loop over the images for one [size]; only the size
    ['large'] looks at the heights above 300. *)
Fixpoint scan_images (large : bool) (images : list Image) : outcome (option value) :=
  match images with
  | [] => Returned None
  | img :: rest =>
      if height_is_300 img then Returned (Some (image_url img))
      else if large then
        match height_above_300 img with
        | Returned true => Returned (Some (image_url img))
        | Returned false => scan_images large rest
        | Raised e => Raised e
        end
      else scan_images large rest
  end.

(** The loop over ['medium'], ['large'] and ['small']. *)
Fixpoint scan_sizes (sizes : list bool) (images : list Image) : outcome (option value) :=
  match sizes with
  | [] => Returned None
  | large :: sizes' =>
      found ← scan_images large images;
      match found with
      | Some url => Returned (Some url)
      | None => scan_sizes sizes' images
      end
  end.

Definition get_album_art_url (images : list Image) : outcome value :=
  match images with
  | [] => Returned VNone
  | first :: _ =>
      found ← scan_sizes [false; true; false] images;
      match found with
      | Some url => Returned url
      | None => Returned (image_url first)
      end
  end.

(** The parts of an item of [playlist_tracks] that the loop reads:
    [track.get('id')] and [track.get('preview_url')] are [None] when
    the key is missing, the other keys are subscripted. *)
Record Album : Type := {
  album_name : value;
  album_images : list Image;
  album_release_date : value
}.

Record SpotifyTrack : Type := {
  spotify_id : value;
  spotify_name : value;
  spotify_artists : list value;
  spotify_album : Album;
  spotify_duration_ms : value;
  spotify_popularity : value;
  spotify_url : value;
  spotify_preview_url : value
}.

(** [item['track']], which is [None] for a track that was removed. *)
Record Item : Type := { item_track : option SpotifyTrack }.

Section playlist_tracks_basic.

(** [round(x, 2)] *)
Variable round2 : R -> R.

Definition track_info (track : SpotifyTrack) : outcome Track :=
  album_art_url ← get_album_art_url (album_images (spotify_album track));
  duration_min ← match spotify_duration_ms track with
                 | VNum ms => Returned (VNum (round2 (ms / 60000)))
                 | _ => Raised "TypeError"
                 end;
  Returned (<["preview_url" := spotify_preview_url track]>
           (<["track_url" := spotify_url track]>
           (<["track_id" := spotify_id track]>
           (<["popularity" := spotify_popularity track]>
           (<["duration_min" := duration_min]>
           (<["duration_ms" := spotify_duration_ms track]>
           (<["album_release_date" := album_release_date (spotify_album track)]>
           (<["album_art_url" := album_art_url]>
           (<["album" := album_name (spotify_album track)]>
           (<["artists" := VList (spotify_artists track)]>
           (<["title" := spotify_name track]> ∅))))))))))).

(** The loop that builds [track_info_list] from the items of all the
    pages. *)
Fixpoint track_info_list (items : list Item) : outcome (list Track) :=
  match items with
  | [] => Returned []
  | item :: rest =>
      match item_track item with
      | None => track_info_list rest
      | Some track =>
          if negb (truthy (spotify_id track)) then track_info_list rest
          else
            info ← track_info track;
            infos ← track_info_list rest;
            Returned (info :: infos)
      end
  end.

(** The pages of [playlist_tracks] are chained into one list of
    items. *)
Definition get_playlist_tracks_basic (pages : list (list Item)) (playlist_name : string)
    : outcome (list Track * string) :=
  infos ← track_info_list (concat pages);
  Returned (infos, playlist_name).

End playlist_tracks_basic.

End PlaylistFetch.

Section sanitize_properties.

Import Text PlaylistFetch.

Lemma replace_char_all (a b : ascii) (s : string) :
  a ≠ b -> str_all (fun c => negb (Ascii.eqb c a)) (replace_char a b s) = true.
Proof.
  intros Hne. induction s as [|c s IH]; [done|]. simpl. rewrite IH, andb_true_r.
  destruct (Ascii.eqb_spec c a) as [->|Hc].
  - apply negb_true_iff, Ascii.eqb_neq. congruence.
  - by apply negb_true_iff, Ascii.eqb_neq.
Qed.

Lemma remove_chars_all (cls : ascii -> bool) (s : string) :
  str_all (fun c => negb (cls c)) (remove_chars cls s) = true.
Proof.
  induction s as [|c s IH]; [done|]. simpl.
  destruct (cls c) eqn:Hc; [done|]. simpl. by rewrite Hc, IH.
Qed.

Lemma remove_chars_keeps (p cls : ascii -> bool) (s : string) :
  str_all p s = true -> str_all p (remove_chars cls s) = true.
Proof.
  induction s as [|c s IH]; [done|]. simpl. intros [Hc Hs]%andb_true_iff.
  destruct (cls c); [by apply IH|]. simpl. by rewrite Hc, IH.
Qed.

Lemma lstrip_chars_keeps (p cls : ascii -> bool) (s : string) :
  str_all p s = true -> str_all p (lstrip_chars cls s) = true.
Proof.
  induction s as [|c s IH]; [done|]. simpl. intros Hall.
  destruct (cls c); [|done]. apply andb_true_iff in Hall as [_ Hs]. by apply IH.
Qed.

Lemma rstrip_chars_keeps (p cls : ascii -> bool) (s : string) :
  str_all p s = true -> str_all p (rstrip_chars cls s) = true.
Proof.
  induction s as [|c s IH]; [done|]. simpl. intros [Hc Hs]%andb_true_iff.
  specialize (IH Hs). destruct (rstrip_chars cls s) as [|c' r].
  - destruct (cls c); [done|]. simpl. by rewrite Hc.
  - simpl in *. by rewrite Hc, IH.
Qed.

Lemma lstrip_chars_first (cls : ascii -> bool) (s : string) (c : ascii) :
  str_first (lstrip_chars cls s) = Some c -> cls c = false.
Proof.
  induction s as [|c0 s IH]; [done|]. simpl.
  destruct (cls c0) eqn:Hc0; [done|]. simpl. by intros [= <-].
Qed.

Lemma rstrip_chars_last (cls : ascii -> bool) (s : string) (c : ascii) :
  str_last (rstrip_chars cls s) = Some c -> cls c = false.
Proof.
  induction s as [|c0 s IH]; [done|]. simpl.
  destruct (rstrip_chars cls s) as [|c' r].
  - destruct (cls c0) eqn:Hc0; [done|]. simpl. by intros [= <-].
  - done.
Qed.

Lemma rstrip_chars_first (cls : ascii -> bool) (s : string) (c : ascii) :
  str_first (rstrip_chars cls s) = Some c -> str_first s = Some c.
Proof.
  destruct s as [|c0 s]; [done|]. simpl.
  destruct (rstrip_chars cls s); [destruct (cls c0)|]; done.
Qed.

Lemma replace_char_id (a b : ascii) (s : string) :
  str_all (fun c => negb (Ascii.eqb c a)) s = true -> replace_char a b s = s.
Proof.
  induction s as [|c s IH]; [done|]. simpl. intros [Hc Hs]%andb_true_iff.
  apply negb_true_iff in Hc. by rewrite Hc, IH.
Qed.

Lemma remove_chars_id (cls : ascii -> bool) (s : string) :
  str_all (fun c => negb (cls c)) s = true -> remove_chars cls s = s.
Proof.
  induction s as [|c s IH]; [done|]. simpl. intros [Hc Hs]%andb_true_iff.
  apply negb_true_iff in Hc. by rewrite Hc, IH.
Qed.

Lemma lstrip_chars_id (cls : ascii -> bool) (s : string) :
  (forall c, str_first s = Some c -> cls c = false) -> lstrip_chars cls s = s.
Proof. destruct s as [|c s]; [done|]. simpl. intros Hc. by rewrite Hc. Qed.

Lemma rstrip_chars_id (cls : ascii -> bool) (s : string) :
  (forall c, str_last s = Some c -> cls c = false) -> rstrip_chars cls s = s.
Proof.
  induction s as [|c s IH]; [done|]. simpl. intros Hlast.
  destruct s as [|c' s].
  - simpl. by rewrite Hlast.
  - rewrite IH by done. done.
Qed.

(** A name that can be used for a file as it is. *)
Definition safe_char (c : ascii) : bool :=
  negb (Ascii.eqb c " "%char) && negb (special c).

Definition safe_name (s : string) : Prop :=
  str_all safe_char s = true /\
  str_first s ≠ Some "."%char /\ str_last s ≠ Some "."%char.

Lemma str_all_and (p q : ascii -> bool) (s : string) :
  str_all p s = true -> str_all q s = true -> str_all (fun c => p c && q c) s = true.
Proof.
  induction s as [|c s IH]; [done|]. simpl.
  intros [-> Hp]%andb_true_iff [-> Hq]%andb_true_iff. by rewrite IH.
Qed.

Lemma str_all_impl (p q : ascii -> bool) (s : string) :
  (forall c, p c = true -> q c = true) -> str_all p s = true -> str_all q s = true.
Proof.
  intros Hpq. induction s as [|c s IH]; [done|]. simpl.
  intros [Hc Hs]%andb_true_iff. by rewrite (Hpq c Hc), IH.
Qed.

Lemma str_all_first (p : ascii -> bool) (s : string) (c : ascii) :
  str_all p s = true -> str_first s = Some c -> p c = true.
Proof. destruct s; [done|]. simpl. by intros [? _]%andb_true_iff [= <-]. Qed.

Lemma str_all_last (p : ascii -> bool) (s : string) (c : ascii) :
  str_all p s = true -> str_last s = Some c -> p c = true.
Proof.
  induction s as [|c0 s IH]; [done|]. simpl. intros [Hc Hs]%andb_true_iff.
  destruct s; [by intros [= <-] | by apply IH].
Qed.

Lemma sanitize_filename_safe_name (s : string) : safe_name s -> sanitize_filename s = s.
Proof.
  intros (Hall & Hfirst & Hlast). unfold sanitize_filename, strip_chars.
  rewrite replace_char_id.
  2: { eapply str_all_impl; [|done]. unfold safe_char. by intros c [? _]%andb_true_iff. }
  rewrite remove_chars_id.
  2: { eapply str_all_impl; [|done]. unfold safe_char. by intros c [_ ?]%andb_true_iff. }
  assert (forall c, safe_char c = true -> c ≠ "."%char -> dot_or_space c = false) as Hcls.
  { intros c [Hsp _]%andb_true_iff Hdot. unfold dot_or_space.
    apply negb_true_iff in Hsp. rewrite Hsp, orb_false_r. by apply Ascii.eqb_neq. }
  rewrite lstrip_chars_id.
  2: { intros c Hc. apply Hcls; [by eapply str_all_first | congruence]. }
  apply rstrip_chars_id. intros c Hc. apply Hcls; [by eapply str_all_last | congruence].
Qed.

Lemma sanitize_filename_is_safe (name : string) : safe_name (sanitize_filename name).
Proof.
  unfold sanitize_filename, strip_chars. split; [|split].
  - apply rstrip_chars_keeps, lstrip_chars_keeps. unfold safe_char.
    apply str_all_and; [apply remove_chars_keeps, replace_char_all | apply remove_chars_all].
    done.
  - intros Hfirst. apply rstrip_chars_first, lstrip_chars_first in Hfirst. done.
  - intros Hlast. apply rstrip_chars_last in Hlast. done.
Qed.

(** X9. [sanitize_filename] returns a name that holds no space and
    none of the special characters that the regular expression removes
    and that neither starts nor ends with a dot; a name that is like
    this already is returned as it is, so sanitizing twice is
    sanitizing once. *)
Theorem sanitize_filename_safe (name : string) :
  safe_name (sanitize_filename name) /\
  sanitize_filename (sanitize_filename name) = sanitize_filename name /\
  forall s, safe_name s -> sanitize_filename s = s.
Proof.
  split; [apply sanitize_filename_is_safe|].
  split; [apply sanitize_filename_safe_name, sanitize_filename_is_safe|].
  apply sanitize_filename_safe_name.
Qed.

End sanitize_properties.

Section album_art_properties.

Import PlaylistFetch.

(** The heights that the comparison accepts, and those above 300. *)
Definition comparable (img : Image) : Prop := is_returned (height_above_300 img).

Definition above_300 (img : Image) : bool :=
  match height_above_300 img with
  | Returned above => above
  | Raised _ => false
  end.

Lemma scan_images_medium (images : list Image) :
  scan_images false images = Returned (image_url <$> List.find height_is_300 images).
Proof.
  induction images as [|img images IH]; [done|]. simpl.
  by destruct (height_is_300 img).
Qed.

Lemma scan_images_large (images : list Image) :
  List.find height_is_300 images = None -> Forall comparable images ->
  scan_images true images = Returned (image_url <$> List.find above_300 images).
Proof.
  intros Hnone Hall. induction Hall as [|img images [above Himg] _ IH]; [done|].
  simpl in *. destruct (height_is_300 img); [done|].
  unfold above_300. rewrite Himg. destruct above; [done|]. by apply IH.
Qed.

(** X10. The image that [get_album_art_url] chooses: [None] without
    images; the first image of height 300 when there is one, whatever
    the other images are; otherwise, when every height is a number or
    is missing, the first image that is higher than 300, which need not
    be the largest, and the first image of the list when none is. *)
Theorem get_album_art_url_choice (images : list Image) :
  match images with
  | [] => get_album_art_url images = Returned VNone
  | first :: _ =>
      match List.find height_is_300 images with
      | Some img => get_album_art_url images = Returned (image_url img)
      | None =>
          Forall comparable images ->
          get_album_art_url images
          = Returned (image_url (default first (List.find above_300 images)))
      end
  end.
Proof.
  destruct images as [|first rest]; [done|].
  change (get_album_art_url (first :: rest))
    with (found ← scan_sizes [false; true; false] (first :: rest);
          match found with
          | Some url => Returned url
          | None => Returned (image_url first)
          end).
  generalize (first :: rest). intros images.
  cbn [scan_sizes]. rewrite scan_images_medium.
  destruct (List.find height_is_300 images) as [img|] eqn:Hmedium; [done|].
  intros Hall. cbn [fmap option_fmap option_map mbind outcome_bind].
  rewrite scan_images_large by done.
  destruct (List.find above_300 images) as [img|]; [done|].
  cbn [fmap option_fmap option_map mbind outcome_bind].
  by rewrite ?scan_images_medium, ?Hmedium.
Qed.

End album_art_properties.

Section basic_tracks_properties.

Import PlaylistFetch.

Variable round2 : R -> R.

(** A track as the Spotify fetch delivers it: with an id, with a list
    for its artists, and without any field of the enrichment. *)
Definition basic_track (t : Track) : Prop :=
  truthy (dict_get t "track_id") = true /\
  (exists names, t !! "artists" = Some (VList names)) /\
  (forall k, k ∈ ["tempo"; "audio_features_error"; "lyrics"; "lyrics_source";
                  "genius_url"; "sentiment_score"; "sentiment_chunks"; "stanza_scores";
                  "sentiment_error"; "normalized_sentiment"; "raw_sentiment"] ->
             t !! k = None).

Lemma basic_track_typed (t : Track) :
  basic_track t -> artists_ok t /\ fresh t /\ score_typed t.
Proof.
  intros (_ & [names Hnames] & Hnone). split; [|split].
  - unfold artists_ok. by rewrite Hnames.
  - intros k [-> | ->]%tempo_key_cases; apply Hnone; closed_key.
  - unfold score_typed, dict_get. rewrite Hnone; [done | closed_key].
Qed.

Lemma track_info_basic (track : SpotifyTrack) (info : Track) :
  truthy (spotify_id track) = true ->
  track_info round2 track = Returned info ->
  basic_track info /\ dict_get info "track_id" = spotify_id track.
Proof.
  intros Hid. unfold track_info.
  destruct (get_album_art_url _) as [art|e]; cbn [mbind outcome_bind]; [|done].
  destruct (spotify_duration_ms track) as [|ms|s|l]; cbn [mbind outcome_bind]; try done.
  intros [= <-].
  split; [split; [|split]|].
  - unfold dict_get. rewrite !lookup_insert. by repeat case_decide.
  - exists (spotify_artists track). rewrite !lookup_insert. by repeat case_decide.
  - intros k Hk. repeat (apply elem_of_cons in Hk as [->|Hk]).
    all: try by rewrite !lookup_insert_ne.
    by apply elem_of_nil in Hk.
  - unfold dict_get. rewrite !lookup_insert. by repeat case_decide.
Qed.

(** X11. The tracks that [get_playlist_tracks_basic] builds: an item
    without a track or whose track has no id is skipped, the other
    tracks keep their order and their ids, and each of them has a
    truthy [track_id], a list for its [artists] and none of the fields
    that the enrichment writes: it is a track as the pools, the
    parallel flow and the normalisation pass expect it. *)
Theorem track_info_list_basic (items : list Item) (infos : list Track) :
  track_info_list round2 items = Returned infos ->
  Forall (fun t => basic_track t /\ artists_ok t /\ fresh t /\ score_typed t) infos /\
  (fun t => dict_get t "track_id") <$> infos
  = List.filter truthy (spotify_id <$> omap item_track items).
Proof.
  revert infos. induction items as [|item items IH]; intros infos.
  - by intros [= <-].
  - cbn [track_info_list omap list_omap].
    destruct (item_track item) as [track|]; [|apply IH].
    cbn [fmap list_fmap List.filter].
    destruct (truthy (spotify_id track)) eqn:Hid; cbn [negb]; [|apply IH].
    destruct (track_info round2 track) as [info|e] eqn:Hinfo; cbn [mbind outcome_bind];
      [|done].
    destruct (track_info_list round2 items) as [rest|e]; cbn [mbind outcome_bind]; [|done].
    intros [= <-]. destruct (IH rest eq_refl) as [Hall Hids].
    destruct (track_info_basic track info Hid Hinfo) as [Hbasic Hinfo_id].
    split.
    + constructor; [|done]. split; [done|]. by apply basic_track_typed.
    + cbn [fmap list_fmap]. by rewrite Hinfo_id, Hids.
Qed.

End basic_tracks_properties.

(** A page of two items, the second of which was removed from the
    catalogue. *)
Definition sample_items : list PlaylistFetch.Item :=
  [ {| PlaylistFetch.item_track := Some
         {| PlaylistFetch.spotify_id := VStr "a";
            PlaylistFetch.spotify_name := VStr "Song A";
            PlaylistFetch.spotify_artists := [VStr "Ann"];
            PlaylistFetch.spotify_album :=
              {| PlaylistFetch.album_name := VStr "Album";
                 PlaylistFetch.album_images := [];
                 PlaylistFetch.album_release_date := VStr "2020-01-01" |};
            PlaylistFetch.spotify_duration_ms := VNum 180000;
            PlaylistFetch.spotify_popularity := VNum 50;
            PlaylistFetch.spotify_url := VStr "https://open.spotify.com/track/a";
            PlaylistFetch.spotify_preview_url := VNone |} |};
    {| PlaylistFetch.item_track := None |} ].

Lemma track_info_list_basic_witness :
  match PlaylistFetch.track_info_list (fun x => x) sample_items with
  | Returned infos => (fun t => dict_get t "track_id") <$> infos = [VStr "a"]
  | Raised _ => False
  end.
Proof.
  destruct (PlaylistFetch.track_info_list (fun x => x) sample_items) as [infos|e]
    eqn:Hinfos.
  - destruct (track_info_list_basic (fun x => x) sample_items infos Hinfos) as [_ Hids].
    exact Hids.
  - assert (match PlaylistFetch.track_info_list (fun x => x) sample_items with
            | Returned _ => true
            | Raised _ => false
            end = true) as Hreturned by (vm_compute; reflexivity).
    rewrite Hinfos in Hreturned. discriminate Hreturned.
Defined.

(** ** Strings: occurrences, replacement and splitting *)

(** The comparisons of a prefix test on a text that starts with known
    characters, one after the other. *)
Ltac scan_prefix H :=
  cbv [String.append String.prefix] in H;
  repeat match type of H with
         | context [ascii_dec ?a ?b] =>
             destruct (ascii_dec a b) as [?Heq|?Hne];
             [try discriminate Heq; try subst b | try discriminate H]
         end.

Section text_properties.

Import Text.

Lemma str_app_cons (c : ascii) (a r : string) : String c a +:+ r = String c (a +:+ r).
Proof. reflexivity. Qed.

Lemma str_app_assoc (a b c : string) : (a +:+ b) +:+ c = a +:+ (b +:+ c).
Proof. induction a as [|x a IH]; [done|]. by rewrite !str_app_cons, IH. Qed.

Lemma str_app_nil_r (a : string) : a +:+ "" = a.
Proof. induction a as [|x a IH]; [done|]. by rewrite str_app_cons, IH. Qed.

Lemma prefix_app (a r : string) : String.prefix a (a +:+ r) = true.
Proof.
  induction a as [|c a IH]; [by destruct r|]. rewrite str_app_cons. simpl.
  by destruct (ascii_dec c c).
Qed.

Lemma prefix_app_inv (a b : string) :
  String.prefix a b = true -> exists r, b = a +:+ r.
Proof.
  revert b. induction a as [|c a IH]; intros b; [by exists b|].
  destruct b as [|c' b]; [done|]. simpl.
  destruct (ascii_dec c c') as [<-|]; [|done].
  intros [r ->]%IH. by exists r.
Qed.

Lemma prefix_mono (a b r : string) :
  String.prefix a b = true -> String.prefix a (b +:+ r) = true.
Proof.
  intros [x ->]%prefix_app_inv. rewrite str_app_assoc. apply prefix_app.
Qed.

Lemma str_contains_cons (sep : string) (c : ascii) (s : string) :
  str_contains sep (String c s) = String.prefix sep (String c s) || str_contains sep s.
Proof.
  unfold str_contains. cbn [str_before].
  destruct (String.prefix sep (String c s)); [done|]. simpl.
  by destruct (str_before sep s).
Qed.

Lemma str_contains_nil (sep : string) : sep ≠ "" -> str_contains sep "" = false.
Proof. by destruct sep. Qed.

Lemma str_contains_prefix (sep s : string) :
  String.prefix sep s = true -> str_contains sep s = true.
Proof.
  intros Hp. unfold str_contains. destruct s; cbn [str_before]; by rewrite Hp.
Qed.

(** An occurrence in a part is an occurrence in the whole. *)
Lemma str_contains_app_l (sep s r : string) :
  str_contains sep s = true -> str_contains sep (s +:+ r) = true.
Proof.
  induction s as [|c s IH].
  - unfold str_contains. simpl. destruct sep; [|done]. intros _. by destruct r.
  - rewrite str_contains_cons. intros [Hp|Hs]%orb_true_iff.
    + apply str_contains_prefix. by apply (prefix_mono _ (String c s)).
    + rewrite str_app_cons, str_contains_cons, (IH Hs). apply orb_true_r.
Qed.

Lemma str_contains_app_r (sep x s : string) :
  str_contains sep s = true -> str_contains sep (x +:+ s) = true.
Proof.
  intros Hs. induction x as [|c x IH]; [done|].
  rewrite str_app_cons, str_contains_cons, IH. apply orb_true_r.
Qed.

(** No occurrence of [.json] overlaps another one: the dot is its first
    character only. *)
Lemma json_no_overlap (x rest : string) :
  x ≠ "" ->
  String.prefix ".json" (x +:+ ".json" +:+ rest) = true ->
  String.prefix ".json" x = true.
Proof.
  intros Hx H.
  destruct x as [|c1 [|c2 [|c3 [|c4 [|c5 x]]]]]; [done|..]; scan_prefix H.
  by destruct x.
Qed.

Lemma replace_scan_skip (old new x s : string) :
  replace_scan old new (String.length x) (x +:+ s) = replace_scan old new 0 s.
Proof. induction x as [|c x IH]; [done|]. rewrite str_app_cons. simpl. apply IH. Qed.

(** The two cases of a step of the replacement of [.json] in a file
    name. *)
Lemma replace_json_match (t : string) :
  replace_sub ".json" "" (".json" +:+ t) = replace_sub ".json" "" t.
Proof.
  unfold replace_sub. pose proof (prefix_app ".json" t) as Hp.
  change (".json" +:+ t) with (String "." ("json" +:+ t)) in *.
  cbn [replace_scan]. rewrite Hp.
  apply (replace_scan_skip ".json" "" "json" t).
Qed.

Lemma replace_json_pass (c : ascii) (s : string) :
  String.prefix ".json" (String c s) = false ->
  replace_sub ".json" "" (String c s) = String c (replace_sub ".json" "" s).
Proof. intros Hp. unfold replace_sub. cbn [replace_scan]. by rewrite Hp. Qed.

(** A stem without [.json]: the replacement removes the extension,
    and nothing else. *)
Lemma replace_json_stem (stem : string) :
  str_contains ".json" stem = false ->
  replace_sub ".json" "" (stem +:+ ".json") = stem.
Proof.
  induction stem as [|c stem IH]; [done|].
  rewrite str_contains_cons. intros [Hp Hs]%orb_false_iff.
  rewrite str_app_cons, replace_json_pass, IH; [done..|].
  destruct (String.prefix ".json" (String c (stem +:+ ".json"))) eqn:Hq; [|done].
  rewrite <- Hp. symmetry. apply (json_no_overlap (String c stem) ""); [done|].
  by rewrite str_app_nil_r.
Qed.

(** The extension is removed in every case. *)
Lemma replace_json_length (n : nat) (t : string) :
  String.length t <= n ->
  String.length (replace_sub ".json" "" (t +:+ ".json")) <= String.length t.
Proof.
  revert t. induction n as [|n IH]; intros t Hn.
  { destruct t; [done | simpl in Hn; lia]. }
  destruct t as [|c t]; [done|].
  destruct (String.prefix ".json" (String c t +:+ ".json")) eqn:Hq.
  - apply (json_no_overlap (String c t) "") in Hq as [r Hr]%prefix_app_inv; [|done].
    rewrite Hr, str_app_assoc, replace_json_match, str_length_app.
    assert (String.length r <= n) as Hr'.
    { apply (f_equal String.length) in Hr. rewrite str_length_app in Hr.
      simpl in Hr, Hn. lia. }
    specialize (IH r Hr'). simpl. lia.
  - rewrite str_app_cons in *. rewrite replace_json_pass by done. simpl in *.
    specialize (IH t). lia.
Qed.

(** A stem with [.json]: the replacement removes more than the
    extension. *)
Lemma replace_json_shorter (stem : string) :
  str_contains ".json" stem = true ->
  String.length (replace_sub ".json" "" (stem +:+ ".json")) + 5 <= String.length stem.
Proof.
  induction stem as [|c stem IH]; [done|].
  rewrite str_contains_cons.
  destruct (String.prefix ".json" (String c stem)) eqn:Hp.
  - intros _. apply prefix_app_inv in Hp as [r Hr].
    rewrite Hr, str_app_assoc, replace_json_match, str_length_app.
    pose proof (replace_json_length (String.length r) r (le_n _)). simpl. lia.
  - simpl. intros Hs. rewrite str_app_cons, replace_json_pass.
    + specialize (IH Hs). simpl. lia.
    + destruct (String.prefix ".json" (String c (stem +:+ ".json"))) eqn:Hq; [|done].
      rewrite <- Hp. symmetry. apply (json_no_overlap (String c stem) ""); [done|].
      by rewrite str_app_nil_r.
Qed.

Lemma replace_char_length (a b : ascii) (s : string) :
  String.length (replace_char a b s) = String.length s.
Proof. induction s as [|c s IH]; simpl; [done|]. by rewrite IH. Qed.

(** Underscores shown as spaces are found again as underscores, in a
    text without spaces. *)
Lemma replace_char_back (a b : ascii) (s : string) :
  str_all (fun c => negb (Ascii.eqb c b)) s = true ->
  replace_char b a (replace_char a b s) = s.
Proof.
  induction s as [|c s IH]; [done|]. simpl. intros [Hc Hs]%andb_true_iff.
  rewrite (IH Hs). f_equal. apply negb_true_iff in Hc.
  destruct (Ascii.eqb_spec c a) as [->|Hca]; [by rewrite Ascii.eqb_refl|].
  by rewrite Hc.
Qed.

Lemma replace_char_twice (a b : ascii) (s : string) :
  a ≠ b -> replace_char a b (replace_char a b s) = replace_char a b s.
Proof. intros Hne. apply replace_char_id. by apply replace_char_all. Qed.

Lemma str_endswith_app (suffix s : string) : str_endswith suffix (s +:+ suffix) = true.
Proof.
  induction s as [|c s IH].
  - destruct suffix; simpl; [done|]. by rewrite Ascii.eqb_refl, String.eqb_refl.
  - rewrite str_app_cons. simpl. rewrite IH. apply orb_true_r.
Qed.

End text_properties.

(** ** backend/pipeline.py and backend/main.py: the files of the playlists

    [save_playlist_json] writes a collection to a file of the directory
    [playlists], [list_playlists] shows the files of the directory
    under the names it reads off the file names, and [get_playlist]
    opens the file of a name. *)

Module Pipeline.

Import Text PlaylistFetch.

(** What [json.load] makes of a file: a list, another JSON value (an
    object or a string has a length, a number, a boolean and [null]
    have none), or an exception. *)
Inductive document : Type :=
| JsonList (tracks : list Track)
| JsonOther (len : option nat)
| NotJson.

(** The directory [playlists], by file name; a directory that is
    missing lists no file and has none, as an empty one. *)
Definition directory : Type := gmap string document.

(** The path that is returned, and the directory after the call.  A
    sanitized name holds no [/], so that [os.path.join] puts the file
    into the directory. *)
Definition save_playlist_json (tracks : list Track) (playlist_name : string)
    (playlists : directory) : string * directory :=
  let safe_filename := sanitize_filename playlist_name in
  ("playlists/" +:+ safe_filename +:+ ".json",
   <[safe_filename +:+ ".json" := JsonList tracks]> playlists).

End Pipeline.

Module SavedPlaylists.

Import Text Pipeline.

Record Summary : Type := {
  summary_name : string;
  summary_filename : string;
  summary_track_count : nat
}.

(** The body of the loop of [list_playlists]: a file that cannot be
    read is passed over. *)
Definition summary (filename : string) (data : document) : option Summary :=
  let name := replace_char "_" " " (replace_sub ".json" "" filename) in
  match data with
  | JsonList tracks => Some (Build_Summary name filename (length tracks))
  | JsonOther _ => Some (Build_Summary name filename 0)
  | NotJson => None
  end.

Definition list_playlists (playlists : directory) : list Summary :=
  let playlist_files :=
    List.filter (fun file => str_endswith ".json" file.1) (map_to_list playlists) in
  omap (fun file => summary file.1 file.2) playlist_files.

Inductive response (A : Type) : Type :=
| Ok (body : A)
| HttpError (status_code : nat).
Arguments Ok {A} body.
Arguments HttpError {A} status_code.

Record Playlist : Type := {
  playlist_name : string;
  track_count : nat;
  tracks : document
}.

(** The file that [get_playlist] opens for a name; a name without [/]
    stays in the directory, which is all that [directory] describes. *)
Definition playlist_file (name : string) : string :=
  let safe_name := replace_char " " "_" name in
  safe_name +:+ ".json".

Definition get_playlist (name : string) (playlists : directory) : response Playlist :=
  match playlists !! playlist_file name with
  | None => HttpError 404
  | Some NotJson => HttpError 500
  | Some (JsonOther None) => HttpError 500
  | Some (JsonOther (Some n)) =>
      Ok (Build_Playlist (replace_char "_" " " name) n (JsonOther (Some n)))
  | Some (JsonList tracks) =>
      Ok (Build_Playlist (replace_char "_" " " name) (length tracks) (JsonList tracks))
  end.

End SavedPlaylists.

Section saved_playlists_properties.

Import Text PlaylistFetch Pipeline SavedPlaylists.

Lemma sanitize_filename_no_space (name : string) :
  str_all (fun c => negb (Ascii.eqb c " "%char)) (sanitize_filename name) = true.
Proof.
  destruct (sanitize_filename_is_safe name) as [Hall _].
  eapply str_all_impl; [|done]. unfold safe_char. by intros c [? _]%andb_true_iff.
Qed.

(** X12. A saved playlist in the list of the playlists: after
    [save_playlist_json], [list_playlists] shows the file with the
    number of its tracks.  When the sanitized name holds no [.json],
    the name shown is the sanitized name with spaces for underscores,
    and [get_playlist] of that name opens the file and returns the
    collection that was saved.  When the sanitized name holds [.json],
    the name shown leads [get_playlist] to another file. *)
Theorem saved_playlist_reopened (saved : list Track) (name : string)
    (playlists : directory) :
  let stem := sanitize_filename name in
  let playlists' := (save_playlist_json saved name playlists).2 in
  let shown := replace_char "_" " " (replace_sub ".json" "" (stem +:+ ".json")) in
  Build_Summary shown (stem +:+ ".json") (length saved) ∈ list_playlists playlists' /\
  (str_contains ".json" stem = false ->
   shown = replace_char "_" " " stem /\
   get_playlist shown playlists' = Ok (Build_Playlist shown (length saved) (JsonList saved))) /\
  (str_contains ".json" stem = true -> playlist_file shown ≠ stem +:+ ".json").
Proof.
  intros stem playlists' shown. split; [|split].
  - unfold list_playlists. apply list_elem_of_omap.
    exists (stem +:+ ".json", JsonList saved). split; [|done].
    apply list_elem_of_In, filter_In. split; [|apply str_endswith_app].
    apply list_elem_of_In, elem_of_map_to_list.
    unfold playlists', save_playlist_json. simpl. apply lookup_insert_eq.
  - intros Hstem.
    assert (shown = replace_char "_" " " stem) as Hshown.
    { unfold shown. by rewrite replace_json_stem. }
    split; [done|]. unfold get_playlist, playlist_file. rewrite Hshown.
    rewrite replace_char_back by apply sanitize_filename_no_space.
    unfold playlists', save_playlist_json. simpl. fold stem.
    assert (<[stem +:+ ".json" := JsonList saved]> playlists !! (stem +:+ ".json")
            = Some (JsonList saved)) as -> by apply lookup_insert_eq.
    by rewrite replace_char_twice.
  - intros Hstem Hfile. apply (f_equal String.length) in Hfile.
    unfold playlist_file, shown in Hfile.
    rewrite !str_length_app, !replace_char_length in Hfile.
    pose proof (replace_json_shorter stem Hstem). simpl in Hfile. lia.
Qed.

End saved_playlists_properties.

Lemma saved_playlist_reopened_witness :
  SavedPlaylists.get_playlist "My Mix" (Pipeline.save_playlist_json [track_a] "My Mix" ∅).2
  = SavedPlaylists.Ok
      (SavedPlaylists.Build_Playlist "My Mix" 1 (Pipeline.JsonList [track_a])) /\
  SavedPlaylists.playlist_file "Mix 2024" ≠ "Mix.json_2024.json".
Proof.
  destruct (saved_playlist_reopened [track_a] "My Mix" ∅) as (_ & Hplain & _).
  destruct (saved_playlist_reopened [] "Mix.json 2024" ∅) as (_ & _ & Hjson).
  split.
  - apply Hplain. reflexivity.
  - apply Hjson. reflexivity.
Defined.

(** ** backend/playlist_fetch.py: the id of a playlist link *)

Section extract_playlist_id_properties.

Import Text PlaylistFetch.

Lemma split_scan_skip (sep x s : string) :
  split_scan sep (String.length x) (x +:+ s) = split_scan sep 0 s.
Proof. induction x as [|c x IH]; [done|]. rewrite str_app_cons. simpl. apply IH. Qed.

(** A text without separator is one segment, and only such a text
    is. *)
Lemma split_scan_none (sep s : string) :
  str_contains sep s = false -> split_scan sep 0 s = (s, []).
Proof.
  induction s as [|c s IH]; [done|].
  rewrite str_contains_cons. intros [Hp Hs]%orb_false_iff.
  cbn [split_scan]. by rewrite Hp, (IH Hs).
Qed.

Lemma split_scan_whole (sep s h : string) : split_scan sep 0 s = (h, []) -> h = s.
Proof.
  revert h. induction s as [|c s IH]; intros h.
  - by intros [= <-].
  - cbn [split_scan]. destruct (String.prefix sep (String c s)).
    + destruct (split_scan sep (String.length sep - 1) s) as [h0 t0]. intros H.
      discriminate H.
    + destruct (split_scan sep 0 s) as [h' t'] eqn:Hs. intros [= <- ->].
      by rewrite (IH h').
Qed.

(** The first segment starts the text, and holds no separator. *)
Lemma first_segment_prefix (sep s : string) :
  exists r, s = (split_scan sep 0 s).1 +:+ r.
Proof.
  induction s as [|c s [r IH]]; [by exists ""|].
  cbn [split_scan]. destruct (String.prefix sep (String c s)).
  - by exists (String c s).
  - destruct (split_scan sep 0 s) as [h t]. cbn [fst snd] in *. exists r.
    by rewrite str_app_cons, <- IH.
Qed.

Lemma first_segment_clean (sep s : string) :
  sep ≠ "" -> str_contains sep (split_scan sep 0 s).1 = false.
Proof.
  intros Hsep. induction s as [|c s IH]; [by apply str_contains_nil|].
  cbn [split_scan]. destruct (String.prefix sep (String c s)) eqn:Hp.
  - by apply str_contains_nil.
  - destruct (first_segment_prefix sep s) as [r Hr].
    destruct (split_scan sep 0 s) as [h t]. cbn [fst snd] in *.
    rewrite str_contains_cons, IH, orb_false_r.
    destruct (String.prefix sep (String c h)) eqn:Hq; [|done].
    apply (prefix_mono _ _ r) in Hq. rewrite str_app_cons, <- Hr in Hq. congruence.
Qed.

(** The last segment holds no separator. *)
Lemma last_segment_clean (sep s : string) (k : nat) :
  sep ≠ "" ->
  str_contains sep (List.last ((split_scan sep k s).1 :: (split_scan sep k s).2) "") = false.
Proof.
  intros Hsep. revert k. induction s as [|c s IH]; intros k.
  { by apply str_contains_nil. }
  destruct k as [|k]; [|apply IH]. cbn [split_scan].
  destruct (String.prefix sep (String c s)) eqn:Hp.
  - specialize (IH (String.length sep - 1)).
    by destruct (split_scan sep _ s) as [h t].
  - specialize (IH 0). destruct (split_scan sep 0 s) as [h t] eqn:Hs.
    destruct t as [|x t]; [|done]. cbn [fst snd List.last] in *.
    apply split_scan_whole in Hs as ->. by rewrite str_contains_cons, Hp, IH.
Qed.

(** No occurrence of [playlist/] overlaps another one. *)
Lemma playlist_no_overlap (x rest : string) :
  x ≠ "" ->
  String.prefix "playlist/" (x +:+ "playlist/" +:+ rest) = true ->
  String.prefix "playlist/" x = true.
Proof.
  intros Hx H.
  destruct x as [|c1 [|c2 [|c3 [|c4 [|c5 [|c6 [|c7 [|c8 [|c9 x]]]]]]]]]; [done|..];
    scan_prefix H.
  by destruct x.
Qed.

Lemma split_playlist_match (t : string) :
  split_scan "playlist/" 0 ("playlist/" +:+ t)
  = ("", (split_scan "playlist/" 0 t).1 :: (split_scan "playlist/" 0 t).2).
Proof.
  pose proof (prefix_app "playlist/" t) as Hp.
  pose proof (split_scan_skip "playlist/" "laylist/" t) as Hskip.
  change ("playlist/" +:+ t) with (String "p" ("laylist/" +:+ t)) in *.
  cbn [split_scan]. rewrite Hp.
  change (String.length "playlist/" - 1) with (String.length "laylist/").
  rewrite Hskip. by destruct (split_scan "playlist/" 0 t).
Qed.

(** The segment after the last [playlist/] of a link. *)
Lemma last_segment_of_link (n : nat) (base rest : string) :
  String.length base <= n ->
  str_contains "playlist/" rest = false ->
  List.last (split "playlist/" (base +:+ "playlist/" +:+ rest)) "" = rest.
Proof.
  intros Hn Hrest. revert base Hn. induction n as [|n IH]; intros base Hn.
  - destruct base; [|simpl in Hn; lia]. unfold split.
    change ("" +:+ "playlist/" +:+ rest) with ("playlist/" +:+ rest).
    by rewrite split_playlist_match, split_scan_none.
  - destruct base as [|c base].
    { apply (IH ""). simpl. lia. }
    destruct (String.prefix "playlist/" (String c base +:+ "playlist/" +:+ rest)) eqn:Hp.
    + apply playlist_no_overlap in Hp as [r Hr]%prefix_app_inv; [|done].
      assert (String.length r <= n) as Hr'.
      { apply (f_equal String.length) in Hr. rewrite str_length_app in Hr.
        simpl in Hr, Hn. lia. }
      specialize (IH r Hr'). unfold split in *.
      rewrite Hr, str_app_assoc, split_playlist_match.
      by destruct (split_scan "playlist/" 0 (r +:+ "playlist/" +:+ rest)) as [h t].
    + assert (String.length base <= n) as Hb by (simpl in Hn; lia).
      specialize (IH base Hb). unfold split in *.
      rewrite (str_app_cons c base) in Hp |- *. cbn [split_scan]. rewrite Hp.
      destruct (split_scan "playlist/" 0 (base +:+ "playlist/" +:+ rest)) as [h t] eqn:Hs.
      destruct t as [|x t]; [|done]. cbn [List.last] in IH. subst h.
      apply split_scan_whole in Hs. apply (f_equal String.length) in Hs.
      rewrite !str_length_app in Hs. simpl in Hs. lia.
Qed.

(** The first segment of an id that a query follows. *)
Lemma first_segment_of_id (id query : string) :
  str_contains "?" id = false ->
  query = "" \/ String.prefix "?" query = true ->
  List.hd "" (split "?" (id +:+ query)) = id.
Proof.
  intros Hid Hquery. unfold split.
  assert ((split_scan "?" 0 (id +:+ query)).1 = id) as Hfirst.
  { induction id as [|c id IH].
    - destruct Hquery as [->|Hq]; [done|].
      destruct query as [|c q]; [done|].
      change ("" +:+ String c q) with (String c q). cbn [split_scan]. by rewrite Hq.
    - rewrite str_contains_cons in Hid. apply orb_false_iff in Hid as [Hp Hid].
      rewrite str_app_cons. cbn [split_scan].
      assert (String.prefix "?" (String c (id +:+ query)) = false) as ->.
      { cbn [String.prefix] in Hp |- *. destruct (ascii_dec "?" c); [|done].
        destruct id; discriminate Hp. }
      specialize (IH Hid). destruct (split_scan "?" 0 (id +:+ query)). cbn [fst snd] in *.
      by rewrite IH. }
  by destruct (split_scan "?" 0 (id +:+ query)).
Qed.

(** X13. [extract_playlist_id]: a text without [spotify.com] is taken
    for an id and returned as it is; the id of a link holds neither a
    [?] nor [playlist/]; for a link that ends with [playlist/], an id
    and possibly a query that starts with [?], the result is the id;
    a link without [playlist/] is not refused, its id is the link up
    to the query. *)
Theorem extract_playlist_id_cases (playlist_url : string) :
  (str_contains "spotify.com" playlist_url = false ->
   extract_playlist_id playlist_url = playlist_url) /\
  (str_contains "spotify.com" playlist_url = true ->
   str_contains "?" (extract_playlist_id playlist_url) = false /\
   str_contains "playlist/" (extract_playlist_id playlist_url) = false) /\
  (forall base id query,
     playlist_url = base +:+ "playlist/" +:+ id +:+ query ->
     str_contains "spotify.com" base = true ->
     str_contains "?" id = false ->
     str_contains "playlist/" (id +:+ query) = false ->
     query = "" \/ String.prefix "?" query = true ->
     extract_playlist_id playlist_url = id) /\
  (str_contains "spotify.com" playlist_url = true ->
   str_contains "playlist/" playlist_url = false ->
   extract_playlist_id playlist_url = List.hd "" (split "?" playlist_url)).
Proof.
  unfold extract_playlist_id. split; [|split; [|split]].
  - by intros ->.
  - intros ->. unfold split at 1 3.
    set (tail := List.last (split "playlist/" playlist_url) "").
    assert (str_contains "playlist/" tail = false) as Htail.
    { unfold tail, split.
      pose proof (last_segment_clean "playlist/" playlist_url 0) as Hlast.
      destruct (split_scan "playlist/" 0 playlist_url). by apply Hlast. }
    pose proof (first_segment_clean "?" tail) as Hfirst.
    destruct (first_segment_prefix "?" tail) as [r Hr].
    destruct (split_scan "?" 0 tail) as [h t]. cbn [fst snd] in *.
    split; [by apply Hfirst|].
    destruct (str_contains "playlist/" h) eqn:Hh; [|done].
    apply (str_contains_app_l _ _ r) in Hh. congruence.
  - intros base id query -> Hbase Hid Hrest Hquery.
    rewrite (str_contains_app_l _ _ _ Hbase).
    rewrite (last_segment_of_link (String.length base) base (id +:+ query)) by done.
    by apply first_segment_of_id.
  - intros -> Hnone. unfold split at 2. by rewrite split_scan_none.
Qed.

End extract_playlist_id_properties.

Lemma extract_playlist_id_cases_witness :
  PlaylistFetch.extract_playlist_id "https://open.spotify.com/playlist/37i9dQZF1DX?si=0a1b"
  = "37i9dQZF1DX".
Proof.
  destruct (extract_playlist_id_cases
              "https://open.spotify.com/playlist/37i9dQZF1DX?si=0a1b") as (_ & _ & Hid & _).
  apply (Hid "https://open.spotify.com/" "37i9dQZF1DX" "?si=0a1b"); try reflexivity.
  by right.
Defined.

(** ** backend/main.py and backend/pipeline.py: the three flows compared

    [pipeline.process_playlist] and [process_playlist_with_progress]
    run the three pools one after the other;
    [process_features_with_progress] runs the tempo pipeline beside the
    lyrics and sentiment pipeline and merges. *)

Module Flows.

Import PlaylistFetch Pipeline.

Section flows.

Variable search_preview_url : value -> value -> outcome value.
Variable download_and_beat_track : value -> outcome R.
Variable spotify_credentials : option (string * string).
Variable search_song : value -> value -> outcome (option LyricsFetch.Song).
Variable preprocess_lyrics_for_sentiment : string -> string.
Variable split_into_stanzas : string -> list string.
Variable sentiment_classifier : string -> outcome (string * R).

(** Each pool has its own completion order. *)
Variable order_audio : list nat.
Variable order_lyrics : list nat.
Variable order_sentiment : list nat.

(** Steps 2 to 5 of [process_playlist_with_progress], on the tracks of
    step 1: the callbacks of the pools write to the registry only. *)
Definition process_playlist_with_progress (tracks : list Track) : outcome (list Track) :=
  tracks ← (AudioFeatures.add_audio_features_to_tracks search_preview_url
              download_and_beat_track order_audio tracks spotify_credentials).1;
  lyrics ← LyricsFetch.fetch_lyrics_for_tracks search_song order_lyrics tracks;
  sentiment ← SentimentAnalysis.add_sentiment_to_tracks preprocess_lyrics_for_sentiment
                split_into_stanzas sentiment_classifier order_sentiment lyrics.1;
  Main.normalize_sentiment_scores sentiment.1.

(** [playlist_fetch.get_playlist_tracks], on what
    [get_playlist_tracks_basic] returned. *)
Definition get_playlist_tracks (basic : list Track * string)
    : outcome (list Track * string) :=
  let '(track_info_list, playlist_name) := basic in
  track_info_list ← (AudioFeatures.add_audio_features_to_tracks search_preview_url
                       download_and_beat_track order_audio track_info_list
                       spotify_credentials).1;
  Returned (track_info_list, playlist_name).

(** The dictionary that [pipeline.process_playlist] returns. *)
Record Result : Type := {
  result_playlist_name : string;
  result_track_count : nat;
  result_tracks : list Track;
  result_output_file : string
}.

Definition process_playlist (basic : list Track * string) (playlists : directory)
    : outcome (Result * directory) :=
  '(tracks, playlist_name) ← get_playlist_tracks basic;
  lyrics ← LyricsFetch.fetch_lyrics_for_tracks search_song order_lyrics tracks;
  sentiment ← SentimentAnalysis.add_sentiment_to_tracks preprocess_lyrics_for_sentiment
                split_into_stanzas sentiment_classifier order_sentiment lyrics.1;
  let tracks := sentiment.1 in
  let '(output_file, playlists) := save_playlist_json tracks playlist_name playlists in
  Returned (Build_Result playlist_name (length tracks) tracks output_file, playlists).

End flows.

End Flows.

Section flows_compared.

Import Main PlaylistFetch Pipeline Flows.

Variable search_preview_url : value -> value -> outcome value.
Variable download_and_beat_track : value -> outcome R.
Variable spotify_credentials : option (string * string).
Variable search_song : value -> value -> outcome (option LyricsFetch.Song).
Variable preprocess_lyrics_for_sentiment : string -> string.
Variable split_into_stanzas : string -> list string.
Variable sentiment_classifier : string -> outcome (string * R).

Local Abbreviation merged_tracks :=
  (Main.merged_tracks search_preview_url download_and_beat_track spotify_credentials
     search_song preprocess_lyrics_for_sentiment split_into_stanzas sentiment_classifier).
Local Abbreviation final_tracks :=
  (Main.final_tracks search_preview_url download_and_beat_track spotify_credentials
     search_song preprocess_lyrics_for_sentiment split_into_stanzas sentiment_classifier).
Local Abbreviation process_playlist_with_progress :=
  (Flows.process_playlist_with_progress search_preview_url download_and_beat_track
     spotify_credentials search_song preprocess_lyrics_for_sentiment split_into_stanzas
     sentiment_classifier).
Local Abbreviation process_playlist :=
  (Flows.process_playlist search_preview_url download_and_beat_track
     spotify_credentials search_song preprocess_lyrics_for_sentiment split_into_stanzas
     sentiment_classifier).
Local Abbreviation tempo_done :=
  (tempo_done search_preview_url download_and_beat_track spotify_credentials).
Local Abbreviation sentiment_done :=
  (sentiment_done search_song preprocess_lyrics_for_sentiment split_into_stanzas
     sentiment_classifier).

(** What the three pools, one after the other, make of a list of
    tracks. *)
Lemma pools_in_sequence (order_audio order_lyrics order_sentiment : list nat)
    (tracks : list Track) :
  Forall artists_ok tracks ->
  order_audio ≡ₚ seq 0 (length tracks) ->
  order_lyrics ≡ₚ seq 0 (length tracks) ->
  order_sentiment ≡ₚ seq 0 (length tracks) ->
  exists calls calls',
    (AudioFeatures.add_audio_features_to_tracks search_preview_url
       download_and_beat_track order_audio tracks spotify_credentials).1
    = Returned (tempo_done <$> tracks) /\
    LyricsFetch.fetch_lyrics_for_tracks search_song order_lyrics (tempo_done <$> tracks)
    = Returned (fetched search_song <$> (tempo_done <$> tracks), calls) /\
    SentimentAnalysis.add_sentiment_to_tracks preprocess_lyrics_for_sentiment
      split_into_stanzas sentiment_classifier order_sentiment
      (fetched search_song <$> (tempo_done <$> tracks))
    = Returned ((fun t => sentiment_done (tempo_done t)) <$> tracks, calls').
Proof.
  intros Hok Ha Hl Hs.
  destruct (lyrics_pool_returns search_song order_lyrics (tempo_done <$> tracks))
    as [calls Hlyrics].
  { by rewrite length_fmap. }
  { apply Forall_fmap. eapply Forall_impl; [exact Hok|]. intros t Ht. simpl.
    apply (artists_ok_lookup t); [|done].
    apply (tempo_done_other _ _ _ search_song); [done | closed_key]. }
  destruct (sentiment_pool_returns preprocess_lyrics_for_sentiment split_into_stanzas
              sentiment_classifier order_sentiment
              (fetched search_song <$> (tempo_done <$> tracks))) as [calls' Hsent].
  { by rewrite !length_fmap. }
  exists calls, calls'. split; [by apply audio_pool_returns|]. split; [done|].
  rewrite Hsent. by rewrite <- !list_fmap_compose.
Qed.

(** X14. The three flows on the same tracks: on well-typed tracks
    without tempo fields, whatever the completion orders of the pools
    and the interleaving of the two pipelines, the sequential flow
    [process_playlist_with_progress] ends with the collection that the
    parallel flow [process_features_with_progress] ends with; and
    [pipeline.process_playlist] returns and saves the collection that
    the parallel flow merges, before any normalisation, with its
    number of tracks. *)
Theorem flows_agree (order_audio order_lyrics order_sentiment : list nat)
    (tracks : list Track) (playlist_name : string) (playlists : directory)
    (schedule : list flow_event) (merged : list Track) :
  Forall fresh tracks ->
  Forall artists_ok tracks ->
  order_audio ≡ₚ seq 0 (length tracks) ->
  order_lyrics ≡ₚ seq 0 (length tracks) ->
  order_sentiment ≡ₚ seq 0 (length tracks) ->
  merged_tracks tracks schedule = Some merged ->
  final_tracks tracks schedule
  = Some (process_playlist_with_progress order_audio order_lyrics order_sentiment tracks) /\
  process_playlist order_audio order_lyrics order_sentiment (tracks, playlist_name)
    playlists
  = Returned (Build_Result playlist_name (length tracks) merged
                ("playlists/" +:+ sanitize_filename playlist_name +:+ ".json"),
              <[sanitize_filename playlist_name +:+ ".json" := JsonList merged]>
                playlists).
Proof.
  intros Hfresh Hok Ha Hl Hs Hmerged.
  destruct (pools_in_sequence order_audio order_lyrics order_sentiment tracks Hok Ha Hl Hs)
    as (calls & calls' & Haudio & Hlyrics & Hsent).
  apply merged_on_fresh_tracks in Hmerged as Hm; [|done..].
  split.
  - unfold Main.final_tracks. fold (merged_tracks tracks schedule). rewrite Hmerged.
    simpl. f_equal. unfold Flows.process_playlist_with_progress.
    rewrite Haudio. cbn [mbind outcome_bind]. rewrite Hlyrics. cbn [mbind outcome_bind fst].
    rewrite Hsent. cbn [mbind outcome_bind fst]. by rewrite Hm.
  - unfold Flows.process_playlist, Flows.get_playlist_tracks.
    rewrite Haudio. cbn [mbind outcome_bind]. rewrite Hlyrics. cbn [mbind outcome_bind fst].
    rewrite Hsent. cbn [mbind outcome_bind fst]. unfold save_playlist_json.
    by rewrite length_fmap, <- Hm.
Qed.

End flows_compared.

(** Two tracks whose tasks are submitted and met in different orders
    by the two pipelines. *)
Definition crossed_schedule : list Main.flow_event :=
  [Main.SubmitBpm; Main.SubmitSentiment; Main.SubmitSentiment; Main.SubmitBpm;
   Main.YieldSentiment 1; Main.YieldBpm 0; Main.YieldBpm 1; Main.YieldSentiment 0].

Lemma flows_agree_witness :
  Main.final_tracks no_preview tempo_120 None one_song keep_text one_stanza
    rather_positive [track_a; track_b] crossed_schedule
  = Some (Flows.process_playlist_with_progress no_preview tempo_120 None one_song
            keep_text one_stanza rather_positive [1; 0] [0; 1] [1; 0] [track_a; track_b]).
Proof.
  destruct (Main.merged_tracks no_preview tempo_120 None one_song keep_text one_stanza
              rather_positive [track_a; track_b] crossed_schedule) as [merged|] eqn:Hmerged.
  - apply (flows_agree no_preview tempo_120 None one_song keep_text one_stanza
             rather_positive [1; 0] [0; 1] [1; 0] [track_a; track_b] "Mix" ∅
             crossed_schedule merged).
    + repeat constructor; intros k [-> | ->]%tempo_key_cases; reflexivity.
    + repeat constructor; vm_compute; exact I.
    + apply perm_swap.
    + reflexivity.
    + apply perm_swap.
    + exact Hmerged.
  - assert (match Main.merged_tracks no_preview tempo_120 None one_song keep_text
                    one_stanza rather_positive [track_a; track_b] crossed_schedule with
            | Some _ => true
            | None => false
            end = true) as Hsome by (vm_compute; reflexivity).
    rewrite Hmerged in Hsome. discriminate Hsome.
Defined.

(** ** backend/lyrics_fetch.py: the lyrics that are stored *)

Section lyrics_properties.

Import Text.

Variable search_song : value -> value -> outcome (option LyricsFetch.Song).

Local Abbreviation fetch_lyrics_single := (LyricsFetch.fetch_lyrics_single search_song).

Lemma str_lstrip_chars (s : string) : str_lstrip s = lstrip_chars is_space s.
Proof. induction s as [|c s IH]; [done|]. simpl. by rewrite IH. Qed.

Lemma str_rstrip_chars (s : string) : str_rstrip s = rstrip_chars is_space s.
Proof. induction s as [|c s IH]; [done|]. simpl. by rewrite IH. Qed.

(** What [strip] returns has no white space at its ends, and is a part
    of the text. *)
Lemma str_strip_stripped (s : string) : str_strip (str_strip s) = str_strip s.
Proof.
  unfold str_strip. rewrite !str_lstrip_chars, !str_rstrip_chars.
  rewrite (lstrip_chars_id _ (rstrip_chars _ _)).
  - apply rstrip_chars_id. intros c Hc. by apply rstrip_chars_last in Hc.
  - intros c Hc. by apply rstrip_chars_first, lstrip_chars_first in Hc.
Qed.

Lemma str_lstrip_suffix (s : string) : exists x, s = x +:+ str_lstrip s.
Proof.
  induction s as [|c s [x IH]]; [by exists ""|]. simpl.
  destruct (is_space c); [|by exists ""].
  exists (String c x). by rewrite str_app_cons, <- IH.
Qed.

Lemma str_rstrip_prefix (s : string) : exists y, s = str_rstrip s +:+ y.
Proof.
  induction s as [|c s [y IH]]; [by exists ""|]. simpl.
  destruct (str_rstrip s) as [|c' r].
  - destruct (is_space c); [by exists (String c s)|].
    exists y. by rewrite str_app_cons, <- IH.
  - exists y. by rewrite str_app_cons, <- IH.
Qed.

Lemma str_strip_contains (sep s : string) :
  str_contains sep s = false -> str_contains sep (str_strip s) = false.
Proof.
  intros Hs. unfold str_strip.
  destruct (str_lstrip_suffix s) as [x Hx].
  destruct (str_rstrip_prefix (str_lstrip s)) as [y Hy].
  destruct (str_contains sep (str_rstrip (str_lstrip s))) eqn:Hc; [|done].
  apply (str_contains_app_l _ _ y) in Hc. rewrite <- Hy in Hc.
  apply (str_contains_app_r _ x) in Hc. rewrite <- Hx in Hc. congruence.
Qed.

(** The text before the first occurrence of a word holds no occurrence
    of it. *)
Lemma str_before_prefix (sep s h : string) :
  str_before sep s = Some h -> exists r, s = h +:+ r.
Proof.
  revert h. induction s as [|c s IH]; intros h; cbn [str_before].
  - destruct (String.prefix sep ""); [|done]. intros [= <-]. by exists "".
  - destruct (String.prefix sep (String c s)).
    + intros [= <-]. by exists (String c s).
    + destruct (str_before sep s) as [h'|]; [|done]. intros [= <-].
      destruct (IH h' eq_refl) as [r ->]. by exists r.
Qed.

Lemma str_before_clean (sep s h : string) :
  sep ≠ "" -> str_before sep s = Some h -> str_contains sep h = false.
Proof.
  intros Hsep. revert h. induction s as [|c s IH]; intros h; cbn [str_before].
  - destruct (String.prefix sep ""); [|done]. intros [= <-]. by apply str_contains_nil.
  - destruct (String.prefix sep (String c s)) eqn:Hp.
    + intros [= <-]. by apply str_contains_nil.
    + destruct (str_before sep s) as [h'|] eqn:Hs; [|done]. intros [= <-].
      rewrite str_contains_cons, (IH h' eq_refl), orb_false_r.
      destruct (str_before_prefix sep s h' Hs) as [r ->].
      destruct (String.prefix sep (String c h')) eqn:Hq; [|done].
      apply (prefix_mono _ _ r) in Hq. rewrite str_app_cons in Hq. congruence.
Qed.

(** Lyrics without white space at their ends and without the word that
    ends the pages of Genius. *)
Definition clean_lyrics (lyrics : string) : Prop :=
  str_strip lyrics = lyrics /\ str_contains "Embed" lyrics = false.

Lemma cleaned_lyrics_clean (lyrics : string) :
  clean_lyrics match str_before "Embed" (str_strip lyrics) with
               | Some head => str_strip head
               | None => str_strip lyrics
               end.
Proof.
  unfold clean_lyrics. destruct (str_before "Embed" (str_strip lyrics)) as [head|] eqn:Hb.
  - split; [apply str_strip_stripped|].
    apply str_strip_contains. by apply (str_before_clean "Embed" (str_strip lyrics)).
  - split; [apply str_strip_stripped|]. unfold str_contains. by rewrite Hb.
Qed.

(** X15. The lyrics that [fetch_lyrics_single] stores: on a track
    without lyrics a search is sent, and afterwards either [lyrics]
    and [lyrics_source] are [None] and [genius_url] is as it was, or
    [lyrics_source] is ['genius'], [genius_url] is set and [lyrics] is
    a text without white space at its ends and without the word
    [Embed].  Nothing else is changed. *)
Theorem fetched_lyrics_clean (t u : Track) (searches : list (value * value)) :
  truthy (dict_get t "lyrics") = false ->
  fetch_lyrics_single t = Returned (u, searches) ->
  length searches = 1 /\
  (forall k, k ∉ ["lyrics"; "lyrics_source"; "genius_url"] -> u !! k = t !! k) /\
  ((u !! "lyrics" = Some VNone /\ u !! "lyrics_source" = Some VNone /\
    u !! "genius_url" = t !! "genius_url") \/
   (exists lyrics,
      u !! "lyrics" = Some (VStr lyrics) /\ u !! "lyrics_source" = Some (VStr "genius") /\
      is_Some (u !! "genius_url") /\ clean_lyrics lyrics)).
Proof.
  intros Hnone. rewrite fetch_lyrics_single_unfold.
  destruct (if truthy _ then _ else _) as [artist|e]; cbn [mbind outcome_bind]; [|done].
  rewrite Hnone, andb_false_r. intros [= <- <-]. split; [done|]. split.
  - intros k Hk. apply searched_other; intros ->; apply Hk; closed_key.
  - unfold searched, LyricsFetch.no_lyrics.
    destruct (search_song _ _) as [[song|]|e].
    2,3: left; rewrite !lookup_insert; by repeat case_decide.
    destruct (truthy (VStr (LyricsFetch.song_lyrics song))).
    + right. eexists. rewrite !lookup_insert. repeat case_decide; try done.
      split; [done|]. split; [done|]. split; [by eexists|].
      apply cleaned_lyrics_clean.
    + left. rewrite !lookup_insert. by repeat case_decide.
Qed.

End lyrics_properties.

(** A page of Genius, with its footer. *)
Definition song_with_footer (_ _ : value) : outcome (option LyricsFetch.Song) :=
  Returned (Some {| LyricsFetch.song_lyrics := "  la la la 12Embed";
                    LyricsFetch.song_url := Some (VStr "https://genius.com/b") |}).

Lemma fetched_lyrics_clean_witness :
  match LyricsFetch.fetch_lyrics_single song_with_footer track_b with
  | Returned (u, _) =>
      u !! "title" = Some (VStr "Song B") /\
      (u !! "lyrics" = Some VNone \/
       exists lyrics, u !! "lyrics" = Some (VStr lyrics) /\ clean_lyrics lyrics)
  | Raised _ => False
  end.
Proof.
  destruct (LyricsFetch.fetch_lyrics_single song_with_footer track_b) as [[u searches]|e]
    eqn:Hfetch.
  - destruct (fetched_lyrics_clean song_with_footer track_b u searches)
      as (_ & Hkeep & Hlyrics).
    + reflexivity.
    + exact Hfetch.
    + split; [rewrite Hkeep; [reflexivity | closed_key]|].
      destruct Hlyrics as [(Hnone & _)|(lyrics & Hl & _ & _ & Hclean)]; [by left|].
      right. by exists lyrics.
  - assert (match LyricsFetch.fetch_lyrics_single song_with_footer track_b with
            | Returned _ => true
            | Raised _ => false
            end = true) as Hreturned by (vm_compute; reflexivity).
    rewrite Hfetch in Hreturned. discriminate Hreturned.
Defined.

(** ** backend/main.py: the range of the normalised scores *)

Section normalization_range.

Import Main.

Lemma sigmoid_range (z : R) : (0 < sigmoid z < 1)%R.
Proof.
  unfold sigmoid, Numpy.exp. pose proof (exp_pos (- z)) as Hexp.
  unfold Rdiv. rewrite Rmult_1_l. split.
  - apply Rinv_0_lt_compat. lra.
  - rewrite <- Rinv_1 at 2. apply Rinv_lt_contravar; lra.
Qed.

(** A sentiment score is between 0 and 1 when it is a number. *)
Definition score_in_unit (t : Track) : Prop :=
  forall s, dict_get t "sentiment_score" = VNum s -> (0 <= s <= 1)%R.

(** What the pass changes of a track: three keys at most, and not the
    presence of the score. *)
Definition same_but_scores (t u : Track) : Prop :=
  has_sentiment u = has_sentiment t /\
  forall k, k ∉ ["sentiment_score"; "normalized_sentiment"; "raw_sentiment"] ->
            u !! k = t !! k.

Lemma collapse_sound (t : Track) :
  score_typed t ->
  score_typed (collapse t) /\ score_in_unit (collapse t) /\ same_but_scores t (collapse t).
Proof.
  intros Ht. destruct (has_sentiment t) eqn:Hs.
  - destruct (collapse_fields t Hs) as (Hscore & _ & _ & Hkeep).
    unfold score_typed, score_in_unit, same_but_scores, has_sentiment.
    rewrite Hscore. split; [done|]. split; [intros s [= <-]; lra|].
    split; [|done]. unfold has_sentiment in Hs. by rewrite Hs.
  - unfold collapse. rewrite Hs. split; [done|]. split; [|by split].
    intros s Hscore. unfold has_sentiment in Hs. by rewrite Hscore in Hs.
Qed.

Lemma squashed_sound (median iqr : R) (t : Track) :
  score_typed t ->
  score_typed (squashed median iqr t) /\ score_in_unit (squashed median iqr t) /\
  same_but_scores t (squashed median iqr t).
Proof.
  intros Ht. destruct (dict_get t "sentiment_score") as [|s|s|l] eqn:Hs.
  - unfold squashed. rewrite Hs. split; [done|]. split; [|by split].
    intros s Hscore. congruence.
  - destruct (squashed_fields median iqr s t Hs) as (Hscore & _ & _ & Hkeep).
    unfold score_typed, score_in_unit, same_but_scores, has_sentiment.
    rewrite Hscore, Hs. split; [done|]. split; [|by split].
    intros v [= <-]. pose proof (sigmoid_range ((s - median) / iqr)). lra.
  - unfold score_typed in Ht. by rewrite Hs in Ht.
  - unfold score_typed in Ht. by rewrite Hs in Ht.
Qed.

(** X16. The scores after the normalisation pass: on tracks whose
    sentiment score is [None] or a number the pass never raises; in
    each of its three cases it returns a list of the same length whose
    tracks differ from the given ones in the keys [sentiment_score],
    [normalized_sentiment] and [raw_sentiment] at most and have a
    score exactly when the given ones have; the scores returned are
    again [None] or numbers; and when the given scores are between 0
    and 1, so are the scores returned.  The result can be given to the
    pass again. *)
Theorem normalize_keeps_unit_interval (tracks : list Track) :
  Forall score_typed tracks ->
  exists res,
    normalize_sentiment_scores tracks = Returned res /\
    length res = length tracks /\
    Forall score_typed res /\
    Forall2 same_but_scores tracks res /\
    (Forall score_in_unit tracks -> Forall score_in_unit res).
Proof.
  intros Htyped. rewrite normalize_cases by done.
  destruct (_ <? 2).
  { exists tracks. split; [done|]. split; [done|]. split; [done|]. split; [|done].
    apply Forall_Forall2_diag. by apply Forall_true. }
  destruct (Rlt_dec _ _).
  - exists (collapse <$> tracks). split; [done|]. split; [apply length_fmap|].
    rewrite !Forall_fmap, Forall2_fmap_r. split; [|split].
    + eapply Forall_impl; [exact Htyped|]. intros t Ht. by apply collapse_sound.
    + apply Forall_Forall2_diag. eapply Forall_impl; [exact Htyped|].
      intros t Ht. by apply collapse_sound.
    + intros _. eapply Forall_impl; [exact Htyped|]. intros t Ht. by apply collapse_sound.
  - eexists. split; [done|]. split; [apply length_fmap|].
    rewrite !Forall_fmap, Forall2_fmap_r. split; [|split].
    + eapply Forall_impl; [exact Htyped|]. intros t Ht. by apply squashed_sound.
    + apply Forall_Forall2_diag. eapply Forall_impl; [exact Htyped|].
      intros t Ht. by apply squashed_sound.
    + intros _. eapply Forall_impl; [exact Htyped|]. intros t Ht. by apply squashed_sound.
Qed.

End normalization_range.

Lemma normalize_keeps_unit_interval_witness :
  exists res,
    Main.normalize_sentiment_scores [scored 0.2; scored 0.5; track_b; scored 0.8]
    = Returned res /\
    length res = 4 /\
    Forall score_in_unit res.
Proof.
  destruct (normalize_keeps_unit_interval [scored 0.2; scored 0.5; track_b; scored 0.8])
    as (res & Hres & Hlen & _ & _ & Hunit).
  - repeat constructor.
  - exists res. split; [exact Hres|]. split; [exact Hlen|]. apply Hunit.
    repeat (apply Forall_cons_2; [intros s Hs|]); [..|apply Forall_nil_2].
    + change (VNum 0.2 = VNum s) in Hs. injection Hs as <-. lra.
    + change (VNum 0.5 = VNum s) in Hs. injection Hs as <-. lra.
    + change (VNone = VNum s) in Hs. discriminate Hs.
    + change (VNum 0.8 = VNum s) in Hs. injection Hs as <-. lra.
Defined.
